(** * A shallow embedding of the reverse proxy's request-routing core

    The development follows the Go packages [config] and [proxy]:
    the backend records, the three load balancers, the health checker and
    the per-request pipeline [ServeHTTP].

    Conventions.
    - Go's [uint32] and [int] are modelled as [Z] with the wrap-around
      written out ([uint32], [wrap_int]; [int] is taken to be 64 bits wide).
    - A [*Backend] is a position in the store of backend records
      ([list Backend]); the slice [[]*Backend] built by [New] is the list of
      positions [0, 1, ..., n-1] ([ptrs]).
    - A Go function that mutates its receiver returns the new receiver next
      to its result; a run-time panic is an explicit outcome ([Panic]). *)

From Stdlib Require Import ZArith Lia Bool Znumtheory.
From stdpp Require Import base list strings.

Local Open Scope Z_scope.

(** ** Machine integers *)

Definition uint32 (z : Z) : Z := z mod 2 ^ 32.

Definition wrap_int (z : Z) : Z := (z + 2 ^ 63) mod 2 ^ 64 - 2 ^ 63.

(** [atomic.AddUint32(&x, delta)]: the new value, which is also stored. *)
Definition AddUint32 (x delta : Z) : Z := uint32 (x + delta).

(** ** Outcomes of a call *)

Inductive panic : Type :=
| DivideByZero
| IndexOutOfRange
| NilDereference
| AbortHandler.

Inductive result (A : Type) : Type :=
| Ret (a : A)
| Panic (p : panic).
Arguments Ret {A} a.
Arguments Panic {A} p.

(** ** Package config *)

Module config.

Record ServerConfig : Type := mkServerConfig {
  Address : string;
  ReadTimeout : Z;
  WriteTimeout : Z;
  IdleTimeout : Z
}.

Record Backend : Type := mkBackend {
  URL : string;
  Weight : Z
}.

Record LoadBalancerConfig : Type := mkLoadBalancerConfig {
  Algorithm : string
}.

Record HealthCheckConfig : Type := mkHealthCheckConfig {
  Enabled : bool;
  Interval : Z;
  Timeout : Z;
  Path : string
}.

Record LoggingConfig : Type := mkLoggingConfig {
  Level : string;
  Format : string
}.

Record TLSConfig : Type := mkTLSConfig {
  TLSEnabled : bool;
  CertFile : string;
  KeyFile : string
}.

Record LimitsConfig : Type := mkLimitsConfig {
  MaxConnections : Z;
  MaxIdleConns : Z;
  MaxConnsPerHost : Z;
  RequestTimeout : Z;
  MaxRequestBodySize : Z
}.

Record Config : Type := mkConfig {
  Server : ServerConfig;
  Backends : list Backend;
  LoadBalancer : LoadBalancerConfig;
  HealthCheck : HealthCheckConfig;
  Logging : LoggingConfig;
  TLS : option TLSConfig;
  Limits : LimitsConfig
}.

(** The errors [Validate] reports, one constructor per [fmt.Errorf]. *)
Inductive error : Type :=
| ErrServerAddress
| ErrNoBackend
| ErrBackendURLRequired (i : nat)
| ErrBackendURLInvalid (i : nat) (u : string)
| ErrBackendWeight (i : nat)
| ErrAlgorithm (a : string)
| ErrReadTimeout
| ErrWriteTimeout
| ErrIdleTimeout
| ErrHealthInterval
| ErrHealthTimeout
| ErrLoggingLevel (l : string)
| ErrLoggingFormat (f : string)
| ErrTLSCertFile
| ErrTLSKeyFile
| ErrMaxConnections
| ErrMaxIdleConns
| ErrMaxConnsPerHost
| ErrRequestTimeout
| ErrMaxRequestBodySize.

Section Validate.

(** [url.Parse] and [strings.ToLower] belong to Go's library. *)
Variable url_Parse : string -> option string.
Variable strings_ToLower : string -> string.

Definition mem (s : string) (l : list string) : bool :=
  bool_decide (s ∈ l).

(** The loop [for i, backend := range c.Backends] of [Validate]:
    the first error found, if any. *)
Fixpoint validate_backends (i : nat) (bs : list Backend) : option error :=
  match bs with
  | [] => None
  | backend :: rest =>
      if bool_decide (URL backend = "") then Some (ErrBackendURLRequired i)
      else match url_Parse (URL backend) with
      | None => Some (ErrBackendURLInvalid i (URL backend))
      | Some _ =>
          if Weight backend <? 0 then Some (ErrBackendWeight i)
          else validate_backends (S i) rest
      end
  end.

(** The block [if c.TLS != nil && c.TLS.Enabled { ... }]. *)
Definition validate_tls (tls : option TLSConfig) : option error :=
  match tls with
  | Some t =>
      if TLSEnabled t then
        if bool_decide (CertFile t = "") then Some ErrTLSCertFile
        else if bool_decide (KeyFile t = "") then Some ErrTLSKeyFile
        else None
      else None
  | None => None
  end.

(** [func (c *Config) Validate() error]; [None] is the nil error.  The
    maps [validAlgorithms], [validLevels] and [validFormats] hold [true]
    for the listed keys only, so a lookup is a membership test. *)
Definition Validate (c : Config) : option error :=
  if bool_decide (Address (Server c) = "") then Some ErrServerAddress
  else if bool_decide (length (Backends c) = 0%nat) then Some ErrNoBackend
  else match validate_backends 0 (Backends c) with
  | Some e => Some e
  | None =>
  if negb (mem (Algorithm (LoadBalancer c))
             ["round-robin"; "least-connections"; "weighted"])
  then Some (ErrAlgorithm (Algorithm (LoadBalancer c)))
  else if ReadTimeout (Server c) <? 0 then Some ErrReadTimeout
  else if WriteTimeout (Server c) <? 0 then Some ErrWriteTimeout
  else if IdleTimeout (Server c) <? 0 then Some ErrIdleTimeout
  else if Enabled (HealthCheck c) && (Interval (HealthCheck c) <? 0)
  then Some ErrHealthInterval
  else if Enabled (HealthCheck c) && (Timeout (HealthCheck c) <? 0)
  then Some ErrHealthTimeout
  else if negb (mem (strings_ToLower (Level (Logging c)))
                  ["debug"; "info"; "warn"; "error"])
  then Some (ErrLoggingLevel (Level (Logging c)))
  else if negb (mem (strings_ToLower (Format (Logging c))) ["json"; "text"])
  then Some (ErrLoggingFormat (Format (Logging c)))
  else match validate_tls (TLS c) with
  | Some e => Some e
  | None =>
  if MaxConnections (Limits c) <? 0 then Some ErrMaxConnections
  else if MaxIdleConns (Limits c) <? 0 then Some ErrMaxIdleConns
  else if MaxConnsPerHost (Limits c) <? 0 then Some ErrMaxConnsPerHost
  else if RequestTimeout (Limits c) <? 0 then Some ErrRequestTimeout
  else if MaxRequestBodySize (Limits c) <? 0 then Some ErrMaxRequestBodySize
  else None
  end
  end.

(** [time.Second], in nanoseconds as [time.Duration] counts. *)
Definition Second : Z := 1000000000.

(** [func setDefaults(cfg *Config)]: the configuration with every field
    that holds its zero value replaced by the default. *)
Definition setDefaults (cfg : Config) : Config :=
  let dflt (z d : Z) : Z := if z =? 0 then d else z in
  let dflts (x d : string) : string :=
    if bool_decide (x = "") then d else x in
  {| Server :=
       {| Address := Address (Server cfg);
          ReadTimeout := dflt (ReadTimeout (Server cfg)) (10 * Second);
          WriteTimeout := dflt (WriteTimeout (Server cfg)) (10 * Second);
          IdleTimeout := dflt (IdleTimeout (Server cfg)) (120 * Second) |};
     Backends := Backends cfg;
     LoadBalancer :=
       {| Algorithm := dflts (Algorithm (LoadBalancer cfg)) "round-robin" |};
     HealthCheck :=
       {| Enabled := Enabled (HealthCheck cfg);
          Interval := dflt (Interval (HealthCheck cfg)) (10 * Second);
          Timeout := dflt (Timeout (HealthCheck cfg)) (5 * Second);
          Path := dflts (Path (HealthCheck cfg)) "/health" |};
     Logging :=
       {| Level := dflts (Level (Logging cfg)) "info";
          Format := dflts (Format (Logging cfg)) "text" |};
     TLS := TLS cfg;
     Limits :=
       {| MaxConnections := dflt (MaxConnections (Limits cfg)) 10000;
          MaxIdleConns := dflt (MaxIdleConns (Limits cfg)) 100;
          MaxConnsPerHost := dflt (MaxConnsPerHost (Limits cfg)) 100;
          RequestTimeout := dflt (RequestTimeout (Limits cfg)) (30 * Second);
          MaxRequestBodySize :=
            dflt (MaxRequestBodySize (Limits cfg)) (10 * 1024 * 1024) |} |}.

(** [os.ReadFile] and [yaml.Unmarshal] belong to the system and to the
    YAML library: the bytes of the file at a path, and the configuration
    they denote, if any. *)
Variable os_ReadFile : string -> option string.
Variable yaml_Unmarshal : string -> option Config.

Inductive load_error : Type :=
| ErrReadConfig
| ErrParseConfig
| ErrInvalidConfig (e : error).

Inductive load_result : Type :=
| Loaded (cfg : Config)
| LoadFailed (e : load_error).

(** [func Load(path string)]: the configuration with its defaults set,
    once it has passed [Validate], or the error. *)
Definition Load (path : string) : load_result :=
  match os_ReadFile path with
  | None => LoadFailed ErrReadConfig
  | Some data =>
      match yaml_Unmarshal data with
      | None => LoadFailed ErrParseConfig
      | Some cfg =>
          let cfg := setDefaults cfg in
          match Validate cfg with
          | Some e => LoadFailed (ErrInvalidConfig e)
          | None => Loaded cfg
          end
      end
  end.

End Validate.

End config.

(** ** Package proxy: the backend record *)

(** A pointer [*Backend]: the position of the record in the store. *)
Abbreviation ptr := nat (only parsing).

(** [type Backend struct]; the [Proxy] field is the external transport and
    the mutex has no content.  [URL] is the parsed address. *)
Record Backend : Type := mkBackend {
  URL : string;
  Alive : bool;
  Weight : Z;
  Connections : Z
}.

Definition SetAlive (alive : bool) (b : Backend) : Backend :=
  {| URL := URL b; Alive := alive; Weight := Weight b;
     Connections := Connections b |}.

(** [backend.Connections++] and [backend.Connections--] on Go's [int]. *)
Definition incConnections (b : Backend) : Backend :=
  {| URL := URL b; Alive := Alive b; Weight := Weight b;
     Connections := wrap_int (Connections b + 1) |}.

Definition decConnections (b : Backend) : Backend :=
  {| URL := URL b; Alive := Alive b; Weight := Weight b;
     Connections := wrap_int (Connections b - 1) |}.

(** The slice of pointers to all the records of a store, in pool order. *)
Definition ptrs (pool : list Backend) : list ptr := seq 0 (length pool).

(** ** Load balancers *)

Record RoundRobinBalancer : Type := mkRoundRobinBalancer {
  rr_backends : list ptr;
  rr_current : Z
}.

Definition NewRoundRobinBalancer (backends : list ptr) : RoundRobinBalancer :=
  {| rr_backends := backends; rr_current := 0 |}.

(** The loop shared, word for word, by the round-robin and the weighted
    balancer:
<<
    for i := 0; i < n; i++ {
        idx := atomic.AddUint32(&current, 1) % uint32(n)
        backend := slots[idx]
        if backend.IsAlive() { return backend }
    }
    return nil
>>
    [iters] counts the iterations left; the cursor is returned with the
    result. *)
Fixpoint scan (pool : list Backend) (slots : list ptr) (n : Z)
    (iters : nat) (current : Z) : Z * result (option ptr) :=
  match iters with
  | O => (current, Ret None)
  | S iters' =>
      let current' := AddUint32 current 1 in
      if uint32 n =? 0 then (current', Panic DivideByZero)
      else
        match slots !! Z.to_nat (current' mod uint32 n) with
        | None => (current', Panic IndexOutOfRange)
        | Some p =>
            match pool !! p with
            | None => (current', Panic NilDereference)
            | Some backend =>
                if Alive backend then (current', Ret (Some p))
                else scan pool slots n iters' current'
            end
        end
  end.

Definition RoundRobin_NextBackend (pool : list Backend)
    (rb : RoundRobinBalancer) : RoundRobinBalancer * result (option ptr) :=
  let n := length (rr_backends rb) in
  if bool_decide (n = 0%nat) then (rb, Ret None)
  else
    let '(current, r) :=
      scan pool (rr_backends rb) (Z.of_nat n) n (rr_current rb) in
    ({| rr_backends := rr_backends rb; rr_current := current |}, r).

Record LeastConnectionsBalancer : Type := mkLeastConnectionsBalancer {
  lc_backends : list ptr
}.

Definition NewLeastConnectionsBalancer (backends : list ptr)
    : LeastConnectionsBalancer :=
  {| lc_backends := backends |}.

(** The loop [for _, backend := range lb.backends] with its two
    variables [selected] and [minConnections]. *)
Fixpoint lc_scan (pool : list Backend) (backends : list ptr)
    (selected : option ptr) (minConnections : Z) : result (option ptr) :=
  match backends with
  | [] => Ret selected
  | p :: rest =>
      match pool !! p with
      | None => Panic NilDereference
      | Some backend =>
          if negb (Alive backend) then lc_scan pool rest selected minConnections
          else
            let connections := Connections backend in
            if (minConnections =? -1) || (connections <? minConnections)
            then lc_scan pool rest (Some p) connections
            else lc_scan pool rest selected minConnections
      end
  end.

Definition LeastConnections_NextBackend (pool : list Backend)
    (lb : LeastConnectionsBalancer) : result (option ptr) :=
  lc_scan pool (lc_backends lb) None (-1).

Record WeightedBalancer : Type := mkWeightedBalancer {
  wb_backends : list ptr;
  wb_current : Z
}.

Definition NewWeightedBalancer (backends : list ptr) : WeightedBalancer :=
  {| wb_backends := backends; wb_current := 0 |}.

(** [expandedBackends]: every backend [Weight] times, in pool order; the
    inner loop [for i := 0; i < backend.Weight; i++] does not run for a
    weight of zero or less. *)
Fixpoint expand (pool : list Backend) (backends : list ptr)
    : result (list ptr) :=
  match backends with
  | [] => Ret []
  | p :: rest =>
      match pool !! p with
      | None => Panic NilDereference
      | Some backend =>
          match expand pool rest with
          | Ret tail => Ret (replicate (Z.to_nat (Weight backend)) p ++ tail)
          | Panic e => Panic e
          end
      end
  end.

Definition Weighted_NextBackend (pool : list Backend)
    (wb : WeightedBalancer) : WeightedBalancer * result (option ptr) :=
  match expand pool (wb_backends wb) with
  | Panic e => (wb, Panic e)
  | Ret expandedBackends =>
      let n := length expandedBackends in
      if bool_decide (n = 0%nat) then (wb, Ret None)
      else
        let '(current, r) :=
          scan pool expandedBackends (Z.of_nat n) n (wb_current wb) in
        ({| wb_backends := wb_backends wb; wb_current := current |}, r)
  end.

(** [type LoadBalancer interface { NextBackend() *Backend }] with its three
    implementations. *)
Inductive LoadBalancer : Type :=
| RoundRobin (rb : RoundRobinBalancer)
| LeastConnections (lb : LeastConnectionsBalancer)
| Weighted (wb : WeightedBalancer).

Definition NextBackend (pool : list Backend) (l : LoadBalancer)
    : LoadBalancer * result (option ptr) :=
  match l with
  | RoundRobin rb =>
      let '(rb', r) := RoundRobin_NextBackend pool rb in (RoundRobin rb', r)
  | LeastConnections lb =>
      (LeastConnections lb, LeastConnections_NextBackend pool lb)
  | Weighted wb =>
      let '(wb', r) := Weighted_NextBackend pool wb in (Weighted wb', r)
  end.

(** ** Health checker *)

Record HealthChecker : Type := mkHealthChecker {
  hc_config : config.Config;
  hc_backends : list ptr
}.

Definition NewHealthChecker (cfg : config.Config) (backends : list ptr)
    : HealthChecker :=
  {| hc_config := cfg; hc_backends := backends |}.

(** What the network answers to one probe [GET <url><path>]:
    [http.NewRequestWithContext] fails, [client.Do] fails (connection error
    or timeout), or a response with a status code arrives. *)
Inductive probe : Type :=
| ProbeRequestError
| ProbeDoError
| ProbeResponse (StatusCode : Z).

Inductive log_entry : Type :=
| LogHealthCheckFailed (url : string)
| LogHealthCheckStatus (url : string) (StatusCode : Z)
| LogNowHealthy (url : string)
| LogNoHealthyBackends
| LogProxying (url : string)
| LogProxyError.

(** [func (hc *HealthChecker) check(backend *Backend)] on the record the
    pointer designates: the record afterwards and the lines logged. *)
Definition check (pr : probe) (backend : Backend)
    : Backend * list log_entry :=
  match pr with
  | ProbeRequestError =>
      (SetAlive false backend, [LogHealthCheckFailed (URL backend)])
  | ProbeDoError =>
      (SetAlive false backend, [LogHealthCheckFailed (URL backend)])
  | ProbeResponse StatusCode =>
      if (200 <=? StatusCode) && (StatusCode <? 300) then
        (SetAlive true backend,
         if negb (Alive backend) then [LogNowHealthy (URL backend)] else [])
      else
        (SetAlive false backend,
         [LogHealthCheckStatus (URL backend) StatusCode])
  end.

(** [check] through the pointer: only the designated record changes. *)
Definition check_at (pr : probe) (p : ptr) (pool : list Backend)
    : list Backend :=
  alter (fun backend => fst (check pr backend)) p pool.

(** ** The routing core *)

Record ReverseProxy : Type := mkReverseProxy {
  rp_config : config.Config;
  rp_backends : list ptr;
  loadBalancer : LoadBalancer;
  healthCheck : option HealthChecker
}.

Inductive new_error : Type :=
| ErrNoBackendsConfigured
| ErrInvalidBackendURL (u : string).

Inductive except (E A : Type) : Type :=
| Ok (a : A)
| Err (e : E).
Arguments Ok {E A} a.
Arguments Err {E A} e.

Section New.

Variable url_Parse : string -> option string.

(** The loop [for _, b := range cfg.Backends] of [New]: the records it
    allocates, in order, or the first parse error.  [Connections] is not
    set by the struct literal, so it holds Go's zero value. *)
Fixpoint init_backends (bs : list config.Backend)
    : except new_error (list Backend) :=
  match bs with
  | [] => Ok []
  | b :: rest =>
      match url_Parse (config.URL b) with
      | None => Err (ErrInvalidBackendURL (config.URL b))
      | Some backendURL =>
          let weight := config.Weight b in
          let weight := if weight =? 0 then 1 else weight in
          let backend :=
            {| URL := backendURL; Alive := true; Weight := weight;
               Connections := 0 |} in
          match init_backends rest with
          | Ok tail => Ok (backend :: tail)
          | Err e => Err e
          end
      end
  end.

(** The [switch cfg.LoadBalancer.Algorithm]. *)
Definition init_loadBalancer (algorithm : string) (backends : list ptr)
    : LoadBalancer :=
  if bool_decide (algorithm = "round-robin")
  then RoundRobin (NewRoundRobinBalancer backends)
  else if bool_decide (algorithm = "least-connections")
  then LeastConnections (NewLeastConnectionsBalancer backends)
  else if bool_decide (algorithm = "weighted")
  then Weighted (NewWeightedBalancer backends)
  else RoundRobin (NewRoundRobinBalancer backends).

(** [func New(cfg *config.Config)]: an error, or the store of backend
    records it allocates and the core that points into it. *)
Definition New (cfg : config.Config)
    : except new_error (list Backend * ReverseProxy) :=
  if bool_decide (length (config.Backends cfg) = 0%nat)
  then Err ErrNoBackendsConfigured
  else
    match init_backends (config.Backends cfg) with
    | Err e => Err e
    | Ok pool =>
        let backends := ptrs pool in
        Ok (pool,
            {| rp_config := cfg;
               rp_backends := backends;
               loadBalancer :=
                 init_loadBalancer
                   (config.Algorithm (config.LoadBalancer cfg)) backends;
               healthCheck :=
                 if config.Enabled (config.HealthCheck cfg)
                 then Some (NewHealthChecker cfg backends) else None |})
    end.

End New.

(** ** The per-request pipeline *)

(** How the transport [backend.Proxy.ServeHTTP(w, r)] ends: a response of
    the upstream is relayed, the transport fails and calls the
    [ErrorHandler] that [New] installed, or it panics
    ([http.ErrAbortHandler]). *)
Inductive forward : Type :=
| FwdResponse (StatusCode : Z)
| FwdError
| FwdPanic.

Inductive response : Type :=
| ServiceUnavailable
| BadGateway
| Upstream (StatusCode : Z).

(** [func (rp *ReverseProxy) errorHandler]. *)
Definition errorHandler : response * list log_entry :=
  (BadGateway, [LogProxyError]).

(** The transport, running in the store [pool]; it leaves the records
    alone. *)
Definition Proxy_ServeHTTP (fwd : forward) (pool : list Backend)
    : list Backend * result response * list log_entry :=
  match fwd with
  | FwdResponse StatusCode => (pool, Ret (Upstream StatusCode), [])
  | FwdError => (pool, Ret (fst errorHandler), snd errorHandler)
  | FwdPanic => (pool, Panic AbortHandler, [])
  end.

(** [backend.mu.Lock(); backend.Connections++; backend.mu.Unlock()]. *)
Definition track (backend : ptr) (pool : list Backend) : list Backend :=
  alter incConnections backend pool.

(** The deferred function:
    [backend.mu.Lock(); backend.Connections--; backend.mu.Unlock()]. *)
Definition release (backend : ptr) (pool : list Backend) : list Backend :=
  alter decConnections backend pool.

Definition url_of (pool : list Backend) (p : ptr) : string :=
  match pool !! p with Some b => URL b | None => "" end.

Definition with_loadBalancer (rp : ReverseProxy) (l : LoadBalancer)
    : ReverseProxy :=
  {| rp_config := rp_config rp; rp_backends := rp_backends rp;
     loadBalancer := l; healthCheck := healthCheck rp |}.

(** [func (rp *ReverseProxy) ServeHTTP(w, r)] for one request served on its
    own: the store and the core afterwards, what the client gets (or the
    panic that leaves the handler) and the lines logged.  The deferred
    decrement runs on every way out of the forwarding step. *)
Definition ServeHTTP (fwd : forward) (pool : list Backend)
    (rp : ReverseProxy)
    : list Backend * ReverseProxy * result response * list log_entry :=
  let '(l, r) := NextBackend pool (loadBalancer rp) in
  let rp' := with_loadBalancer rp l in
  match r with
  | Panic e => (pool, rp', Panic e, [])
  | Ret None => (pool, rp', Ret ServiceUnavailable, [LogNoHealthyBackends])
  | Ret (Some backend) =>
      let pool1 := track backend pool in
      let '(pool2, out, lg) := Proxy_ServeHTTP fwd pool1 in
      let pool3 := release backend pool2 in
      (pool3, rp', out, LogProxying (url_of pool backend) :: lg)
  end.

(** ** Successive calls of a balancer *)

(** [k] calls of [NextBackend] one after the other on an unchanging store:
    the balancer afterwards and the results in call order. *)
Fixpoint calls (pool : list Backend) (k : nat) (l : LoadBalancer)
    : LoadBalancer * list (result (option ptr)) :=
  match k with
  | O => (l, [])
  | S k' =>
      let '(l1, r) := NextBackend pool l in
      let '(l2, rs) := calls pool k' l1 in
      (l2, r :: rs)
  end.

Definition returns (p : ptr) (r : result (option ptr)) : bool :=
  match r with
  | Ret (Some q) => bool_decide (q = p)
  | _ => false
  end.

(** How many of the results are the backend [p]. *)
Fixpoint count_selected (p : ptr) (rs : list (result (option ptr))) : Z :=
  match rs with
  | [] => 0
  | r :: rest => (if returns p r then 1 else 0) + count_selected p rest
  end.

(** How often [p] is returned by the first [k] calls. *)
Definition selections (pool : list Backend) (l : LoadBalancer) (p : ptr)
    (k : nat) : Z :=
  count_selected p (snd (calls pool k l)).

(** The fraction [cnt k / k] converges to [num / den]: for every bound
    [1 / D] the distance [|cnt k / k - num / den|] stays within it from
    some call on (the inequality is multiplied out by [k * den]). *)
Definition fraction_converges (cnt : nat -> Z) (num den : Z) : Prop :=
  forall D : Z, 0 < D ->
    exists N : nat, forall k : nat, (N <= k)%nat ->
      D * Z.abs (cnt k * den - Z.of_nat k * num) <= Z.of_nat k * den.

(** In a run of results no backend comes a second time before every other
    backend of a pool of [n] has come once in between. *)
Definition cyclic_visits (n : nat) (rs : list (result (option ptr)))
    : Prop :=
  forall (i j : nat) (p : ptr),
    (i < j)%nat ->
    rs !! i = Some (Ret (Some p)) ->
    rs !! j = Some (Ret (Some p)) ->
    forall q : ptr, (q < n)%nat -> q <> p ->
      exists t : nat, (i < t < j)%nat /\ rs !! t = Some (Ret (Some q)).

(** ** Properties of a store *)

Definition alive_at (pool : list Backend) (p : ptr) : bool :=
  match pool !! p with Some b => Alive b | None => false end.

Definition connections_at (pool : list Backend) (p : ptr) : Z :=
  match pool !! p with Some b => Connections b | None => 0 end.

Definition all_alive (pool : list Backend) : Prop :=
  Forall (fun b => Alive b = true) pool.

Definition all_dead (pool : list Backend) : Prop :=
  Forall (fun b => Alive b = false) pool.

(** Sum of the slots the weighted expansion gives to the records. *)
Definition total_weight (pool : list Backend) : Z :=
  foldr (fun b acc => Z.max 0 (Weight b) + acc) 0 pool.

(** The cursor [current] does not reach [2 ^ 32] within [n] increments,
    or [n] divides [2 ^ 32]: the indices [current + i mod 2 ^ 32 mod n]
    then are [current + i mod n]. *)
Definition no_skew (current n : Z) : Prop :=
  current + n < 2 ^ 32 \/ (n | 2 ^ 32).

(** The slot the [i]-th increment of the cursor selects among [n]. *)
Definition slot_index (current n : Z) (i : nat) : nat :=
  Z.to_nat (uint32 (current + Z.of_nat i) mod n).

(** The [i]-th probe of the loop finds a dead backend in its slot. *)
Definition dead_slot (pool : list Backend) (slots : list ptr)
    (current n : Z) (i : nat) : Prop :=
  exists q : ptr,
    slots !! slot_index current n i = Some q /\ alive_at pool q = false.

(** Every pointer of a slice designates a record of the store. *)
Definition valid_ptrs (pool : list Backend) (slots : list ptr) : Prop :=
  forall p : ptr, p ∈ slots -> is_Some (pool !! p).

(** The expansion of the records [bs] that sit in the store from position
    [k] on, written on the records themselves. *)
Fixpoint expansion_from (k : nat) (bs : list Backend) : list ptr :=
  match bs with
  | [] => []
  | b :: rest => replicate (Z.to_nat (Weight b)) k ++ expansion_from (S k) rest
  end.

(** The state of the least-connections loop after the records before
    position [k]: nothing selected and no alive record so far, or the
    first alive record of least count so far. *)
Definition lc_invariant (pool : list Backend) (k : nat)
    (selected : option ptr) (minConnections : Z) : Prop :=
  match selected with
  | None =>
      minConnections = -1 /\
      forall q : ptr, (q < k)%nat -> alive_at pool q = false
  | Some p =>
      (p < k)%nat /\ alive_at pool p = true /\
      connections_at pool p = minConnections /\
      forall q : ptr, (q < k)%nat -> alive_at pool q = true ->
        minConnections <= connections_at pool q /\
        ((q < p)%nat -> minConnections < connections_at pool q)
  end.

(** A balancer over the whole store, its cursor a [uint32]. *)
Definition over (pool : list Backend) (l : LoadBalancer) : Prop :=
  match l with
  | RoundRobin rb =>
      rr_backends rb = ptrs pool /\ 0 <= rr_current rb < 2 ^ 32
  | LeastConnections lb => lc_backends lb = ptrs pool
  | Weighted wb =>
      wb_backends wb = ptrs pool /\ 0 <= wb_current wb < 2 ^ 32
  end.

(** The number of slots a balancer cycles through and its cursor. *)
Definition slots_of (pool : list Backend) (l : LoadBalancer) : Z :=
  match l with
  | RoundRobin _ => Z.of_nat (length pool)
  | LeastConnections _ => 1
  | Weighted _ => total_weight pool
  end.

Definition cursor_of (l : LoadBalancer) : Z :=
  match l with
  | RoundRobin rb => rr_current rb
  | LeastConnections _ => 0
  | Weighted wb => wb_current wb
  end.

(** The slice a balancer cycles through, and the balancer with its cursor
    moved. *)
Definition slice_of (pool : list Backend) (l : LoadBalancer) : list ptr :=
  match l with
  | RoundRobin _ => ptrs pool
  | LeastConnections _ => []
  | Weighted _ => expansion_from 0 pool
  end.

Definition set_cursor (l : LoadBalancer) (current : Z) : LoadBalancer :=
  match l with
  | RoundRobin rb =>
      RoundRobin {| rr_backends := rr_backends rb; rr_current := current |}
  | LeastConnections lb => LeastConnections lb
  | Weighted wb =>
      Weighted {| wb_backends := wb_backends wb; wb_current := current |}
  end.

Definition has_cursor (l : LoadBalancer) : Prop :=
  match l with
  | LeastConnections _ => False
  | _ => True
  end.

(** The backends a balancer can return: the alive ones, for the weighted
    balancer those among them that have a slot in the expansion. *)
Definition eligible (l : LoadBalancer) (b : Backend) : Prop :=
  match l with
  | Weighted _ => Alive b = true /\ 0 < Weight b
  | _ => Alive b = true
  end.

(** The common contract as the specification words it. *)
Definition none_iff_no_alive (pool : list Backend) (l : LoadBalancer)
    : Prop :=
  snd (NextBackend pool l) = Ret None <-> all_dead pool.

(** ** Requests in flight *)

(** Where a request is between two critical sections of [ServeHTTP]: its
    backend is chosen and not yet counted, or counted and forwarding. *)
Inductive phase : Type :=
| Selected (backend : ptr)
| Forwarding (backend : ptr).

Record System : Type := mkSystem {
  sys_pool : list Backend;
  sys_rp : ReverseProxy;
  sys_requests : list phase
}.

Definition in_flight (p : ptr) (ph : phase) : bool :=
  match ph with
  | Forwarding q => bool_decide (q = p)
  | Selected _ => false
  end.

(** The number of requests forwarding to [p]. *)
Fixpoint forwarding_to (p : ptr) (rs : list phase) : Z :=
  match rs with
  | [] => 0
  | ph :: rest => (if in_flight p ph then 1 else 0) + forwarding_to p rest
  end.

(** One atomic step of the running proxy: a request selects its backend
    (or is refused, or panics in the selection), a selected request
    counts itself in, a forwarding request ends in any way and the
    deferred function counts it out, or a health probe of some backend
    delivers its answer. *)
Inductive step : System -> System -> Prop :=
| step_select pool rp rs l backend :
    NextBackend pool (loadBalancer rp) = (l, Ret (Some backend)) ->
    step (mkSystem pool rp rs)
         (mkSystem pool (with_loadBalancer rp l) (Selected backend :: rs))
| step_refuse pool rp rs l :
    NextBackend pool (loadBalancer rp) = (l, Ret None) ->
    step (mkSystem pool rp rs) (mkSystem pool (with_loadBalancer rp l) rs)
| step_select_panic pool rp rs l e :
    NextBackend pool (loadBalancer rp) = (l, Panic e) ->
    step (mkSystem pool rp rs) (mkSystem pool (with_loadBalancer rp l) rs)
| step_track pool rp rs1 rs2 backend :
    step (mkSystem pool rp (rs1 ++ Selected backend :: rs2))
         (mkSystem (track backend pool) rp
                   (rs1 ++ Forwarding backend :: rs2))
| step_release pool rp rs1 rs2 backend (fwd : forward) :
    step (mkSystem pool rp (rs1 ++ Forwarding backend :: rs2))
         (mkSystem (release backend (fst (fst (Proxy_ServeHTTP fwd pool))))
                   rp (rs1 ++ rs2))
| step_check pool rp rs hc backend (pr : probe) :
    healthCheck rp = Some hc ->
    backend ∈ hc_backends hc ->
    step (mkSystem pool rp rs) (mkSystem (check_at pr backend pool) rp rs).

(** The states the proxy built by [New] can be in. *)
Inductive reachable (url_Parse : string -> option string)
    : System -> Prop :=
| reachable_New cfg pool rp :
    New url_Parse cfg = Ok (pool, rp) ->
    reachable url_Parse (mkSystem pool rp [])
| reachable_step s s' :
    reachable url_Parse s -> step s s' -> reachable url_Parse s'.

(** The count of a record is the number of requests forwarding to it,
    in Go's [int]. *)
Definition counts_in_flight (s : System) : Prop :=
  forall p b, sys_pool s !! p = Some b ->
    Connections b = wrap_int (forwarding_to p (sys_requests s)).

(** How often the first backend of the store with weights 2 and 1 is
    returned by the first [x] calls, in closed form: 2863311531 times in
    every [2 ^ 32] calls, and two out of three in the calls since the last
    wrap. *)
Definition count_2_1 (x : Z) : Z :=
  (x / 4294967296) * 2863311531 +
  (x mod 4294967296 + 1 - (x mod 4294967296 + 1) / 3) - 1.

(** How often the pointer [p] occurs in a slice. *)
Definition count_ptr (p : ptr) (slots : list ptr) : Z :=
  count_selected p (map (fun q => Ret (Some q)) slots).

(** ** Probes, rounds of probes and the running system *)

(** Whether a probe counts as a success: a response with a status code in
    [200, 300), as [check] tests it. *)
Definition probe_ok (pr : probe) : bool :=
  match pr with
  | ProbeResponse StatusCode => (200 <=? StatusCode) && (StatusCode <? 300)
  | ProbeRequestError | ProbeDoError => false
  end.

(** The record after the probes [prs] of one backend, oldest first. *)
Definition probes (prs : list probe) (backend : Backend) : Backend :=
  foldl (fun b pr => fst (check pr b)) backend prs.

(** [func (hc *HealthChecker) checkAll()]: one goroutine per backend runs
    [check].  [answer] is what the network answers for each backend and
    [order] the order in which the goroutines of the round write their
    result, some arrangement of [hc.backends]. *)
Definition checkAll (answer : ptr -> probe) (order : list ptr)
    (pool : list Backend) : list Backend :=
  foldl (fun pool backend => check_at (answer backend) backend pool)
        pool order.

(** What [New] makes of a configured backend. *)
Definition built_from (url_Parse : string -> option string)
    (c : config.Backend) (b : Backend) : Prop :=
  url_Parse (config.URL c) = Some (URL b) /\
  Weight b = (if config.Weight c =? 0 then 1 else config.Weight c).

Definition targets_record (pool : list Backend) (ph : phase) : Prop :=
  match ph with
  | Selected backend | Forwarding backend => is_Some (pool !! backend)
  end.

(** What holds of the core, the store and the requests however long the
    proxy runs. *)
Definition well_formed (url_Parse : string -> option string) (s : System)
    : Prop :=
  Forall2 (built_from url_Parse)
          (config.Backends (rp_config (sys_rp s))) (sys_pool s) /\
  rp_backends (sys_rp s) = ptrs (sys_pool s) /\
  over (sys_pool s) (loadBalancer (sys_rp s)) /\
  (forall hc, healthCheck (sys_rp s) = Some hc ->
     hc_backends hc = ptrs (sys_pool s)) /\
  Forall (targets_record (sys_pool s)) (sys_requests s).

(** ** Configurations *)

(** A configured backend [Validate] finds no fault with. *)
Definition backend_ok (url_Parse : string -> option string)
    (c : config.Backend) : Prop :=
  config.URL c <> "" /\ is_Some (url_Parse (config.URL c)) /\
  0 <= config.Weight c.

(** The position an error of [Validate] points at, if it is about a
    backend. *)
Definition backend_error_index (e : config.error) : option nat :=
  match e with
  | config.ErrBackendURLRequired i
  | config.ErrBackendURLInvalid i _
  | config.ErrBackendWeight i => Some i
  | _ => None
  end.

(** The fault an error of [Validate] reports of a backend. *)
Definition backend_fault (url_Parse : string -> option string)
    (e : config.error) (c : config.Backend) : Prop :=
  match e with
  | config.ErrBackendURLRequired _ => config.URL c = ""
  | config.ErrBackendURLInvalid _ u =>
      u = config.URL c /\ config.URL c <> "" /\ url_Parse u = None
  | config.ErrBackendWeight _ =>
      config.URL c <> "" /\ is_Some (url_Parse (config.URL c)) /\
      config.Weight c < 0
  | _ => False
  end.

(** The names [Validate] accepts for the algorithm. *)
Definition algorithms : list string :=
  ["round-robin"; "least-connections"; "weighted"].

(** ** Requests arriving together *)

(** [k] requests that enter [ServeHTTP] one after the other and are all
    still forwarding: each selects its backend and, unless it is refused,
    counts itself in.  The store and the balancer afterwards, and what
    the selections returned. *)
Fixpoint arrivals (k : nat) (pool : list Backend) (l : LoadBalancer)
    : list Backend * LoadBalancer * list (result (option ptr)) :=
  match k with
  | O => (pool, l, [])
  | S k' =>
      let '(l1, r) := NextBackend pool l in
      let pool1 :=
        match r with
        | Ret (Some backend) => track backend pool
        | _ => pool
        end in
      let '(pool2, l2, rs) := arrivals k' pool1 l1 in
      (pool2, l2, r :: rs)
  end.

(** The counts after [a] full rounds over the store and [r] more
    requests: the first [r] backends hold one request more. *)
Definition spread (a r : nat) (pool : list Backend) : Prop :=
  forall p b, pool !! p = Some b ->
    Alive b = true /\
    Connections b = Z.of_nat a + (if decide (p < r)%nat then 1 else 0).

(** ** Calls and requests among others *)

(** The loop of the round-robin and the weighted balancer as it runs
    among other calls on the same balancer.  The cursor is shared and the
    loop holds no lock: before each [atomic.AddUint32] of this call the
    other calls may have incremented the cursor, [others] saying how many
    times before each iteration in turn (none once the list is used up). *)
Fixpoint scan_among (others : list nat) (pool : list Backend)
    (slots : list ptr) (n : Z) (iters : nat) (current : Z)
    : Z * result (option ptr) :=
  match iters with
  | O => (current, Ret None)
  | S iters' =>
      let current' :=
        AddUint32 (uint32 (current + Z.of_nat (hd 0%nat others))) 1 in
      if uint32 n =? 0 then (current', Panic DivideByZero)
      else
        match slots !! Z.to_nat (current' mod uint32 n) with
        | None => (current', Panic IndexOutOfRange)
        | Some p =>
            match pool !! p with
            | None => (current', Panic NilDereference)
            | Some backend =>
                if Alive backend then (current', Ret (Some p))
                else scan_among (tl others) pool slots n iters' current'
            end
        end
  end.

Definition RoundRobin_NextBackend_among (others : list nat)
    (pool : list Backend) (rb : RoundRobinBalancer)
    : RoundRobinBalancer * result (option ptr) :=
  let n := length (rr_backends rb) in
  if bool_decide (n = 0%nat) then (rb, Ret None)
  else
    let '(current, r) :=
      scan_among others pool (rr_backends rb) (Z.of_nat n) n
                 (rr_current rb) in
    ({| rr_backends := rr_backends rb; rr_current := current |}, r).

Definition Weighted_NextBackend_among (others : list nat)
    (pool : list Backend) (wb : WeightedBalancer)
    : WeightedBalancer * result (option ptr) :=
  match expand pool (wb_backends wb) with
  | Panic e => (wb, Panic e)
  | Ret expandedBackends =>
      let n := length expandedBackends in
      if bool_decide (n = 0%nat) then (wb, Ret None)
      else
        let '(current, r) :=
          scan_among others pool expandedBackends (Z.of_nat n) n
                     (wb_current wb) in
        ({| wb_backends := wb_backends wb; wb_current := current |}, r)
  end.

(** [NextBackend] called while other requests call it too.  The
    least-connections balancer has no cursor to share. *)
Definition NextBackend_among (others : list nat) (pool : list Backend)
    (l : LoadBalancer) : LoadBalancer * result (option ptr) :=
  match l with
  | RoundRobin rb =>
      let '(rb', r) := RoundRobin_NextBackend_among others pool rb in
      (RoundRobin rb', r)
  | LeastConnections lb =>
      (LeastConnections lb, LeastConnections_NextBackend pool lb)
  | Weighted wb =>
      let '(wb', r) := Weighted_NextBackend_among others pool wb in
      (Weighted wb', r)
  end.

(** No other call touches the cursor while this one runs. *)
Definition alone (others : list nat) : Prop :=
  Forall (fun k => k = 0%nat) others.

(** What the other goroutines do to the store while this request is
    between two of its steps; the set of records is fixed, so the store
    keeps its length. *)
Definition keeps_records (f : list Backend -> list Backend) : Prop :=
  forall st, length (f st) = length st.

(** [func (rp *ReverseProxy) ServeHTTP(w, r)] for a request served among
    others: [others] are the calls that overlap its selection, [before]
    is what happens to the store between its selection and its increment,
    [during] what happens while the transport runs.  The transport starts
    in the store the increment leaves, and the deferred decrement acts on
    the store in which the transport ends, on every way out. *)
Definition ServeHTTP_among (others : list nat)
    (before during : list Backend -> list Backend) (fwd : forward)
    (pool : list Backend) (rp : ReverseProxy)
    : list Backend * ReverseProxy * result response * list log_entry :=
  let '(l, r) := NextBackend_among others pool (loadBalancer rp) in
  let rp' := with_loadBalancer rp l in
  match r with
  | Panic e => (pool, rp', Panic e, [])
  | Ret None => (pool, rp', Ret ServiceUnavailable, [LogNoHealthyBackends])
  | Ret (Some backend) =>
      let pool0 := before pool in
      let pool1 := track backend pool0 in
      let '(pool2, out, lg) := Proxy_ServeHTTP fwd (during pool1) in
      let pool3 := release backend pool2 in
      (pool3, rp', out, LogProxying (url_of pool backend) :: lg)
  end.

(** ** Concrete configurations and stores *)

(** A configuration with the given backends and algorithm, the other
    fields as [config.Load] defaults them. *)
Definition example_config (bs : list config.Backend) (algorithm : string)
    : config.Config :=
  {| config.Server :=
       {| config.Address := ":8080"; config.ReadTimeout := 10;
          config.WriteTimeout := 10; config.IdleTimeout := 120 |};
     config.Backends := bs;
     config.LoadBalancer := {| config.Algorithm := algorithm |};
     config.HealthCheck :=
       {| config.Enabled := true; config.Interval := 10;
          config.Timeout := 5; config.Path := "/health" |};
     config.Logging := {| config.Level := "info"; config.Format := "text" |};
     config.TLS := None;
     config.Limits :=
       {| config.MaxConnections := 10000; config.MaxIdleConns := 100;
          config.MaxConnsPerHost := 100; config.RequestTimeout := 30;
          config.MaxRequestBodySize := 10485760 |} |}.

(** A parser that accepts every non-empty address as it is. *)
Definition parse_any (u : string) : option string :=
  if bool_decide (u = "") then None else Some u.

(** A store of alive, idle backends with the given weights. *)
Definition alive_pool (weights : list Z) : list Backend :=
  map (fun w => {| URL := "http://backend"; Alive := true; Weight := w;
                   Connections := 0 |}) weights.

(** A state the proxy reaches: built on two backends, a request has
    selected the second backend and counted itself in, and a probe of the
    first backend has failed. *)
Definition example_cfg : config.Config :=
  example_config [ {| config.URL := "http://x"; config.Weight := 0 |};
                   {| config.URL := "http://y"; config.Weight := 3 |} ]
                 "round-robin".

Definition example_pool : list Backend :=
  [ {| URL := "http://x"; Alive := true; Weight := 1; Connections := 0 |};
    {| URL := "http://y"; Alive := true; Weight := 3; Connections := 0 |} ].

Definition example_rp : ReverseProxy :=
  {| rp_config := example_cfg; rp_backends := ptrs example_pool;
     loadBalancer := RoundRobin (NewRoundRobinBalancer (ptrs example_pool));
     healthCheck := Some (NewHealthChecker example_cfg (ptrs example_pool)) |}.

Definition example_state : System :=
  mkSystem (check_at ProbeDoError 0%nat (track 1%nat example_pool))
           (with_loadBalancer example_rp
              (RoundRobin {| rr_backends := ptrs example_pool;
                             rr_current := 1 |}))
           [Forwarding 1%nat].

(** * Proofs *)

(** ** Machine arithmetic *)

Lemma uint32_range z : 0 <= uint32 z < 2 ^ 32.
Proof. unfold uint32. apply Z.mod_pos_bound. lia. Qed.

Lemma uint32_small z : 0 <= z < 2 ^ 32 -> uint32 z = z.
Proof. intros H. unfold uint32. apply Z.mod_small. exact H. Qed.

Lemma uint32_add_l x y : uint32 (uint32 x + y) = uint32 (x + y).
Proof. unfold uint32. apply Zplus_mod_idemp_l. Qed.

Lemma uint32_mod_divides x n :
  0 < n -> (n | 2 ^ 32) -> uint32 x mod n = x mod n.
Proof.
  intros Hn Hd. unfold uint32. apply Z.mod_mod_divide. exact Hd.
Qed.

Lemma wrap_int_small z : - 2 ^ 63 <= z < 2 ^ 63 -> wrap_int z = z.
Proof.
  intros H. unfold wrap_int. rewrite Z.mod_small; lia.
Qed.

Lemma wrap_int_add_l x y : wrap_int (wrap_int x + y) = wrap_int (x + y).
Proof.
  unfold wrap_int.
  replace ((x + 2 ^ 63) mod 2 ^ 64 - 2 ^ 63 + y + 2 ^ 63)
    with ((x + 2 ^ 63) mod 2 ^ 64 + y) by lia.
  rewrite Zplus_mod_idemp_l. f_equal. f_equal. lia.
Qed.

Lemma wrap_int_inc_dec z :
  - 2 ^ 63 <= z < 2 ^ 63 -> wrap_int (wrap_int (z + 1) - 1) = z.
Proof.
  intros H.
  replace (wrap_int (z + 1) - 1) with (wrap_int (z + 1) + (-1)) by lia.
  rewrite wrap_int_add_l. replace (z + 1 + -1) with z by lia.
  apply wrap_int_small, H.
Qed.

(** With [no_skew] the slot of the [i]-th increment is [current + i mod n]. *)
Lemma slot_index_no_skew current n (i : nat) :
  0 < n -> 0 <= current -> Z.of_nat i <= n -> no_skew current n ->
  slot_index current n i = Z.to_nat ((current + Z.of_nat i) mod n).
Proof.
  intros Hn Hc Hi [Hsmall | Hdiv]; unfold slot_index.
  - rewrite uint32_small by lia. reflexivity.
  - rewrite uint32_mod_divides by assumption. reflexivity.
Qed.

(** Within [n] increments every slot comes up. *)
Lemma slot_index_covers current n (idx : nat) :
  0 < n -> 0 <= current -> no_skew current n -> Z.of_nat idx < n ->
  exists i : nat, (1 <= i)%nat /\ Z.of_nat i <= n /\
    slot_index current n i = idx.
Proof.
  intros Hn Hc Hs Hidx.
  pose proof (Z.mod_pos_bound (Z.of_nat idx - current - 1) n Hn) as Hb.
  exists (Z.to_nat ((Z.of_nat idx - current - 1) mod n + 1)).
  split; [lia |]. split; [lia |].
  rewrite slot_index_no_skew by (try assumption; lia).
  rewrite Z2Nat.id by lia.
  replace (current + ((Z.of_nat idx - current - 1) mod n + 1))
    with ((current + 1) + (Z.of_nat idx - current - 1) mod n) by lia.
  rewrite Zplus_mod_idemp_r.
  replace (current + 1 + (Z.of_nat idx - current - 1)) with (Z.of_nat idx)
    by lia.
  rewrite Z.mod_small by lia. apply Nat2Z.id.
Qed.

(** ** The scanning loop *)

Section Scan.

Variable pool : list Backend.
Variable slots : list ptr.
Variable n : Z.
Hypothesis n_pos : 0 < n.
Hypothesis n_uint32 : n < 2 ^ 32.
Hypothesis n_length : n = Z.of_nat (length slots).
Hypothesis slots_valid : valid_ptrs pool slots.

Lemma slot_lookup current (i : nat) :
  exists p b, slots !! slot_index current n i = Some p /\ pool !! p = Some b.
Proof.
  unfold slot_index.
  pose proof (Z.mod_pos_bound (uint32 (current + Z.of_nat i)) n n_pos) as Hb.
  destruct (lookup_lt_is_Some_2 slots
              (Z.to_nat (uint32 (current + Z.of_nat i) mod n))) as [p Hp];
    [lia |].
  destruct (slots_valid p) as [b Hb'].
  { apply list_elem_of_lookup. eauto. }
  eauto.
Qed.

(** One iteration: the cursor moves on by one; an alive backend in the
    slot ends the loop, a dead one continues it. *)
Lemma scan_step iters current :
  exists p b,
    slots !! slot_index current n 1 = Some p /\ pool !! p = Some b /\
    scan pool slots n (S iters) current =
      if Alive b then (uint32 (current + 1), Ret (Some p))
      else scan pool slots n iters (uint32 (current + 1)).
Proof.
  destruct (slot_lookup current 1) as (p & b & Hp & Hb).
  exists p, b. split; [exact Hp |]. split; [exact Hb |].
  unfold slot_index in Hp. cbn [scan]. unfold AddUint32.
  rewrite (uint32_small n) by lia.
  destruct (Z.eqb_spec n 0) as [-> | _]; [lia |].
  change (Z.of_nat 1) with 1 in Hp. rewrite Hp, Hb. reflexivity.
Qed.

Lemma slot_index_shift current (i : nat) :
  slot_index (uint32 (current + 1)) n i = slot_index current n (S i).
Proof.
  unfold slot_index. rewrite uint32_add_l.
  replace (current + 1 + Z.of_nat i) with (current + Z.of_nat (S i)) by lia.
  reflexivity.
Qed.

(** What the loop returns after [iters] iterations from [current]: the
    backend in the first slot found alive, or nothing when every probed
    slot is dead. *)
Lemma scan_spec iters : forall current,
  0 <= current < 2 ^ 32 ->
  (exists (i : nat) (p : ptr),
      (1 <= i <= iters)%nat /\
      scan pool slots n iters current =
        (uint32 (current + Z.of_nat i), Ret (Some p)) /\
      slots !! slot_index current n i = Some p /\
      alive_at pool p = true /\
      forall i' : nat, (1 <= i' < i)%nat -> dead_slot pool slots current n i')
  \/
  (scan pool slots n iters current =
     (uint32 (current + Z.of_nat iters), Ret None) /\
   forall i' : nat, (1 <= i' <= iters)%nat ->
     dead_slot pool slots current n i').
Proof.
  induction iters as [| iters IH]; intros current Hc.
  - right. split.
    + cbn [scan]. rewrite Z.add_0_r, uint32_small by lia. reflexivity.
    + intros i' Hi'. lia.
  - destruct (scan_step iters current) as (p & b & Hp & Hb & Heq).
    destruct (Alive b) eqn:Hal.
    + left. exists 1%nat, p. split; [lia |]. split; [exact Heq |].
      split; [exact Hp |]. split.
      * unfold alive_at. rewrite Hb. exact Hal.
      * intros i' Hi'. lia.
    + destruct (IH (uint32 (current + 1)) (uint32_range _))
        as [(i & p' & Hi & Hs & Hp' & Hal' & Hdead) | [Hs Hdead]].
      * left. exists (S i), p'. split; [lia |]. split.
        { rewrite Heq, Hs, uint32_add_l.
          replace (current + 1 + Z.of_nat i) with (current + Z.of_nat (S i))
            by lia.
          reflexivity. }
        split; [rewrite <- slot_index_shift; exact Hp' |].
        split; [exact Hal' |].
        intros i' Hi'. destruct i' as [| [| i']]; [lia | |].
        { exists p. split; [exact Hp |]. unfold alive_at. rewrite Hb.
          exact Hal. }
        { unfold dead_slot. rewrite <- slot_index_shift.
          apply Hdead. lia. }
      * right. split.
        { rewrite Heq, Hs, uint32_add_l.
          replace (current + 1 + Z.of_nat iters)
            with (current + Z.of_nat (S iters)) by lia.
          reflexivity. }
        intros i' Hi'. destruct i' as [| [| i']]; [lia | |].
        { exists p. split; [exact Hp |]. unfold alive_at. rewrite Hb.
          exact Hal. }
        { unfold dead_slot. rewrite <- slot_index_shift.
          apply Hdead. lia. }
Qed.

(** The loop never panics on a well-formed slice. *)
Lemma scan_no_panic iters current e :
  0 <= current < 2 ^ 32 ->
  snd (scan pool slots n iters current) <> Panic e.
Proof.
  intros Hc.
  destruct (scan_spec iters current Hc)
    as [(i & p & _ & Hs & _) | [Hs _]]; rewrite Hs; discriminate.
Qed.

(** A full round ([length slots] iterations): nothing is returned exactly
    when every slot holds a dead backend, provided the cursor does not
    skew the indices. *)
Lemma scan_round_none current :
  0 <= current < 2 ^ 32 -> no_skew current n ->
  snd (scan pool slots n (length slots) current) = Ret None <->
  (forall p : ptr, p ∈ slots -> alive_at pool p = false).
Proof.
  intros Hc Hs. split.
  - intros Hnone p Hp.
    apply list_elem_of_lookup in Hp as [idx Hidx].
    pose proof (lookup_lt_Some _ _ _ Hidx) as Hlt.
    destruct (scan_spec (length slots) current Hc)
      as [(i & p' & _ & Hscan & _) | [_ Hdead]].
    { rewrite Hscan in Hnone. discriminate. }
    destruct (slot_index_covers current n idx) as (i & Hi1 & Hi2 & Hi3);
      [lia | lia | exact Hs | lia |].
    destruct (Hdead i) as (q & Hq & Hal); [lia |].
    rewrite Hi3, Hidx in Hq. injection Hq as <-. exact Hal.
  - intros Hall.
    destruct (scan_spec (length slots) current Hc)
      as [(i & p' & _ & Hscan & Hp' & Hal & _) | [Hscan _]].
    + rewrite Hall in Hal; [discriminate |].
      apply list_elem_of_lookup. eauto.
    + rewrite Hscan. reflexivity.
Qed.

(** Whatever the loop returns was found alive. *)
Lemma scan_some_alive iters current p :
  0 <= current < 2 ^ 32 ->
  snd (scan pool slots n iters current) = Ret (Some p) ->
  p ∈ slots /\ alive_at pool p = true.
Proof.
  intros Hc Hr.
  destruct (scan_spec iters current Hc)
    as [(i & p' & _ & Hscan & Hp' & Hal & _) | [Hscan _]];
    rewrite Hscan in Hr; [| discriminate].
  injection Hr as <-. split; [| exact Hal].
  apply list_elem_of_lookup. eauto.
Qed.

End Scan.

(** ** The slice of all pointers *)

Lemma ptrs_valid pool : valid_ptrs pool (ptrs pool).
Proof.
  intros p Hp. apply elem_of_seq in Hp.
  apply lookup_lt_is_Some_2. lia.
Qed.

Lemma ptrs_elem pool p : p ∈ ptrs pool <-> (p < length pool)%nat.
Proof. unfold ptrs. rewrite elem_of_seq. lia. Qed.

Lemma ptrs_length pool : length (ptrs pool) = length pool.
Proof. apply length_seq. Qed.

Lemma alive_at_all_dead pool :
  all_dead pool <-> forall p, p ∈ ptrs pool -> alive_at pool p = false.
Proof.
  unfold all_dead. rewrite Forall_lookup. split.
  - intros H p Hp. apply ptrs_elem in Hp.
    destruct (lookup_lt_is_Some_2 pool p Hp) as [b Hb].
    unfold alive_at. rewrite Hb. exact (H p b Hb).
  - intros H p b Hb. specialize (H p).
    unfold alive_at in H. rewrite Hb in H. apply H.
    apply ptrs_elem. eapply lookup_lt_Some, Hb.
Qed.

(** ** The weighted expansion *)

Lemma expand_seq pool : forall len k,
  (k + len = length pool)%nat ->
  expand pool (seq k len) = Ret (expansion_from k (drop k pool)).
Proof.
  induction len as [| len IH]; intros k Hk.
  - cbn [seq expand]. rewrite drop_ge by lia. reflexivity.
  - cbn [seq expand].
    destruct (lookup_lt_is_Some_2 pool k) as [b Hb]; [lia |].
    rewrite Hb, (IH (S k)) by lia.
    rewrite (drop_S pool b k Hb). reflexivity.
Qed.

Lemma expand_ptrs pool :
  expand pool (ptrs pool) = Ret (expansion_from 0 pool).
Proof. unfold ptrs. rewrite expand_seq by lia. reflexivity. Qed.

Lemma expansion_length bs : forall k,
  Z.of_nat (length (expansion_from k bs)) = total_weight bs.
Proof.
  induction bs as [| b bs IH]; intros k; cbn [expansion_from total_weight foldr].
  - reflexivity.
  - rewrite length_app, length_replicate, Nat2Z.inj_add, IH.
    unfold total_weight. lia.
Qed.

(** A record has a slot exactly when its weight is positive. *)
Lemma expansion_elem bs : forall k p,
  p ∈ expansion_from k bs <->
  exists b, bs !! (p - k)%nat = Some b /\ (k <= p)%nat /\ 0 < Weight b.
Proof.
  induction bs as [| b bs IH]; intros k p; cbn [expansion_from].
  - split; [intros H; inversion H | intros (b & H & _); discriminate].
  - rewrite elem_of_app, elem_of_replicate, IH. split.
    + intros [[-> Hw] | (b' & Hb' & Hk & Hw)].
      * exists b. rewrite Nat.sub_diag. split; [reflexivity |]. lia.
      * exists b'. replace (p - k)%nat with (S (p - S k)) by lia.
        split; [exact Hb' |]. lia.
    + intros (b' & Hb' & Hk & Hw).
      destruct (decide (p = k)) as [-> | Hne].
      * left. rewrite Nat.sub_diag in Hb'. injection Hb' as ->.
        split; [reflexivity | lia].
      * right. exists b'.
        replace (p - k)%nat with (S (p - S k)) in Hb' by lia.
        split; [exact Hb' |]. lia.
Qed.

Lemma expansion_valid pool : valid_ptrs pool (expansion_from 0 pool).
Proof.
  intros p Hp. apply expansion_elem in Hp as (b & Hb & _).
  rewrite Nat.sub_0_r in Hb. eauto.
Qed.

(** ** The least-connections loop *)

Lemma lc_scan_seq pool :
  Forall (fun b => 0 <= Connections b) pool ->
  forall len k selected minConnections,
  (k + len = length pool)%nat ->
  lc_invariant pool k selected minConnections ->
  exists selected' minConnections',
    lc_scan pool (seq k len) selected minConnections = Ret selected' /\
    lc_invariant pool (length pool) selected' minConnections'.
Proof.
  intros Hnn. induction len as [| len IH]; intros k sel m Hk Hinv.
  - cbn [seq lc_scan]. exists sel, m. split; [reflexivity |].
    replace (length pool) with k by lia. exact Hinv.
  - cbn [seq lc_scan].
    destruct (lookup_lt_is_Some_2 pool k) as [b Hb]; [lia |].
    rewrite Hb.
    assert (Hak : alive_at pool k = Alive b)
      by (unfold alive_at; rewrite Hb; reflexivity).
    assert (Hck : connections_at pool k = Connections b)
      by (unfold connections_at; rewrite Hb; reflexivity).
    assert (Hb0 : 0 <= Connections b)
      by (rewrite Forall_lookup in Hnn; exact (Hnn k b Hb)).
    destruct (Alive b) eqn:Hal; cbn [negb].
    2:{ apply IH; [lia |].
        destruct sel as [p |]; cbn [lc_invariant] in *.
        - destruct Hinv as (Hp & Hpa & Hpc & Hmin).
          split; [lia |]. split; [exact Hpa |]. split; [exact Hpc |].
          intros q Hq Hqa. apply Hmin; [| exact Hqa].
          destruct (decide (q = k)) as [-> | ?]; [congruence | lia].
        - destruct Hinv as [Hm Hdead]. split; [exact Hm |].
          intros q Hq. destruct (decide (q = k)) as [-> | ?];
            [congruence | apply Hdead; lia]. }
    destruct sel as [p |]; cbn [lc_invariant] in Hinv.
    + destruct Hinv as (Hp & Hpa & Hpc & Hmin).
      assert (Hm0 : 0 <= m).
      { unfold connections_at in Hpc.
        destruct (pool !! p) as [bp |] eqn:Hbp; [| lia].
        rewrite Forall_lookup in Hnn. specialize (Hnn p bp Hbp). lia. }
      destruct (Z.eqb_spec m (-1)) as [? | _]; [lia |]. cbn [orb].
      destruct (Z.ltb_spec (Connections b) m) as [Hlt | Hge].
      * apply IH; [lia |]. cbn [lc_invariant].
        split; [lia |]. split; [congruence |]. split; [exact Hck |].
        intros q Hq Hqa. destruct (decide (q = k)) as [-> | Hne].
        { split; [lia | lia]. }
        { destruct (Hmin q) as [H1 H2]; [lia | exact Hqa |]. lia. }
      * apply IH; [lia |]. cbn [lc_invariant].
        split; [lia |]. split; [exact Hpa |]. split; [exact Hpc |].
        intros q Hq Hqa. destruct (decide (q = k)) as [-> | Hne].
        { split; [lia | lia]. }
        { apply Hmin; [lia | exact Hqa]. }
    + destruct Hinv as [-> Hdead]. cbn [Z.eqb orb].
      apply IH; [lia |]. cbn [lc_invariant].
      split; [lia |]. split; [congruence |]. split; [exact Hck |].
      intros q Hq Hqa. destruct (decide (q = k)) as [-> | Hne].
      { split; [lia | lia]. }
      { rewrite Hdead in Hqa by lia. discriminate. }
Qed.

(** Without any assumption on the counts the loop still returns nothing
    exactly when no record is alive, and only alive records. *)
Lemma lc_scan_alive pool : forall len k selected minConnections,
  (k + len = length pool)%nat ->
  (match selected with
   | None =>
       minConnections = -1 /\
       forall q : ptr, (q < k)%nat -> alive_at pool q = false
   | Some p => alive_at pool p = true
   end) ->
  exists selected',
    lc_scan pool (seq k len) selected minConnections = Ret selected' /\
    match selected' with
    | None => forall q : ptr, (q < length pool)%nat -> alive_at pool q = false
    | Some p => alive_at pool p = true
    end.
Proof.
  induction len as [| len IH]; intros k sel m Hk Hinv.
  - cbn [seq lc_scan]. exists sel. split; [reflexivity |].
    replace (length pool) with k by lia.
    destruct sel; [exact Hinv | apply Hinv].
  - cbn [seq lc_scan].
    destruct (lookup_lt_is_Some_2 pool k) as [b Hb]; [lia |].
    rewrite Hb.
    assert (Hak : alive_at pool k = Alive b)
      by (unfold alive_at; rewrite Hb; reflexivity).
    destruct (Alive b) eqn:Hal; cbn [negb].
    + destruct sel as [p |].
      * destruct ((m =? -1) || (Connections b <? m));
          (apply IH; [lia | assumption]).
      * destruct Hinv as [-> _]. cbn [Z.eqb orb].
        apply IH; [lia | exact Hak].
    + apply IH; [lia |]. destruct sel as [p |]; [exact Hinv |].
      destruct Hinv as [Hm Hdead]. split; [exact Hm |].
      intros q Hq. destruct (decide (q = k)) as [-> | ?];
        [exact Hak | apply Hdead; lia].
Qed.

(** ** The three strategies on a well-formed balancer *)

Lemma RoundRobin_NextBackend_spec pool rb :
  rr_backends rb = ptrs pool ->
  0 <= rr_current rb < 2 ^ 32 ->
  Z.of_nat (length pool) < 2 ^ 32 ->
  no_skew (rr_current rb) (Z.of_nat (length pool)) ->
  (snd (RoundRobin_NextBackend pool rb) = Ret None <-> all_dead pool) /\
  (forall p, snd (RoundRobin_NextBackend pool rb) = Ret (Some p) ->
     alive_at pool p = true) /\
  (forall e, snd (RoundRobin_NextBackend pool rb) <> Panic e).
Proof.
  intros Hbs Hc Hn Hs. unfold RoundRobin_NextBackend.
  rewrite Hbs, ptrs_length. case_bool_decide as Hlen.
  - cbn [snd]. split; [| split].
    + split; [| reflexivity]. intros _.
      destruct pool; [constructor | discriminate].
    + discriminate.
    + discriminate.
  - assert (Hpos : 0 < Z.of_nat (length pool)) by lia.
    assert (Hl : Z.of_nat (length pool) = Z.of_nat (length (ptrs pool)))
      by (rewrite ptrs_length; reflexivity).
    pose proof (scan_round_none pool (ptrs pool) _ Hpos Hn Hl
                  (ptrs_valid pool) _ Hc Hs) as Hnone.
    pose proof (scan_some_alive pool (ptrs pool) _ Hpos Hn Hl
                  (ptrs_valid pool) (length pool) (rr_current rb)) as Hsome.
    pose proof (scan_no_panic pool (ptrs pool) _ Hpos Hn Hl
                  (ptrs_valid pool) (length pool) (rr_current rb)) as Hnp.
    rewrite ptrs_length in Hnone.
    destruct (scan pool (ptrs pool) (Z.of_nat (length pool)) (length pool)
                (rr_current rb)) as [current r].
    cbn [snd] in *. split; [| split].
    + rewrite Hnone. symmetry. apply alive_at_all_dead.
    + intros p Hp. apply (Hsome p Hc Hp).
    + intros e. apply Hnp, Hc.
Qed.

Lemma LeastConnections_NextBackend_spec pool lb :
  lc_backends lb = ptrs pool ->
  (LeastConnections_NextBackend pool lb = Ret None <-> all_dead pool) /\
  (forall p, LeastConnections_NextBackend pool lb = Ret (Some p) ->
     alive_at pool p = true) /\
  (forall e, LeastConnections_NextBackend pool lb <> Panic e).
Proof.
  intros Hbs. unfold LeastConnections_NextBackend. rewrite Hbs. unfold ptrs.
  destruct (lc_scan_alive pool (length pool) 0 None (-1)) as (sel & Hsel & Hinv).
  { lia. }
  { split; [reflexivity |]. intros q Hq. lia. }
  rewrite Hsel. split; [| split].
  - rewrite alive_at_all_dead. split.
    + intros [= ->]. intros p Hp. apply Hinv, ptrs_elem, Hp.
    + intros Hdead. destruct sel as [p |]; [| reflexivity].
      destruct (decide (p < length pool)%nat) as [Hp | Hp].
      * rewrite Hdead in Hinv by (apply ptrs_elem, Hp). discriminate.
      * unfold alive_at in Hinv. rewrite lookup_ge_None_2 in Hinv by lia.
        discriminate.
  - intros p [= ->]. exact Hinv.
  - discriminate.
Qed.

Lemma no_slot_no_weight pool :
  total_weight pool = 0 -> Forall (fun b => ~ 0 < Weight b) pool.
Proof.
  induction pool as [| b pool IH]; intros H; constructor.
  - cbn [total_weight foldr] in H. fold (total_weight pool) in H.
    pose proof (expansion_length pool 0). lia.
  - apply IH. cbn [total_weight foldr] in H. fold (total_weight pool) in H.
    pose proof (expansion_length pool 0). lia.
Qed.

Lemma Weighted_NextBackend_spec pool wb :
  wb_backends wb = ptrs pool ->
  0 <= wb_current wb < 2 ^ 32 ->
  total_weight pool < 2 ^ 32 ->
  no_skew (wb_current wb) (total_weight pool) ->
  (snd (Weighted_NextBackend pool wb) = Ret None <->
   Forall (fun b => ~ (Alive b = true /\ 0 < Weight b)) pool) /\
  (forall p, snd (Weighted_NextBackend pool wb) = Ret (Some p) ->
     alive_at pool p = true) /\
  (forall e, snd (Weighted_NextBackend pool wb) <> Panic e).
Proof.
  intros Hbs Hc Hn Hs. unfold Weighted_NextBackend.
  rewrite Hbs, expand_ptrs.
  pose proof (expansion_length pool 0) as Hlen.
  case_bool_decide as Hz.
  - cbn [snd]. split; [| split]; try discriminate.
    split; [| reflexivity]. intros _.
    eapply Forall_impl; [apply no_slot_no_weight; lia |].
    intros b Hb [_ Hw]. exact (Hb Hw).
  - assert (Hpos : 0 < total_weight pool) by lia.
    symmetry in Hlen.
    pose proof (scan_round_none pool (expansion_from 0 pool) _ Hpos Hn Hlen
                  (expansion_valid pool) _ Hc Hs) as Hnone.
    pose proof (scan_some_alive pool (expansion_from 0 pool) _ Hpos Hn Hlen
                  (expansion_valid pool)
                  (length (expansion_from 0 pool)) (wb_current wb)) as Hsome.
    pose proof (scan_no_panic pool (expansion_from 0 pool) _ Hpos Hn Hlen
                  (expansion_valid pool)
                  (length (expansion_from 0 pool)) (wb_current wb)) as Hnp.
    rewrite <- Hlen.
    destruct (scan pool (expansion_from 0 pool) (total_weight pool)
                (length (expansion_from 0 pool)) (wb_current wb))
      as [current r].
    cbn [snd] in *. split; [| split].
    + rewrite Hnone, Forall_lookup. split.
      * intros Hdead p b Hb [Hal Hw].
        specialize (Hdead p). unfold alive_at in Hdead. rewrite Hb in Hdead.
        rewrite Hdead in Hal; [discriminate |].
        apply expansion_elem. exists b. rewrite Nat.sub_0_r.
        split; [exact Hb |]. lia.
      * intros Hno p Hp. apply expansion_elem in Hp as (b & Hb & _ & Hw).
        rewrite Nat.sub_0_r in Hb. unfold alive_at. rewrite Hb.
        destruct (Alive b) eqn:Hal; [| reflexivity].
        exfalso. apply (Hno p b Hb). split; [exact Hal | exact Hw].
    + intros p Hp. apply (Hsome p Hc Hp).
    + intros e. apply Hnp, Hc.
Qed.

(** ** C1: when [NextBackend] returns nothing *)

(** A call that runs on its own, its cursor not skewing the indices:
    [NextBackend] returns nothing exactly when no backend is eligible,
    where eligible means alive and, for the weighted balancer, of positive
    weight; a backend it returns is alive; and it returns one whenever
    some backend is eligible. *)
Lemma NextBackend_sequential_none_iff pool l :
  over pool l ->
  slots_of pool l < 2 ^ 32 ->
  no_skew (cursor_of l) (slots_of pool l) ->
  (snd (NextBackend pool l) = Ret None <->
   Forall (fun b => ~ eligible l b) pool) /\
  (forall p, snd (NextBackend pool l) = Ret (Some p) ->
     alive_at pool p = true) /\
  (Exists (eligible l) pool ->
     exists p, snd (NextBackend pool l) = Ret (Some p)).
Proof.
  intros Hover Hn Hs.
  assert (Hdead : all_dead pool <-> Forall (fun b => ~ Alive b = true) pool).
  { unfold all_dead. rewrite !Forall_forall.
    split; intros H b Hb; specialize (H b Hb);
      destruct (Alive b); congruence. }
  assert (Hmain :
    (snd (NextBackend pool l) = Ret None <->
     Forall (fun b => ~ eligible l b) pool) /\
    (forall p, snd (NextBackend pool l) = Ret (Some p) ->
       alive_at pool p = true) /\
    (forall e, snd (NextBackend pool l) <> Panic e)).
  { destruct l as [rb | lb | wb]; cbn [over slots_of cursor_of] in *.
    - destruct Hover as [Hbs Hc].
      destruct (RoundRobin_NextBackend_spec pool rb Hbs Hc Hn Hs)
        as (H1 & H2 & H3).
      cbn [NextBackend eligible].
      destruct (RoundRobin_NextBackend pool rb) as [rb' r]. cbn [snd] in *.
      rewrite <- Hdead. auto.
    - destruct (LeastConnections_NextBackend_spec pool lb Hover)
        as (H1 & H2 & H3).
      cbn [NextBackend eligible snd]. rewrite <- Hdead. auto.
    - destruct Hover as [Hbs Hc].
      destruct (Weighted_NextBackend_spec pool wb Hbs Hc Hn Hs)
        as (H1 & H2 & H3).
      cbn [NextBackend eligible].
      destruct (Weighted_NextBackend pool wb) as [wb' r]. cbn [snd] in *.
      auto. }
  destruct Hmain as (H1 & H2 & H3). split; [exact H1 |]. split; [exact H2 |].
  intros Hex. destruct (snd (NextBackend pool l)) as [[p |] | e].
  - eauto.
  - exfalso. apply Exists_exists in Hex as (b & Hin & Hel).
    destruct H1 as [H1 _]. specialize (H1 eq_refl).
    rewrite Forall_forall in H1. exact (H1 b Hin Hel).
  - exfalso. exact (H3 e eq_refl).
Qed.

(** C1 as the specification states it fails for the weighted balancer:
    [New] keeps a configured weight of -1, the expansion gives that
    backend no slot, and [NextBackend] returns nothing although the only
    backend is alive. *)
Lemma Weighted_none_with_alive_backend :
  let cfg :=
    example_config [ {| config.URL := "http://a"; config.Weight := -1 |} ]
                   "weighted" in
  exists pool rp,
    New parse_any cfg = Ok (pool, rp) /\
    ~ none_iff_no_alive pool (loadBalancer rp).
Proof.
  intros cfg.
  exists [ {| URL := "http://a"; Alive := true; Weight := -1;
              Connections := 0 |} ].
  eexists. split; [vm_compute; reflexivity |].
  unfold none_iff_no_alive. intros [Hnone _].
  specialize (Hnone eq_refl). unfold all_dead in Hnone.
  apply Forall_cons in Hnone as [Hal _]. discriminate Hal.
Qed.

(** ** Whatever is returned was found alive *)

Lemma alive_at_valid pool p : alive_at pool p = true -> is_Some (pool !! p).
Proof.
  unfold alive_at. destruct (pool !! p); [eauto | discriminate].
Qed.

Lemma scan_ret_alive pool slots n iters : forall current p,
  snd (scan pool slots n iters current) = Ret (Some p) ->
  alive_at pool p = true.
Proof.
  induction iters as [| iters IH]; intros current p; cbn [scan].
  - discriminate.
  - destruct (uint32 n =? 0); [discriminate |].
    destruct (slots !! _) as [q |]; [| discriminate].
    destruct (pool !! q) as [b |] eqn:Hb; [| discriminate].
    destruct (Alive b) eqn:Hal.
    + intros [= <-]. unfold alive_at. rewrite Hb. exact Hal.
    + apply IH.
Qed.

Lemma lc_scan_ret_alive pool backends : forall selected minConnections p,
  (forall q, selected = Some q -> alive_at pool q = true) ->
  lc_scan pool backends selected minConnections = Ret (Some p) ->
  alive_at pool p = true.
Proof.
  induction backends as [| q rest IH]; intros sel m p Hsel; cbn [lc_scan].
  - intros [= ->]. apply Hsel. reflexivity.
  - destruct (pool !! q) as [b |] eqn:Hb; [| discriminate].
    destruct (Alive b) eqn:Hal; cbn [negb].
    + destruct ((m =? -1) || (Connections b <? m)).
      * apply IH. intros q' [= <-]. unfold alive_at. rewrite Hb. exact Hal.
      * apply IH, Hsel.
    + apply IH, Hsel.
Qed.

(** No strategy returns a backend it has not just seen alive, whatever
    the balancer's slice and cursor. *)
Lemma NextBackend_ret_alive pool l p :
  snd (NextBackend pool l) = Ret (Some p) -> alive_at pool p = true.
Proof.
  destruct l as [rb | lb | wb]; cbn [NextBackend].
  - unfold RoundRobin_NextBackend. case_bool_decide; [discriminate |].
    pose proof (scan_ret_alive pool (rr_backends rb)
                  (Z.of_nat (length (rr_backends rb)))
                  (length (rr_backends rb)) (rr_current rb) p) as Hscan.
    destruct (scan _ _ _ _ _) as [c r]. exact Hscan.
  - cbn [snd]. unfold LeastConnections_NextBackend.
    apply lc_scan_ret_alive. discriminate.
  - unfold Weighted_NextBackend.
    destruct (expand pool (wb_backends wb)) as [e | err]; [| discriminate].
    case_bool_decide; [discriminate |].
    pose proof (scan_ret_alive pool e (Z.of_nat (length e)) (length e)
                  (wb_current wb) p) as Hscan.
    destruct (scan _ _ _ _ _) as [c r]. exact Hscan.
Qed.

(** ** C2: the connection count around one request *)

Lemma track_release pool backend :
  Forall (fun b => - 2 ^ 63 <= Connections b < 2 ^ 63) pool ->
  release backend (track backend pool) = pool.
Proof.
  intros Hint. unfold release, track. rewrite list_alter_alter_eq.
  rewrite (list_alter_ext _ id pool pool backend);
    [apply list_alter_id; reflexivity | | reflexivity].
  intros b Hb. rewrite Forall_lookup in Hint. specialize (Hint backend b Hb).
  destruct b as [u a w c]. unfold compose, incConnections, decConnections.
  cbn in *. f_equal. apply wrap_int_inc_dec. exact Hint.
Qed.

(** ** C5: one health probe *)

(** A probe writes the [Alive] field and nothing else. *)
Lemma check_frame (pr : probe) (backend : Backend) :
  fst (check pr backend) = SetAlive (Alive (fst (check pr backend))) backend.
Proof.
  destruct pr as [| | code]; cbn [check]; try reflexivity.
  destruct ((200 <=? code) && (code <? 300)); reflexivity.
Qed.

(** C5.  After one probe the backend is alive exactly when a response
    came with a status code in [200, 300); a request that cannot be
    built, a failed or timed-out exchange and any other status leave it
    dead.  The flag before the probe plays no part, and nothing else of
    the record changes. *)
Theorem check_sets_alive (pr : probe) (backend : Backend) :
  Alive (fst (check pr backend)) =
    match pr with
    | ProbeResponse StatusCode =>
        bool_decide (200 <= StatusCode < 300)
    | ProbeRequestError | ProbeDoError => false
    end /\
  fst (check pr backend) = SetAlive (Alive (fst (check pr backend))) backend /\
  fst (check pr (SetAlive true backend)) =
    fst (check pr (SetAlive false backend)).
Proof.
  destruct pr as [| | code]; cbn [check]; try (repeat split; reflexivity).
  destruct (Z.leb_spec 200 code); destruct (Z.ltb_spec code 300);
    cbn [andb fst SetAlive Alive]; case_bool_decide; try lia;
    repeat split; reflexivity.
Qed.

(** A probe through the pointer touches the designated record only. *)
Lemma check_at_other pr p q pool :
  p <> q -> check_at pr p pool !! q = pool !! q.
Proof. intros Hne. unfold check_at. apply list_lookup_alter_ne, Hne. Qed.

Lemma check_at_connections pr p q pool :
  connections_at (check_at pr p pool) q = connections_at pool q.
Proof.
  unfold connections_at, check_at.
  destruct (decide (p = q)) as [-> | Hne].
  - rewrite list_lookup_alter_eq. destruct (pool !! q) as [b |]; [| reflexivity].
    cbn. rewrite check_frame. reflexivity.
  - rewrite list_lookup_alter_ne by exact Hne. reflexivity.
Qed.

(** ** C6 and C9: construction *)

Section Construction.

Variable url_Parse : string -> option string.

Lemma init_backends_spec bs pool :
  init_backends url_Parse bs = Ok pool ->
  Forall2 (fun (c : config.Backend) (b : Backend) =>
             url_Parse (config.URL c) = Some (URL b) /\
             Alive b = true /\
             Weight b = (if config.Weight c =? 0 then 1 else config.Weight c) /\
             Connections b = 0) bs pool.
Proof.
  revert pool. induction bs as [| c bs IH]; intros pool; cbn [init_backends].
  - intros [= <-]. constructor.
  - destruct (url_Parse (config.URL c)) as [u |] eqn:Hu; [| discriminate].
    destruct (init_backends url_Parse bs) as [tail | e]; [| discriminate].
    intros [= <-]. constructor; [| apply IH; reflexivity].
    cbn. auto.
Qed.

Lemma init_backends_total bs :
  Forall (fun c => is_Some (url_Parse (config.URL c))) bs ->
  exists pool, init_backends url_Parse bs = Ok pool.
Proof.
  induction 1 as [| c bs [u Hu] _ [tail IH]]; cbn [init_backends].
  - eauto.
  - rewrite Hu, IH. eauto.
Qed.

Lemma New_pool cfg pool rp :
  New url_Parse cfg = Ok (pool, rp) ->
  init_backends url_Parse (config.Backends cfg) = Ok pool /\
  rp_backends rp = ptrs pool.
Proof.
  unfold New. case_bool_decide; [discriminate |].
  destruct (init_backends url_Parse (config.Backends cfg)) as [pool' | e];
    [| discriminate].
  intros [= <- <-]. auto.
Qed.

Lemma validate_backends_weights strings_ToLower cfg :
  config.Validate url_Parse strings_ToLower cfg = None ->
  Forall (fun c => 0 <= config.Weight c) (config.Backends cfg).
Proof.
  unfold config.Validate.
  destruct (bool_decide _); [discriminate |].
  destruct (bool_decide _); [discriminate |].
  destruct (config.validate_backends url_Parse 0 (config.Backends cfg))
    as [e |] eqn:Hv; [discriminate |].
  intros _. revert Hv. generalize 0%nat.
  induction (config.Backends cfg) as [| c bs IH]; intros i;
    cbn [config.validate_backends]; [constructor |].
  destruct (bool_decide _); [discriminate |].
  destruct (url_Parse (config.URL c)); [| discriminate].
  destruct (Z.ltb_spec (config.Weight c) 0); [discriminate |].
  intros Hv. constructor; [assumption | eapply IH, Hv].
Qed.

(** C6, as amended.  [New] turns a configured weight of 0 into 1 and
    keeps every other weight as configured.  So for a configuration with
    no negative weight, and such is every configuration [Validate]
    accepts, every record [New] builds has a positive weight and at least
    one slot in the weighted expansion. *)
Theorem New_normalizes_zero_weight cfg pool rp :
  New url_Parse cfg = Ok (pool, rp) ->
  Forall2 (fun (c : config.Backend) (b : Backend) =>
             Weight b = (if config.Weight c =? 0 then 1 else config.Weight c))
          (config.Backends cfg) pool /\
  (Forall (fun c => 0 <= config.Weight c) (config.Backends cfg) ->
   Forall (fun b => 0 < Weight b) pool /\
   exists expandedBackends,
     expand pool (rp_backends rp) = Ret expandedBackends /\
     forall p, p ∈ rp_backends rp -> p ∈ expandedBackends) /\
  (forall strings_ToLower,
     config.Validate url_Parse strings_ToLower cfg = None ->
     Forall (fun c => 0 <= config.Weight c) (config.Backends cfg)).
Proof.
  intros Hnew. destruct (New_pool cfg pool rp Hnew) as [Hinit Hbs].
  pose proof (init_backends_spec _ _ Hinit) as Hspec.
  split; [| split].
  - eapply Forall2_impl; [exact Hspec |]. cbn. intros c b (_ & _ & Hw & _).
    exact Hw.
  - intros Hnn.
    assert (Hpos : Forall (fun b => 0 < Weight b) pool).
    { clear Hinit Hnew Hbs. induction Hspec as [| c b bs pool' Hcb _ IH].
      - constructor.
      - apply Forall_cons in Hnn as [Hc Hnn]. constructor; [| apply IH, Hnn].
        destruct Hcb as (_ & _ & -> & _).
        destruct (Z.eqb_spec (config.Weight c) 0); lia. }
    split; [exact Hpos |].
    exists (expansion_from 0 pool). rewrite Hbs. split; [apply expand_ptrs |].
    intros p Hp. apply ptrs_elem in Hp.
    destruct (lookup_lt_is_Some_2 pool p Hp) as [b Hb].
    apply expansion_elem. exists b. rewrite Nat.sub_0_r.
    split; [exact Hb |]. split; [lia |].
    rewrite Forall_lookup in Hpos. exact (Hpos p b Hb).
  - intros lower. apply validate_backends_weights.
Qed.

(** C9.  [New] fails, and builds no core, when the configuration lists
    no backend; it succeeds when it lists at least one and every address
    parses. *)
Theorem New_empty_fails_nonempty_succeeds cfg :
  (config.Backends cfg = [] ->
   New url_Parse cfg = Err ErrNoBackendsConfigured) /\
  (config.Backends cfg <> [] ->
   Forall (fun c => is_Some (url_Parse (config.URL c)))
          (config.Backends cfg) ->
   exists pool rp,
     New url_Parse cfg = Ok (pool, rp) /\
     length pool = length (config.Backends cfg)).
Proof.
  split.
  - intros Hempty. unfold New. rewrite Hempty. reflexivity.
  - intros Hne Hparse. unfold New.
    case_bool_decide as Hlen.
    { destruct (config.Backends cfg); [congruence | discriminate]. }
    destruct (init_backends_total _ Hparse) as [pool Hpool].
    rewrite Hpool. eexists _, _. split; [reflexivity |].
    symmetry. eapply Forall2_length, init_backends_spec, Hpool.
Qed.

End Construction.

(** C6 at the configuration of the README: weights 0 and 1. *)
Lemma New_normalizes_zero_weight_witness :
  let cfg :=
    example_config [ {| config.URL := "http://localhost:8081";
                        config.Weight := 0 |};
                     {| config.URL := "http://localhost:8082";
                        config.Weight := 1 |} ] "weighted" in
  exists pool rp,
    New parse_any cfg = Ok (pool, rp) /\
    config.Validate parse_any id cfg = None /\
    Forall (fun b => 0 < Weight b) pool.
Proof.
  intros cfg.
  destruct (New parse_any cfg) as [[pool rp] | e] eqn:Hnew;
    [| vm_compute in Hnew; discriminate Hnew].
  exists pool, rp. split; [reflexivity |].
  assert (Hv : config.Validate parse_any id cfg = None)
    by (vm_compute; reflexivity).
  split; [exact Hv |].
  destruct (New_normalizes_zero_weight parse_any cfg pool rp Hnew)
    as (_ & Hpos & Hvalid).
  apply Hpos, (Hvalid id), Hv.
Defined.

(** C6 as the specification states it fails: a configured weight of -1
    is below 0 and is not turned into 1; the record keeps -1. *)
Lemma New_keeps_negative_weight :
  let cfg :=
    example_config [ {| config.URL := "http://a"; config.Weight := -1 |} ]
                   "weighted" in
  exists pool rp,
    New parse_any cfg = Ok (pool, rp) /\
    ~ Forall (fun b => 0 < Weight b) pool /\
    ~ Forall2 (fun (c : config.Backend) (b : Backend) =>
                 Weight b =
                   (if config.Weight c <=? 0 then 1 else config.Weight c))
              (config.Backends cfg) pool.
Proof.
  intros cfg.
  exists [ {| URL := "http://a"; Alive := true; Weight := -1;
              Connections := 0 |} ].
  eexists. split; [vm_compute; reflexivity |]. split.
  - intros H. apply Forall_cons in H as [H _]. cbn in H. lia.
  - intros H. apply Forall2_cons in H as [H _]. cbn in H. lia.
Qed.

(** C9 at an empty configuration and at one with two backends. *)
Lemma New_empty_fails_nonempty_succeeds_witness :
  New parse_any (example_config [] "round-robin")
    = Err ErrNoBackendsConfigured /\
  exists pool rp,
    New parse_any
      (example_config [ {| config.URL := "http://x"; config.Weight := 1 |};
                        {| config.URL := "http://y"; config.Weight := 1 |} ]
                      "round-robin") = Ok (pool, rp) /\
    length pool = 2%nat.
Proof.
  split.
  - apply (New_empty_fails_nonempty_succeeds parse_any). reflexivity.
  - apply (New_empty_fails_nonempty_succeeds parse_any
             (example_config
                [ {| config.URL := "http://x"; config.Weight := 1 |};
                  {| config.URL := "http://y"; config.Weight := 1 |} ]
                "round-robin")).
    + discriminate.
    + repeat constructor; vm_compute; eauto.
Defined.

(** ** Calls on a store of alive backends *)

Lemma all_alive_lookup pool p b :
  all_alive pool -> pool !! p = Some b -> Alive b = true.
Proof.
  unfold all_alive. rewrite Forall_lookup. intros H Hb. exact (H p b Hb).
Qed.

Lemma scan_all_alive pool slots n iters current :
  all_alive pool -> 0 < n < 2 ^ 32 -> n = Z.of_nat (length slots) ->
  valid_ptrs pool slots ->
  exists p,
    slots !! slot_index current n 1 = Some p /\
    scan pool slots n (S iters) current =
      (uint32 (current + 1), Ret (Some p)).
Proof.
  intros Hal [Hpos Hlt] Hlen Hvalid.
  destruct (scan_step pool slots n Hpos Hlt Hlen Hvalid iters current)
    as (p & b & Hp & Hb & Hscan).
  exists p. split; [exact Hp |].
  rewrite Hscan, (all_alive_lookup pool p b Hal Hb). reflexivity.
Qed.

(** With every backend alive a call takes the slot of the next cursor
    value and leaves the cursor on it. *)
Lemma NextBackend_all_alive pool l :
  all_alive pool -> over pool l -> has_cursor l ->
  0 < slots_of pool l < 2 ^ 32 ->
  exists p,
    slice_of pool l !! slot_index (cursor_of l) (slots_of pool l) 1 = Some p /\
    NextBackend pool l = (set_cursor l (uint32 (cursor_of l + 1)), Ret (Some p)).
Proof.
  intros Hal Hover Hcur Hn.
  destruct l as [rb | lb | wb]; [| contradiction |];
    cbn [over slots_of cursor_of slice_of set_cursor NextBackend] in *.
  - destruct Hover as [Hbs Hc]. unfold RoundRobin_NextBackend.
    rewrite Hbs, ptrs_length. case_bool_decide as Hz; [lia |].
    destruct (length pool) as [| m] eqn:Hlen; [congruence |].
    destruct (scan_all_alive pool (ptrs pool) (Z.of_nat (S m)) m
                (rr_current rb) Hal Hn) as (p & Hp & Hscan).
    { rewrite ptrs_length, Hlen. reflexivity. }
    { apply ptrs_valid. }
    exists p. split; [exact Hp |]. rewrite Hscan. reflexivity.
  - destruct Hover as [Hbs Hc]. unfold Weighted_NextBackend.
    rewrite Hbs, expand_ptrs.
    pose proof (expansion_length pool 0) as Hlen.
    case_bool_decide as Hz; [lia |].
    destruct (length (expansion_from 0 pool)) as [| m] eqn:Hm; [congruence |].
    rewrite Hlen.
    destruct (scan_all_alive pool (expansion_from 0 pool) (total_weight pool)
                m (wb_current wb) Hal Hn) as (p & Hp & Hscan).
    { rewrite Hm. symmetry. exact Hlen. }
    { apply expansion_valid. }
    exists p. split; [exact Hp |]. rewrite Hscan. reflexivity.
Qed.

Lemma over_set_cursor pool l current :
  over pool l -> over pool (set_cursor l (uint32 current)).
Proof.
  destruct l as [rb | lb | wb]; cbn [over set_cursor rr_backends rr_current
                                      wb_backends wb_current].
  - intros [H _]. split; [exact H | apply uint32_range].
  - auto.
  - intros [H _]. split; [exact H | apply uint32_range].
Qed.

Lemma set_cursor_props l current :
  has_cursor l ->
  cursor_of (set_cursor l current) = current /\
  has_cursor (set_cursor l current) /\
  (forall pool, slots_of pool (set_cursor l current) = slots_of pool l) /\
  (forall pool, slice_of pool (set_cursor l current) = slice_of pool l) /\
  (forall c', set_cursor (set_cursor l current) c' = set_cursor l c').
Proof. destruct l; cbn; intros H; try contradiction; auto. Qed.

(** [k] calls in a row: the [i]-th one returns the slot of the [i]-th
    cursor value. *)
Lemma calls_all_alive pool : forall k l,
  all_alive pool -> over pool l -> has_cursor l ->
  0 < slots_of pool l < 2 ^ 32 ->
  fst (calls pool k l) = set_cursor l (uint32 (cursor_of l + Z.of_nat k)) /\
  forall i, (i < k)%nat ->
    exists p,
      snd (calls pool k l) !! i = Some (Ret (Some p)) /\
      slice_of pool l !! slot_index (cursor_of l) (slots_of pool l) (S i)
        = Some p.
Proof.
  induction k as [| k IH]; intros l Hal Hover Hcur Hn.
  - cbn [calls fst snd]. split; [| intros i Hi; lia].
    rewrite Z.add_0_r.
    destruct l as [rb | lb | wb]; [| contradiction |]; cbn in *;
      rewrite uint32_small by tauto; [destruct rb | destruct wb]; reflexivity.
  - cbn [calls].
    destruct (NextBackend_all_alive pool l Hal Hover Hcur Hn)
      as (p & Hp & Hnext).
    rewrite Hnext.
    destruct (set_cursor_props l (uint32 (cursor_of l + 1)) Hcur)
      as (Hc1 & Hc2 & Hc3 & Hc4 & Hc5).
    destruct (IH (set_cursor l (uint32 (cursor_of l + 1))) Hal
                (over_set_cursor pool l _ Hover) Hc2)
      as [Hfst Hsnd].
    { rewrite Hc3. exact Hn. }
    destruct (calls pool k (set_cursor l (uint32 (cursor_of l + 1))))
      as [l2 rs].
    cbn [fst snd] in *. split.
    + rewrite Hfst, Hc5, Hc1, uint32_add_l. f_equal. f_equal. lia.
    + intros [| i] Hi.
      * exists p. split; [reflexivity | exact Hp].
      * destruct (Hsnd i) as (q & Hq1 & Hq2); [lia |].
        exists q. split; [exact Hq1 |].
        rewrite Hc1, Hc3, Hc4 in Hq2.
        unfold slot_index in *. rewrite uint32_add_l in Hq2.
        replace (cursor_of l + Z.of_nat (S (S i)))
          with (cursor_of l + 1 + Z.of_nat (S i)) by lia.
        exact Hq2.
Qed.

Lemma calls_length pool : forall k l, length (snd (calls pool k l)) = k.
Proof.
  induction k as [| k IH]; intros l; cbn [calls]; [reflexivity |].
  destruct (NextBackend pool l) as [l1 r]. specialize (IH l1).
  destruct (calls pool k l1) as [l2 rs]. cbn [snd length] in *. lia.
Qed.

(** ** C10: the first call of the round-robin balancer *)

(** C10.  On a non-empty store of alive backends the first call of a
    freshly built round-robin balancer returns the backend at position
    [1 mod poolSize], hence the second one when there are at least two,
    and leaves the cursor at 1: the cursor is incremented before it is
    used.  The pool size is one a [uint32] holds, as the loop's
    conversion [uint32(n)] takes for granted. *)
Theorem RoundRobin_first_call pool :
  pool <> [] -> all_alive pool -> Z.of_nat (length pool) < 2 ^ 32 ->
  RoundRobin_NextBackend pool (NewRoundRobinBalancer (ptrs pool)) =
    ({| rr_backends := ptrs pool; rr_current := 1 |},
     Ret (Some (Z.to_nat (1 mod Z.of_nat (length pool))))) /\
  ((2 <= length pool)%nat ->
   snd (RoundRobin_NextBackend pool (NewRoundRobinBalancer (ptrs pool))) =
     Ret (Some 1%nat)).
Proof.
  intros Hne Hal Hlt.
  assert (Hpos : 0 < Z.of_nat (length pool)).
  { destruct pool; [congruence | cbn [length]; lia]. }
  assert (Hfirst :
    RoundRobin_NextBackend pool (NewRoundRobinBalancer (ptrs pool)) =
      ({| rr_backends := ptrs pool; rr_current := 1 |},
       Ret (Some (Z.to_nat (1 mod Z.of_nat (length pool)))))).
  { destruct (NextBackend_all_alive pool
                (RoundRobin (NewRoundRobinBalancer (ptrs pool))) Hal)
      as (p & Hp & Hnext).
    - cbn. split; [reflexivity | lia].
    - exact I.
    - cbn [slots_of]. lia.
    - unfold NewRoundRobinBalancer in *.
      cbn [NextBackend slots_of cursor_of slice_of set_cursor
             rr_current rr_backends] in Hp, Hnext.
      destruct (RoundRobin_NextBackend pool
                  {| rr_backends := ptrs pool; rr_current := 0 |})
        as [rb r].
      injection Hnext as -> ->.
      unfold slot_index in Hp. change (0 + Z.of_nat 1) with 1 in *.
      rewrite (uint32_small 1) in * by lia.
      pose proof (Z.mod_pos_bound 1 (Z.of_nat (length pool)) Hpos) as Hb.
      unfold ptrs in Hp. rewrite lookup_seq_lt in Hp by lia.
      injection Hp as <-. reflexivity. }
  split; [exact Hfirst |].
  intros H2. rewrite Hfirst. cbn [snd].
  rewrite Z.mod_small by lia. reflexivity.
Qed.

(** C10 at a store of three alive backends. *)
Lemma RoundRobin_first_call_witness :
  snd (RoundRobin_NextBackend (alive_pool [1; 1; 1])
         (NewRoundRobinBalancer (ptrs (alive_pool [1; 1; 1])))) =
    Ret (Some 1%nat).
Proof.
  apply (RoundRobin_first_call (alive_pool [1; 1; 1])).
  - discriminate.
  - repeat constructor.
  - cbn. lia.
  - cbn. lia.
Defined.

(** ** C4: the least-connections choice *)



(** ** C8: connection counts never go negative *)

Lemma forwarding_to_app p rs1 rs2 :
  forwarding_to p (rs1 ++ rs2) = forwarding_to p rs1 + forwarding_to p rs2.
Proof.
  induction rs1 as [| ph rs1 IH]; cbn [app forwarding_to]; [reflexivity |].
  rewrite IH. lia.
Qed.

Lemma forwarding_to_bounds p rs :
  0 <= forwarding_to p rs <= Z.of_nat (length rs).
Proof.
  induction rs as [| ph rs IH]; cbn [forwarding_to length]; [lia |].
  destruct (in_flight p ph); lia.
Qed.

Lemma counts_in_flight_New url_Parse cfg pool rp :
  New url_Parse cfg = Ok (pool, rp) ->
  counts_in_flight (mkSystem pool rp []).
Proof.
  intros Hnew p b Hb. cbn [sys_pool sys_requests forwarding_to] in *.
  destruct (New_pool url_Parse cfg pool rp Hnew) as [Hinit _].
  pose proof (init_backends_spec url_Parse _ _ Hinit) as Hspec.
  destruct (Forall2_lookup_r _ _ _ _ _ Hspec Hb) as (c & _ & _ & _ & _ & Hc).
  rewrite Hc. reflexivity.
Qed.

Lemma counts_in_flight_step s s' :
  step s s' -> counts_in_flight s -> counts_in_flight s'.
Proof.
  intros Hstep Hinv.
  destruct Hstep as [pool rp rs l backend _ | pool rp rs l _
                    | pool rp rs l e _ | pool rp rs1 rs2 backend
                    | pool rp rs1 rs2 backend fwd
                    | pool rp rs hc backend pr _ _];
    unfold counts_in_flight in *; cbn [sys_pool sys_requests] in *;
    intros p b Hb.
  - cbn [forwarding_to in_flight]. rewrite (Hinv p b Hb). reflexivity.
  - exact (Hinv p b Hb).
  - exact (Hinv p b Hb).
  - rewrite forwarding_to_app in *. cbn [forwarding_to in_flight] in *.
    unfold track in Hb. destruct (decide (backend = p)) as [-> | Hne].
    + rewrite list_lookup_alter_eq in Hb.
      destruct (pool !! p) as [b0 |] eqn:Hb0; [| discriminate].
      injection Hb as <-. cbn [incConnections Connections].
      rewrite (Hinv p b0 Hb0), forwarding_to_app. cbn [forwarding_to in_flight].
      rewrite wrap_int_add_l, bool_decide_eq_true_2 by reflexivity.
      f_equal. lia.
    + rewrite list_lookup_alter_ne in Hb by exact Hne.
      rewrite (Hinv p b Hb), forwarding_to_app. cbn [forwarding_to in_flight].
      rewrite bool_decide_eq_false_2 by exact Hne. reflexivity.
  - assert (Hpool : fst (fst (Proxy_ServeHTTP fwd pool)) = pool)
      by (destruct fwd; reflexivity).
    rewrite Hpool in Hb. rewrite forwarding_to_app.
    unfold release in Hb. destruct (decide (backend = p)) as [-> | Hne].
    + rewrite list_lookup_alter_eq in Hb.
      destruct (pool !! p) as [b0 |] eqn:Hb0; [| discriminate].
      injection Hb as <-. cbn [decConnections Connections].
      rewrite (Hinv p b0 Hb0), forwarding_to_app. cbn [forwarding_to in_flight].
      rewrite bool_decide_eq_true_2 by reflexivity.
      replace (wrap_int (forwarding_to p rs1 + (1 + forwarding_to p rs2)) - 1)
        with (wrap_int (forwarding_to p rs1 + (1 + forwarding_to p rs2))
              + (-1)) by lia.
      rewrite wrap_int_add_l. f_equal. lia.
    + rewrite list_lookup_alter_ne in Hb by exact Hne.
      rewrite (Hinv p b Hb), forwarding_to_app. cbn [forwarding_to in_flight].
      rewrite bool_decide_eq_false_2 by exact Hne. reflexivity.
  - unfold check_at in Hb. destruct (decide (backend = p)) as [-> | Hne].
    + rewrite list_lookup_alter_eq in Hb.
      destruct (pool !! p) as [b0 |] eqn:Hb0; [| discriminate].
      injection Hb as <-.
      rewrite check_frame.
      cbn [SetAlive Connections]. exact (Hinv p b0 Hb0).
    + rewrite list_lookup_alter_ne in Hb by exact Hne. exact (Hinv p b Hb).
Qed.

Lemma reachable_counts_in_flight url_Parse s :
  reachable url_Parse s -> counts_in_flight s.
Proof.
  induction 1 as [cfg pool rp Hnew | s s' _ IH Hstep].
  - eapply counts_in_flight_New, Hnew.
  - eapply counts_in_flight_step; eassumption.
Qed.

(** C8.  Every record starts with a count of 0, and in every state the
    running proxy reaches, with requests and probes interleaved in any
    order, every count is the number of requests forwarding to that
    backend, hence never negative: a request counts out only after it
    counted in.  The requests in flight are fewer than [2 ^ 63], the
    range of Go's [int]. *)
Theorem connections_never_negative url_Parse s :
  reachable url_Parse s ->
  Z.of_nat (length (sys_requests s)) < 2 ^ 63 ->
  Forall (fun b => 0 <= Connections b) (sys_pool s) /\
  (forall p b, sys_pool s !! p = Some b ->
     Connections b = forwarding_to p (sys_requests s)) /\
  (forall cfg pool rp, New url_Parse cfg = Ok (pool, rp) ->
     Forall (fun b => Connections b = 0) pool).
Proof.
  intros Hreach Hbound.
  pose proof (reachable_counts_in_flight url_Parse s Hreach) as Hinv.
  assert (Hexact : forall p b, sys_pool s !! p = Some b ->
            Connections b = forwarding_to p (sys_requests s)).
  { intros p b Hb. rewrite (Hinv p b Hb).
    pose proof (forwarding_to_bounds p (sys_requests s)).
    apply wrap_int_small. lia. }
  split; [| split; [exact Hexact |]].
  - apply Forall_lookup. intros p b Hb. rewrite (Hexact p b Hb).
    apply forwarding_to_bounds.
  - intros cfg pool rp Hnew. apply Forall_lookup. intros p b Hb.
    pose proof (counts_in_flight_New url_Parse cfg pool rp Hnew p b Hb) as H.
    exact H.
Qed.

(** C8 in the state reached from [New] on two backends once a request
    has selected the second backend and counted itself in. *)
Lemma connections_never_negative_witness :
  let cfg :=
    example_config [ {| config.URL := "http://x"; config.Weight := 1 |};
                     {| config.URL := "http://y"; config.Weight := 1 |} ]
                   "round-robin" in
  let pool :=
    [ {| URL := "http://x"; Alive := true; Weight := 1; Connections := 0 |};
      {| URL := "http://y"; Alive := true; Weight := 1; Connections := 0 |} ]
  in
  let rp := {| rp_config := cfg; rp_backends := ptrs pool;
               loadBalancer := RoundRobin (NewRoundRobinBalancer (ptrs pool));
               healthCheck := Some (NewHealthChecker cfg (ptrs pool)) |} in
  let l := RoundRobin {| rr_backends := ptrs pool; rr_current := 1 |} in
  let s := mkSystem (track 1%nat pool) (with_loadBalancer rp l)
                    [Forwarding 1%nat] in
  connections_at (sys_pool s) 1%nat = 1 /\
  Forall (fun b => 0 <= Connections b) (sys_pool s).
Proof.
  intros cfg pool rp l s. split; [reflexivity |].
  apply (connections_never_negative parse_any s).
  - apply (reachable_step parse_any
             (mkSystem pool (with_loadBalancer rp l) [Selected 1%nat]) s).
    + apply (reachable_step parse_any (mkSystem pool rp [])).
      * apply (reachable_New parse_any cfg). reflexivity.
      * apply step_select. reflexivity.
    + apply (step_track pool (with_loadBalancer rp l) [] [] 1%nat).
  - cbn. lia.
Defined.

(** ** Runs of calls as sequences of slots *)

Lemma calls_all_alive_map pool k l :
  all_alive pool -> over pool l -> has_cursor l ->
  0 < slots_of pool l < 2 ^ 32 ->
  snd (calls pool k l) =
    map (fun i => Ret (slice_of pool l
                         !! slot_index (cursor_of l) (slots_of pool l) (S i)))
        (seq 0 k).
Proof.
  intros Hal Hover Hcur Hn. apply list_eq. intros i.
  destruct (decide (i < k)%nat) as [Hi | Hi].
  - destruct (calls_all_alive pool k l Hal Hover Hcur Hn) as [_ Hsnd].
    destruct (Hsnd i Hi) as (p & Hp1 & Hp2).
    rewrite Hp1, list_lookup_fmap, lookup_seq_lt by exact Hi.
    cbn. rewrite Hp2. reflexivity.
  - rewrite !lookup_ge_None_2; [reflexivity | |].
    + rewrite length_map, length_seq. lia.
    + rewrite calls_length. lia.
Qed.

Lemma count_selected_app p rs1 rs2 :
  count_selected p (rs1 ++ rs2) = count_selected p rs1 + count_selected p rs2.
Proof.
  induction rs1 as [| r rs1 IH]; cbn [app count_selected]; [reflexivity |].
  rewrite IH. lia.
Qed.

(** One more call adds the slot of the next cursor value to the count. *)
Lemma selections_S pool l p k :
  all_alive pool -> over pool l -> has_cursor l ->
  0 < slots_of pool l < 2 ^ 32 ->
  selections pool l p (S k) =
    selections pool l p k +
    (if returns p (Ret (slice_of pool l
                          !! slot_index (cursor_of l) (slots_of pool l) (S k)))
     then 1 else 0).
Proof.
  intros Hal Hover Hcur Hn. unfold selections.
  rewrite !calls_all_alive_map by assumption.
  rewrite seq_S, map_app, count_selected_app. cbn [map count_selected plus].
  lia.
Qed.

(** ** C3: round-robin across the wrap of the cursor *)

(** C3, where the code departs from it.  With three alive backends the
    run of the first [2 ^ 32] calls of a freshly built round-robin
    balancer is not cyclic: call number 4294967295 finds the cursor at
    [2 ^ 32 - 1] and returns backend 0, the next call wraps the cursor to
    0 and returns backend 0 again, with backends 1 and 2 not returned in
    between. *)
Theorem RoundRobin_not_cyclic_at_wrap :
  let pool := alive_pool [1; 1; 1] in
  let rs :=
    snd (calls pool (Z.to_nat 4294967296)
           (RoundRobin (NewRoundRobinBalancer (ptrs pool)))) in
  rs !! Z.to_nat 4294967294 = Some (Ret (Some 0%nat)) /\
  rs !! Z.to_nat 4294967295 = Some (Ret (Some 0%nat)) /\
  ~ cyclic_visits 3 rs.
Proof.
  intros pool rs.
  assert (Hal : all_alive pool) by (repeat constructor).
  assert (Hover : over pool (RoundRobin (NewRoundRobinBalancer (ptrs pool))))
    by (split; [reflexivity | cbn; lia]).
  assert (Hn : 0 < slots_of pool
                     (RoundRobin (NewRoundRobinBalancer (ptrs pool))) < 2 ^ 32)
    by (cbn; lia).
  assert (Hrs : forall i : nat, (Z.of_nat i < 4294967296) ->
            rs !! i =
              Some (Ret (Some (Z.to_nat (uint32 (Z.of_nat (S i)) mod 3))))).
  { intros i Hi. subst rs.
    destruct (calls_all_alive pool (Z.to_nat 4294967296) _ Hal Hover I Hn)
      as [_ Hsnd].
    destruct (Hsnd i) as (p & Hp1 & Hp2); [lia |].
    rewrite Hp1. do 3 f_equal.
    cbn [slice_of slots_of cursor_of NewRoundRobinBalancer rr_current] in Hp2.
    unfold slot_index in Hp2. rewrite Z.add_0_l in Hp2.
    change (Z.of_nat (length pool)) with 3 in Hp2.
    pose proof (Z.mod_pos_bound (uint32 (Z.of_nat (S i))) 3 ltac:(lia)) as Hb.
    assert (Hlt : (Z.to_nat (uint32 (Z.of_nat (S i)) mod 3) < length pool)%nat).
    { change (length pool) with 3%nat. lia. }
    unfold ptrs in Hp2. rewrite lookup_seq_lt in Hp2 by exact Hlt.
    injection Hp2 as <-. reflexivity. }
  assert (H1 : rs !! Z.to_nat 4294967294 = Some (Ret (Some 0%nat))).
  { rewrite Hrs by lia.
    replace (Z.of_nat (S (Z.to_nat 4294967294))) with 4294967295 by lia.
    reflexivity. }
  assert (H2 : rs !! Z.to_nat 4294967295 = Some (Ret (Some 0%nat))).
  { rewrite Hrs by lia.
    replace (Z.of_nat (S (Z.to_nat 4294967295))) with 4294967296 by lia.
    reflexivity. }
  split; [exact H1 |]. split; [exact H2 |].
  intros Hcyc.
  destruct (Hcyc (Z.to_nat 4294967294) (Z.to_nat 4294967295) 0%nat
              ltac:(lia) H1 H2 1%nat ltac:(lia) ltac:(lia))
    as (t & Ht & _).
  lia.
Qed.

(** The two calls on their own, and how the cursor gets there. *)
Lemma RoundRobin_two_calls_at_wrap :
  let pool := alive_pool [1; 1; 1] in
  calls pool 2
    (RoundRobin {| rr_backends := ptrs pool; rr_current := 4294967294 |}) =
  (RoundRobin {| rr_backends := ptrs pool; rr_current := 0 |},
   [Ret (Some 0%nat); Ret (Some 0%nat)]).
Proof. reflexivity. Qed.

Lemma RoundRobin_cursor_before_wrap :
  let pool := alive_pool [1; 1; 1] in
  fst (calls pool (Z.to_nat 4294967294)
         (RoundRobin (NewRoundRobinBalancer (ptrs pool)))) =
  RoundRobin {| rr_backends := ptrs pool; rr_current := 4294967294 |}.
Proof.
  intros pool.
  destruct (calls_all_alive pool (Z.to_nat 4294967294)
              (RoundRobin (NewRoundRobinBalancer (ptrs pool))))
    as [Hfst _].
  - repeat constructor.
  - split; [reflexivity | cbn; lia].
  - exact I.
  - cbn. lia.
  - rewrite Hfst. cbn [set_cursor cursor_of NewRoundRobinBalancer
                         rr_current rr_backends].
    rewrite Z2Nat.id by lia. reflexivity.
Qed.

(** Away from the wrap the order is cyclic: while the cursor stays below
    [2 ^ 32], or when the pool size divides [2 ^ 32], every run of calls
    on alive backends is cyclic. *)
Lemma RoundRobin_slot_without_wrap pool rb k i :
  all_alive pool -> rr_backends rb = ptrs pool ->
  0 <= rr_current rb < 2 ^ 32 ->
  0 < Z.of_nat (length pool) < 2 ^ 32 ->
  rr_current rb + Z.of_nat k < 2 ^ 32 \/ (Z.of_nat (length pool) | 2 ^ 32) ->
  (i < k)%nat ->
  snd (calls pool k (RoundRobin rb)) !! i =
    Some (Ret (Some (Z.to_nat ((rr_current rb + Z.of_nat i + 1)
                               mod Z.of_nat (length pool))))).
Proof.
  intros Hal Hbs Hc Hn Hs Hi.
  destruct (calls_all_alive pool k (RoundRobin rb) Hal (conj Hbs Hc) I Hn)
    as [_ Hsnd].
  destruct (Hsnd i Hi) as (p & Hp1 & Hp2).
  rewrite Hp1. do 3 f_equal.
  cbn [slice_of slots_of cursor_of] in Hp2.
  unfold ptrs in Hp2. apply lookup_seq in Hp2 as [-> _].
  unfold slot_index. cbn [plus]. f_equal.
  replace (rr_current rb + Z.of_nat i + 1)
    with (rr_current rb + Z.of_nat (S i)) by lia.
  destruct Hs as [Hsmall | Hdiv].
  - rewrite uint32_small by lia. reflexivity.
  - apply uint32_mod_divides; [lia | exact Hdiv].
Qed.

(** X18.  Round-robin is cyclic away from the wrap: in a run of calls on
    alive backends during which the cursor stays below [2 ^ 32], and in
    every run when the pool size divides [2 ^ 32], no backend is returned
    a second time before every other backend has been returned. *)
Lemma RoundRobin_cyclic_without_wrap pool rb k :
  all_alive pool -> rr_backends rb = ptrs pool ->
  0 <= rr_current rb < 2 ^ 32 ->
  0 < Z.of_nat (length pool) < 2 ^ 32 ->
  rr_current rb + Z.of_nat k < 2 ^ 32 \/ (Z.of_nat (length pool) | 2 ^ 32) ->
  cyclic_visits (length pool) (snd (calls pool k (RoundRobin rb))).
Proof.
  intros Hal Hbs Hc Hn Hs i j p Hij Hi Hj q Hq Hqp.
  set (n := Z.of_nat (length pool)) in *.
  set (c := rr_current rb) in *.
  assert (Hjk : (j < k)%nat).
  { apply lookup_lt_Some in Hj. rewrite calls_length in Hj. exact Hj. }
  rewrite (RoundRobin_slot_without_wrap pool rb k i) in Hi
    by (try assumption; lia).
  rewrite (RoundRobin_slot_without_wrap pool rb k j) in Hj
    by (try assumption; lia).
  fold n c in Hi, Hj.
  pose proof (Z.mod_pos_bound (c + Z.of_nat i + 1) n ltac:(lia)) as Hbi.
  pose proof (Z.mod_pos_bound (c + Z.of_nat j + 1) n ltac:(lia)) as Hbj.
  assert (Hpi : (c + Z.of_nat i + 1) mod n = Z.of_nat p)
    by (injection Hi as <-; lia).
  assert (Hpj : (c + Z.of_nat j + 1) mod n = Z.of_nat p)
    by (injection Hj as <-; lia).
  clear Hi Hj.
  set (d := (Z.of_nat q - Z.of_nat p) mod n).
  assert (Hd : 1 <= d <= n - 1).
  { pose proof (Z.mod_pos_bound (Z.of_nat q - Z.of_nat p) n ltac:(lia)) as Hb.
    fold d in Hb. destruct (Z.eq_dec d 0) as [H0 | H0]; [| lia].
    exfalso. unfold d in H0. apply Z.mod_divide in H0 as [z Hz]; [| lia].
    assert (Hq' : Z.of_nat q < n) by lia.
    assert (Hp' : 0 <= Z.of_nat p < n) by lia.
    clearbody n c. assert (z = 0) by nia. subst z. lia. }
  assert (Hgap : n <= Z.of_nat j - Z.of_nat i).
  { assert (H0 : (Z.of_nat j - Z.of_nat i) mod n = 0).
    { replace (Z.of_nat j - Z.of_nat i)
        with ((c + Z.of_nat j + 1) - (c + Z.of_nat i + 1)) by lia.
      rewrite Zminus_mod, Hpi, Hpj, Z.sub_diag. apply Z.mod_0_l. lia. }
    apply Z.mod_divide in H0 as [z Hz]; [| lia].
    assert (Hpos : 0 < Z.of_nat j - Z.of_nat i) by lia.
    clearbody n c. assert (0 < z) by nia. nia. }
  exists (i + Z.to_nat d)%nat. split; [lia |].
  rewrite (RoundRobin_slot_without_wrap pool rb k) by (try assumption; lia).
  do 3 f_equal. fold n c.
  replace (c + Z.of_nat (i + Z.to_nat d) + 1)
    with ((c + Z.of_nat i + 1) + d) by lia.
  rewrite Zplus_mod, Hpi. unfold d. rewrite Zmod_mod, Zplus_mod_idemp_r.
  replace (Z.of_nat p + (Z.of_nat q - Z.of_nat p)) with (Z.of_nat q) by lia.
  rewrite Z.mod_small by lia. apply Nat2Z.id.
Qed.

(** The same wrap makes a full round of the loop miss a slot: with only
    the third of three backends alive and the cursor at [2 ^ 32 - 2] the
    loop probes the slots 0, 0 and 1 and returns nothing. *)
Lemma RoundRobin_none_at_wrap :
  let pool :=
    [ {| URL := "http://a"; Alive := false; Weight := 1; Connections := 0 |};
      {| URL := "http://b"; Alive := false; Weight := 1; Connections := 0 |};
      {| URL := "http://c"; Alive := true; Weight := 1; Connections := 0 |} ]
  in
  RoundRobin_NextBackend pool
    {| rr_backends := ptrs pool; rr_current := 4294967294 |} =
  ({| rr_backends := ptrs pool; rr_current := 1 |}, Ret None).
Proof. reflexivity. Qed.

(** ** C7: the weighted shares across the wrap of the cursor *)

Lemma count_2_1_step x :
  0 <= x ->
  count_2_1 (x + 1) =
    count_2_1 x + (if ((x + 1) mod 4294967296) mod 3 =? 2 then 0 else 1).
Proof.
  intros Hx. unfold count_2_1.
  destruct (Z.eqb_spec (((x + 1) mod 4294967296) mod 3) 2) as [H | H];
    Z.div_mod_to_equations; lia.
Qed.

Lemma slot_2_1 x :
  (if returns 0%nat (Ret ([0; 0; 1]%nat !! Z.to_nat (uint32 x mod 3)))
   then 1 else 0) =
  (if (x mod 4294967296) mod 3 =? 2 then 0 else 1).
Proof.
  unfold uint32. change (2 ^ 32) with 4294967296.
  pose proof (Z.mod_pos_bound (x mod 4294967296) 3 ltac:(lia)) as Hb.
  destruct (Z.eqb_spec ((x mod 4294967296) mod 3) 2) as [-> | Hne].
  - reflexivity.
  - assert (Hr : (x mod 4294967296) mod 3 = 0 \/ (x mod 4294967296) mod 3 = 1)
      by lia.
    destruct Hr as [-> | ->]; reflexivity.
Qed.

Lemma selections_2_1 (k : nat) :
  selections (alive_pool [2; 1])
             (Weighted (NewWeightedBalancer (ptrs (alive_pool [2; 1]))))
             0%nat k = count_2_1 (Z.of_nat k).
Proof.
  induction k as [| k IH].
  - reflexivity.
  - rewrite selections_S.
    + rewrite IH.
      change (slice_of _ _) with [0; 0; 1]%nat.
      change (slots_of _ _) with 3. change (cursor_of _) with 0.
      unfold slot_index. rewrite Z.add_0_l, slot_2_1.
      replace (Z.of_nat (S k)) with (Z.of_nat k + 1) by lia.
      rewrite count_2_1_step by lia. reflexivity.
    + repeat constructor.
    + split; [reflexivity | cbn; lia].
    + exact I.
    + cbn. lia.
Qed.

(** C7, where the code departs from it.  With weights 2 and 1, both
    backends alive, the first backend is returned 2863311531 times in
    every [2 ^ 32] calls, one more than two thirds of them: at each wrap
    of the cursor the expansion restarts out of step.  The fraction of
    calls returning it therefore does not converge to 2/3. *)
Theorem Weighted_fraction_not_weight_share :
  let pool := alive_pool [2; 1] in
  let l := Weighted (NewWeightedBalancer (ptrs pool)) in
  (forall m : nat,
     selections pool l 0%nat (m * Z.to_nat 4294967296) =
       Z.of_nat m * 2863311531) /\
  ~ fraction_converges (selections pool l 0%nat) 2 3.
Proof.
  intros pool l.
  assert (Hper : forall m : nat,
            selections pool l 0%nat (m * Z.to_nat 4294967296) =
              Z.of_nat m * 2863311531).
  { intros m. subst pool l. rewrite selections_2_1. unfold count_2_1.
    replace (Z.of_nat (m * Z.to_nat 4294967296))
      with (Z.of_nat m * 4294967296) by lia.
    rewrite Z.div_mul, Z.mod_mul by lia.
    change ((0 + 1) / 3) with 0. lia. }
  split; [exact Hper |].
  intros Hconv.
  destruct (Hconv (3 * 4294967296 + 1) ltac:(lia)) as [N HN].
  specialize (HN (S N * Z.to_nat 4294967296)%nat ltac:(lia)).
  rewrite Hper in HN.
  replace (Z.of_nat (S N * Z.to_nat 4294967296))
    with (Z.of_nat (S N) * 4294967296) in HN by lia.
  lia.
Qed.

(** At the wrap itself: from the cursor [2 ^ 32 - 2] the first backend is
    returned three times in a row. *)
Lemma Weighted_four_calls_at_wrap :
  let pool := alive_pool [2; 1] in
  snd (calls pool 4
         (Weighted {| wb_backends := ptrs pool;
                      wb_current := 4294967294 |})) =
  [Ret (Some 0%nat); Ret (Some 0%nat); Ret (Some 0%nat); Ret (Some 1%nat)].
Proof. reflexivity. Qed.

(** The example of the specification, weights 3 and 1, is not affected:
    their sum divides [2 ^ 32], the second backend is returned by every
    fourth call for ever, and the shares converge to 3/4 and 1/4. *)
Lemma slot_3_1 x :
  (if returns 1%nat (Ret ([0; 0; 0; 1]%nat !! Z.to_nat (uint32 x mod 4)))
   then 1 else 0) =
  (if x mod 4 =? 3 then 1 else 0).
Proof.
  rewrite uint32_mod_divides; [| lia | exists (2 ^ 30); reflexivity].
  pose proof (Z.mod_pos_bound x 4 ltac:(lia)) as Hb.
  destruct (Z.eqb_spec (x mod 4) 3) as [-> | Hne].
  - reflexivity.
  - assert (Hr : x mod 4 = 0 \/ x mod 4 = 1 \/ x mod 4 = 2) by lia.
    destruct Hr as [-> | [-> | ->]]; reflexivity.
Qed.

Lemma selections_3_1 (k : nat) :
  selections (alive_pool [3; 1])
             (Weighted (NewWeightedBalancer (ptrs (alive_pool [3; 1]))))
             1%nat k = (Z.of_nat k + 1) / 4.
Proof.
  induction k as [| k IH].
  - reflexivity.
  - rewrite selections_S.
    + rewrite IH.
      change (slice_of _ _) with [0; 0; 0; 1]%nat.
      change (slots_of _ _) with 4. change (cursor_of _) with 0.
      unfold slot_index. rewrite Z.add_0_l, slot_3_1.
      replace (Z.of_nat (S k)) with (Z.of_nat k + 1) by lia.
      destruct (Z.eqb_spec ((Z.of_nat k + 1) mod 4) 3);
        Z.div_mod_to_equations; lia.
    + repeat constructor.
    + split; [reflexivity | cbn; lia].
    + exact I.
    + cbn. lia.
Qed.

Lemma Weighted_3_1_converges :
  fraction_converges
    (selections (alive_pool [3; 1])
       (Weighted (NewWeightedBalancer (ptrs (alive_pool [3; 1])))) 1%nat)
    1 4.
Proof.
  intros D HD. exists (Z.to_nat D). intros k Hk.
  rewrite selections_3_1.
  assert (Habs : Z.abs ((Z.of_nat k + 1) / 4 * 4 - Z.of_nat k * 1) <= 3)
    by (Z.div_mod_to_equations; lia).
  nia.
Qed.

Lemma slot_3_1_first x :
  (if returns 0%nat (Ret ([0; 0; 0; 1]%nat !! Z.to_nat (uint32 x mod 4)))
   then 1 else 0) =
  (if x mod 4 =? 3 then 0 else 1).
Proof.
  rewrite uint32_mod_divides; [| lia | exists (2 ^ 30); reflexivity].
  pose proof (Z.mod_pos_bound x 4 ltac:(lia)) as Hb.
  destruct (Z.eqb_spec (x mod 4) 3) as [-> | Hne].
  - reflexivity.
  - assert (Hr : x mod 4 = 0 \/ x mod 4 = 1 \/ x mod 4 = 2) by lia.
    destruct Hr as [-> | [-> | ->]]; reflexivity.
Qed.

Lemma selections_3_1_first (k : nat) :
  selections (alive_pool [3; 1])
             (Weighted (NewWeightedBalancer (ptrs (alive_pool [3; 1]))))
             0%nat k = Z.of_nat k - (Z.of_nat k + 1) / 4.
Proof.
  induction k as [| k IH].
  - reflexivity.
  - rewrite selections_S.
    + rewrite IH.
      change (slice_of _ _) with [0; 0; 0; 1]%nat.
      change (slots_of _ _) with 4. change (cursor_of _) with 0.
      unfold slot_index. rewrite Z.add_0_l, slot_3_1_first.
      replace (Z.of_nat (S k)) with (Z.of_nat k + 1) by lia.
      destruct (Z.eqb_spec ((Z.of_nat k + 1) mod 4) 3);
        Z.div_mod_to_equations; lia.
    + repeat constructor.
    + split; [reflexivity | cbn; lia].
    + exact I.
    + cbn. lia.
Qed.

Lemma Weighted_3_1_converges_first :
  fraction_converges
    (selections (alive_pool [3; 1])
       (Weighted (NewWeightedBalancer (ptrs (alive_pool [3; 1])))) 0%nat)
    3 4.
Proof.
  intros D HD. exists (Z.to_nat D). intros k Hk.
  rewrite selections_3_1_first.
  assert (Habs : Z.abs ((Z.of_nat k - (Z.of_nat k + 1) / 4) * 4
                        - Z.of_nat k * 3) <= 3)
    by (Z.div_mod_to_equations; lia).
  nia.
Qed.

(** ** The weighted shares within one cycle *)

Lemma count_ptr_app p l1 l2 :
  count_ptr p (l1 ++ l2) = count_ptr p l1 + count_ptr p l2.
Proof. unfold count_ptr. rewrite map_app. apply count_selected_app. Qed.

Lemma count_ptr_replicate p q m :
  count_ptr p (replicate m q) = if bool_decide (q = p) then Z.of_nat m else 0.
Proof.
  unfold count_ptr.
  induction m as [| m IH]; cbn [replicate map count_selected returns].
  - destruct (bool_decide (q = p)); reflexivity.
  - rewrite IH. destruct (bool_decide (q = p)); lia.
Qed.

(** A record occurs in the expansion as often as its weight says. *)
Lemma count_ptr_expansion p bs : forall k,
  count_ptr p (expansion_from k bs) =
    match bs !! (p - k)%nat with
    | Some b => if bool_decide (k <= p)%nat then Z.max 0 (Weight b) else 0
    | None => 0
    end.
Proof.
  induction bs as [| b bs IH]; intros k; cbn [expansion_from].
  - reflexivity.
  - rewrite count_ptr_app, count_ptr_replicate, IH.
    destruct (decide (k = p)) as [-> | Hne].
    + rewrite bool_decide_eq_true_2 by reflexivity.
      rewrite Nat.sub_diag. change ((b :: bs) !! 0%nat) with (Some b).
      rewrite (bool_decide_eq_true_2 (p <= p)%nat) by lia.
      replace (p - S p)%nat with 0%nat by lia.
      rewrite (bool_decide_eq_false_2 (S p <= p)%nat) by lia.
      destruct (bs !! 0%nat); lia.
    + rewrite bool_decide_eq_false_2 by exact Hne.
      destruct (decide (k <= p)%nat) as [Hle | Hgt].
      * replace (p - k)%nat with (S (p - S k)) by lia.
        change ((b :: bs) !! S (p - S k)%nat) with (bs !! (p - S k)%nat).
        rewrite (bool_decide_eq_true_2 (S k <= p)%nat) by lia.
        rewrite (bool_decide_eq_true_2 (k <= p)%nat) by lia.
        destruct (bs !! (p - S k)%nat); lia.
      * rewrite (bool_decide_eq_false_2 (S k <= p)%nat) by lia.
        rewrite (bool_decide_eq_false_2 (k <= p)%nat) by lia.
        destruct (bs !! (p - S k)%nat);
          destruct ((b :: bs) !! (p - k)%nat); lia.
Qed.

(** Without skew the slots of [n] calls in a row are the slice read from
    some position on and around its end. *)
Lemma slot_index_rotation current (n i : nat) :
  0 <= current -> (i < n)%nat ->
  no_skew current (Z.of_nat n) ->
  slot_index current (Z.of_nat n) (S i) =
    let s := Z.to_nat ((current + 1) mod Z.of_nat n) in
    if decide (s + i < n)%nat then (s + i)%nat else (s + i - n)%nat.
Proof.
  intros Hc Hi Hs. cbn zeta.
  rewrite slot_index_no_skew by (try assumption; lia).
  pose proof (Z.mod_pos_bound (current + 1) (Z.of_nat n) ltac:(lia)) as Hb.
  replace (current + Z.of_nat (S i)) with ((current + 1) + Z.of_nat i) by lia.
  rewrite <- Zplus_mod_idemp_l.
  destruct (decide _) as [Hlt | Hge].
  - rewrite Z.mod_small by lia. lia.
  - rewrite <- (Z.mod_unique ((current + 1) mod Z.of_nat n + Z.of_nat i)
                  (Z.of_nat n) 1
                  ((current + 1) mod Z.of_nat n + Z.of_nat i - Z.of_nat n));
      [lia | lia | lia].
Qed.

Lemma map_lookup_window (e : list ptr) (s len : nat) :
  (s + len <= length e)%nat ->
  map (fun i => Ret (e !! (s + i)%nat)) (seq 0 len) =
  map (fun q => Ret (Some q)) (take len (drop s e)).
Proof.
  intros Hle. apply list_eq. intros i.
  rewrite !list_lookup_fmap.
  destruct (decide (i < len)%nat) as [Hi | Hi].
  - rewrite lookup_seq_lt, lookup_take_lt, lookup_drop by lia. cbn.
    destruct (lookup_lt_is_Some_2 e (s + i)) as [q Hq]; [lia |].
    rewrite Hq. reflexivity.
  - rewrite lookup_seq_ge, lookup_take_ge by lia. reflexivity.
Qed.

(** In [n] calls in a row, [n] the length of the slice, every pointer is
    returned as often as it occurs in the slice. *)
Lemma count_window p (e : list ptr) current :
  e <> [] -> 0 <= current ->
  no_skew current (Z.of_nat (length e)) ->
  count_selected p
    (map (fun i => Ret (e !! slot_index current (Z.of_nat (length e)) (S i)))
         (seq 0 (length e))) = count_ptr p e.
Proof.
  intros Hne Hc Hs.
  set (n := length e) in *.
  assert (Hn : (0 < n)%nat) by (destruct e; [congruence | cbn; lia]).
  set (s := Z.to_nat ((current + 1) mod Z.of_nat n)).
  assert (Hsn : (s < n)%nat).
  { pose proof (Z.mod_pos_bound (current + 1) (Z.of_nat n) ltac:(lia)).
    unfold s. lia. }
  replace (seq 0 n) with (seq 0 (n - s) ++ seq (n - s) s)
    by (rewrite <- seq_app; f_equal; lia).
  rewrite map_app, count_selected_app.
  rewrite (map_ext_in _ (fun i => Ret (e !! (s + i)%nat)) (seq 0 (n - s))).
  2:{ intros i Hin. apply in_seq in Hin.
      rewrite slot_index_rotation by (try assumption; lia).
      cbn zeta. fold s. destruct (decide _); [reflexivity | lia]. }
  replace (seq (n - s) s) with (map (Nat.add (n - s)) (seq 0 s))
    by (etrans; [apply (fmap_add_seq (n - s) 0 s) | f_equal; lia]).
  rewrite map_map.
  rewrite (map_ext_in _ (fun i => Ret (e !! (0 + i)%nat)) (seq 0 s)).
  2:{ intros i Hin. apply in_seq in Hin.
      rewrite slot_index_rotation by (try assumption; lia).
      cbn zeta. fold s. destruct (decide _); [lia |].
      do 2 f_equal. lia. }
  rewrite !map_lookup_window by (unfold n in *; lia).
  rewrite drop_0. fold (count_ptr p (take (n - s) (drop s e))).
  fold (count_ptr p (take s e)).
  rewrite take_ge by (rewrite length_drop; unfold n; lia).
  rewrite Z.add_comm, <- count_ptr_app, take_drop. reflexivity.
Qed.

(** X19.  Within one cycle the weighted shares are exact: in as many
    calls in a row as the expansion has slots, all backends alive and the
    cursor not skewing the indices, every backend is returned as often as
    its weight says. *)
Lemma Weighted_cycle_shares pool wb p b :
  all_alive pool ->
  wb_backends wb = ptrs pool -> 0 <= wb_current wb < 2 ^ 32 ->
  0 < total_weight pool < 2 ^ 32 ->
  no_skew (wb_current wb) (total_weight pool) ->
  pool !! p = Some b ->
  selections pool (Weighted wb) p (Z.to_nat (total_weight pool)) =
    Z.max 0 (Weight b).
Proof.
  intros Hal Hbs Hc Hn Hs Hb. unfold selections.
  rewrite calls_all_alive_map; [| exact Hal | split; assumption | exact I
                                | exact Hn].
  cbn [slice_of slots_of cursor_of].
  pose proof (expansion_length pool 0) as Hlen.
  rewrite <- Hlen, Nat2Z.id.
  rewrite <- Hlen in Hs.
  rewrite count_window; [| | lia | exact Hs].
  - rewrite count_ptr_expansion, Nat.sub_0_r, Hb.
    rewrite bool_decide_eq_true_2 by lia. reflexivity.
  - intros He. rewrite He in Hlen. cbn in Hlen. lia.
Qed.

(** * Further properties of the code *)

(** ** Probes *)

Lemma check_probe_ok pr backend :
  fst (check pr backend) = SetAlive (probe_ok pr) backend.
Proof.
  destruct pr as [| | code]; cbn [check probe_ok]; try reflexivity.
  destruct ((200 <=? code) && (code <? 300)); reflexivity.
Qed.

Lemma SetAlive_SetAlive a a' backend :
  SetAlive a (SetAlive a' backend) = SetAlive a backend.
Proof. reflexivity. Qed.

(** X1.  No hysteresis: after any series of probes of a backend the
    record is the one before the series with the alive flag set by the
    last probe alone; however many probes failed before, one success
    makes the backend alive, and one failure makes it dead. *)
Theorem probes_last_decides (prs : list probe) (pr : probe)
    (backend : Backend) :
  probes (prs ++ [pr]) backend = SetAlive (probe_ok pr) backend.
Proof.
  unfold probes. rewrite foldl_app. cbn [foldl].
  rewrite check_probe_ok.
  generalize backend. induction prs as [| pr' prs IH]; intros b; cbn [foldl].
  - reflexivity.
  - rewrite IH, check_probe_ok. apply SetAlive_SetAlive.
Qed.

Lemma lookup_check_at pr p q pool :
  check_at pr p pool !! q =
    (fun b => if bool_decide (q = p) then SetAlive (probe_ok pr) b else b)
      <$> pool !! q.
Proof.
  unfold check_at. destruct (decide (p = q)) as [-> | Hne].
  - rewrite list_lookup_alter_eq, bool_decide_eq_true_2 by reflexivity.
    destruct (pool !! q); cbn; [rewrite check_probe_ok |]; reflexivity.
  - rewrite list_lookup_alter_ne by exact Hne.
    rewrite bool_decide_eq_false_2 by congruence.
    destruct (pool !! q); reflexivity.
Qed.

Lemma length_check_at pr p pool :
  length (check_at pr p pool) = length pool.
Proof. unfold check_at. apply length_alter. Qed.

(** X2.  A probe writes one flag: the store keeps its length, every
    record but the probed one is as before, and the probed record keeps
    its address, weight and connection count and is alive exactly when the
    probe succeeded. *)
Theorem check_at_writes_one_flag pr p pool :
  length (check_at pr p pool) = length pool /\
  (forall q, q <> p -> check_at pr p pool !! q = pool !! q) /\
  (forall b, pool !! p = Some b ->
     check_at pr p pool !! p = Some (SetAlive (probe_ok pr) b)).
Proof.
  split; [apply length_check_at |]. split.
  - intros q Hq. rewrite lookup_check_at, bool_decide_eq_false_2 by exact Hq.
    destruct (pool !! q); reflexivity.
  - intros b Hb. rewrite lookup_check_at, Hb, bool_decide_eq_true_2
      by reflexivity. reflexivity.
Qed.

Lemma lookup_checkAll answer order : forall pool q,
  checkAll answer order pool !! q =
    (fun b => if bool_decide (q ∈ order)
              then SetAlive (probe_ok (answer q)) b else b) <$> pool !! q.
Proof.
  unfold checkAll.
  induction order as [| p order IH]; intros pool q; cbn [foldl].
  - destruct (pool !! q); reflexivity.
  - rewrite IH, lookup_check_at.
    destruct (pool !! q) as [b |]; [| reflexivity]. cbn. f_equal.
    destruct (decide (q = p)) as [-> | Hne].
    + rewrite (bool_decide_eq_true_2 (p = p)) by reflexivity.
      rewrite (bool_decide_eq_true_2 (p ∈ p :: order))
        by (apply elem_of_cons; left; reflexivity).
      destruct (bool_decide (p ∈ order)); reflexivity.
    + rewrite (bool_decide_eq_false_2 (q = p)) by exact Hne.
      destruct (decide (q ∈ order)) as [Hin | Hnin].
      * rewrite !bool_decide_eq_true_2;
          [reflexivity | apply elem_of_cons; right; exact Hin | exact Hin].
      * rewrite !bool_decide_eq_false_2; [reflexivity | | exact Hnin].
        intros Hin. apply elem_of_cons in Hin as [? | ?]; congruence.
Qed.

(** X3.  A round of probes does not depend on the order in which its
    goroutines finish: whatever arrangement of the backends the results
    are written in, afterwards every backend is alive exactly when its own
    probe succeeded, and nothing else of the store has changed. *)
Theorem checkAll_any_order answer order pool :
  order ≡ₚ ptrs pool ->
  checkAll answer order pool =
    imap (fun p b => SetAlive (probe_ok (answer p)) b) pool.
Proof.
  intros Hperm. apply list_eq. intros q.
  rewrite lookup_checkAll, list_lookup_imap.
  destruct (pool !! q) as [b |] eqn:Hq; [| reflexivity]. cbn.
  rewrite bool_decide_eq_true_2; [reflexivity |].
  rewrite Hperm. apply ptrs_elem. eapply lookup_lt_Some, Hq.
Qed.

(** X3 for three backends whose probes finish last to first. *)
Lemma checkAll_any_order_witness :
  let pool := alive_pool [1; 1; 1] in
  let answer := fun p : nat =>
    if bool_decide (p = 1%nat) then ProbeDoError else ProbeResponse 204 in
  map Alive (checkAll answer [2; 1; 0]%nat pool) = [true; false; true].
Proof.
  intros pool answer.
  rewrite (checkAll_any_order answer [2; 1; 0]%nat pool).
  - reflexivity.
  - cbn. rewrite (Permutation_swap 1%nat 2%nat [0%nat]).
    symmetry. apply (Permutation_cons_append [1; 2]%nat 0%nat).
Defined.

(** ** Probes and selection *)

(** X4.  A backend whose probe has just failed is not selected: after the
    failed probe of a backend no strategy, whatever its slice and cursor,
    returns that backend. *)
Theorem failed_probe_never_selected pr p pool l :
  probe_ok pr = false ->
  snd (NextBackend (check_at pr p pool) l) <> Ret (Some p).
Proof.
  intros Hfail Hsel. apply NextBackend_ret_alive in Hsel.
  unfold alive_at in Hsel. rewrite lookup_check_at in Hsel.
  rewrite bool_decide_eq_true_2 in Hsel by reflexivity.
  destruct (pool !! p); cbn in Hsel; [| discriminate].
  rewrite Hfail in Hsel. discriminate.
Qed.

(** X4 after a probe answered with status 503. *)
Lemma failed_probe_never_selected_witness :
  let pool := alive_pool [1; 1] in
  probe_ok (ProbeResponse 503) = false /\
  snd (NextBackend (check_at (ProbeResponse 503) 1%nat pool)
         (RoundRobin (NewRoundRobinBalancer (ptrs pool)))) <> Ret (Some 1%nat).
Proof.
  intros pool. split; [reflexivity |].
  apply failed_probe_never_selected. reflexivity.
Defined.

(** ** Selection on a well-formed balancer *)

Lemma scan_cursor_range pool slots n iters : forall current,
  0 <= current < 2 ^ 32 ->
  0 <= fst (scan pool slots n iters current) < 2 ^ 32.
Proof.
  induction iters as [| iters IH]; intros current Hc; cbn [scan].
  - exact Hc.
  - pose proof (uint32_range (current + 1)) as Hr. unfold AddUint32.
    destruct (uint32 n =? 0); [exact Hr |].
    destruct (slots !! _) as [p |]; [| exact Hr].
    destruct (pool !! p) as [b |]; [| exact Hr].
    destruct (Alive b); [exact Hr | apply IH, Hr].
Qed.

(** A call leaves the balancer over the store, its cursor a [uint32]. *)
Lemma NextBackend_over pool l :
  over pool l -> over pool (fst (NextBackend pool l)).
Proof.
  destruct l as [rb | lb | wb]; cbn [NextBackend over].
  - intros [Hbs Hc]. unfold RoundRobin_NextBackend.
    case_bool_decide; [cbn; auto |].
    pose proof (scan_cursor_range pool (rr_backends rb)
                  (Z.of_nat (length (rr_backends rb)))
                  (length (rr_backends rb)) _ Hc) as Hr.
    destruct (scan _ _ _ _ _) as [c r]. cbn in *. auto.
  - auto.
  - intros [Hbs Hc]. unfold Weighted_NextBackend.
    destruct (expand pool (wb_backends wb)) as [e | err]; [| cbn; auto].
    case_bool_decide; [cbn; auto |].
    pose proof (scan_cursor_range pool e (Z.of_nat (length e)) (length e)
                  _ Hc) as Hr.
    destruct (scan _ _ _ _ _) as [c r]. cbn in *. auto.
Qed.

Lemma NextBackend_no_panic pool l e :
  over pool l -> slots_of pool l < 2 ^ 32 ->
  snd (NextBackend pool l) <> Panic e.
Proof.
  intros Hover Hn.
  destruct l as [rb | lb | wb]; cbn [over slots_of NextBackend] in *.
  - destruct Hover as [Hbs Hc]. unfold RoundRobin_NextBackend.
    rewrite Hbs, ptrs_length. case_bool_decide as Hz; [discriminate |].
    pose proof (scan_no_panic pool (ptrs pool) (Z.of_nat (length pool))
                  ltac:(lia) Hn ltac:(rewrite ptrs_length; reflexivity)
                  (ptrs_valid pool) (length pool) (rr_current rb) e Hc)
      as Hnp.
    destruct (scan _ _ _ _ _) as [c r]. exact Hnp.
  - apply LeastConnections_NextBackend_spec, Hover.
  - destruct Hover as [Hbs Hc]. unfold Weighted_NextBackend.
    rewrite Hbs, expand_ptrs.
    pose proof (expansion_length pool 0) as Hlen.
    case_bool_decide as Hz; [discriminate |].
    pose proof (scan_no_panic pool (expansion_from 0 pool)
                  (Z.of_nat (length (expansion_from 0 pool)))
                  ltac:(lia) ltac:(lia) eq_refl
                  (expansion_valid pool) (length (expansion_from 0 pool))
                  (wb_current wb) e Hc) as Hnp.
    destruct (scan _ _ _ _ _) as [c r]. exact Hnp.
Qed.

Lemma all_dead_alive_at pool p : all_dead pool -> alive_at pool p = false.
Proof.
  intros Hdead. unfold alive_at.
  destruct (pool !! p) as [b |] eqn:Hb; [| reflexivity].
  unfold all_dead in Hdead. rewrite Forall_lookup in Hdead.
  exact (Hdead p b Hb).
Qed.

Lemma scan_all_dead pool slots n iters current :
  0 < n < 2 ^ 32 -> n = Z.of_nat (length slots) -> valid_ptrs pool slots ->
  0 <= current < 2 ^ 32 -> all_dead pool ->
  scan pool slots n iters current =
    (uint32 (current + Z.of_nat iters), Ret None).
Proof.
  intros [Hpos Hlt] Hlen Hvalid Hc Hdead.
  destruct (scan_spec pool slots n Hpos Hlt Hlen Hvalid iters current Hc)
    as [(i & p & _ & _ & _ & Hal & _) | [Hscan _]].
  - rewrite all_dead_alive_at in Hal by exact Hdead. discriminate.
  - exact Hscan.
Qed.

Lemma set_cursor_same l :
  0 <= cursor_of l < 2 ^ 32 -> set_cursor l (uint32 (cursor_of l)) = l.
Proof.
  intros Hc. rewrite uint32_small by exact Hc.
  destruct l as [[bs c] | lb | [bs c]]; reflexivity.
Qed.

Lemma over_cursor_range pool l : over pool l -> 0 <= cursor_of l < 2 ^ 32.
Proof.
  destruct l as [rb | lb | wb]; cbn [over cursor_of]; [tauto | lia | tauto].
Qed.

(** With every backend dead a call returns nothing, also across the wrap
    of the cursor, and the cursor has moved over every slot. *)
Lemma NextBackend_all_dead pool l :
  over pool l -> slots_of pool l < 2 ^ 32 -> all_dead pool ->
  NextBackend pool l =
    (match l with
     | LeastConnections _ => l
     | _ => set_cursor l (uint32 (cursor_of l + slots_of pool l))
     end, Ret None).
Proof.
  intros Hover Hn Hdead.
  pose proof (over_cursor_range pool l Hover) as Hcur.
  destruct l as [rb | lb | wb];
    cbn [over slots_of cursor_of NextBackend] in *.
  - destruct Hover as [Hbs Hc]. unfold RoundRobin_NextBackend.
    rewrite Hbs, ptrs_length. case_bool_decide as Hz.
    + rewrite Hz, Z.add_0_r, uint32_small by exact Hc.
      destruct rb; reflexivity.
    + rewrite (scan_all_dead pool (ptrs pool)); try assumption;
        [cbn [set_cursor]; rewrite Hbs; reflexivity | lia
        | rewrite ptrs_length; reflexivity | apply ptrs_valid].
  - destruct (LeastConnections_NextBackend_spec pool lb Hover) as [[_ H] _].
    rewrite (H Hdead). reflexivity.
  - destruct Hover as [Hbs Hc]. unfold Weighted_NextBackend.
    rewrite Hbs, expand_ptrs.
    pose proof (expansion_length pool 0) as Hlen.
    case_bool_decide as Hz.
    + rewrite <- Hlen, Hz, Z.add_0_r, uint32_small by exact Hc.
      destruct wb; reflexivity.
    + rewrite Hlen.
      rewrite (scan_all_dead pool (expansion_from 0 pool)); try assumption;
        [cbn [set_cursor]; rewrite Hbs, Hlen; reflexivity | lia
        | symmetry; exact Hlen | apply expansion_valid].
Qed.

(** ** The pipeline on every path *)

(** X5.  With no backend alive every request is answered 503 at once:
    each strategy returns nothing, also when the cursor wraps during the
    call, the round-robin and weighted cursors having moved over every
    slot, and [ServeHTTP] leaves the store untouched and logs the
    refusal. *)
Theorem ServeHTTP_all_dead_unavailable fwd pool rp :
  over pool (loadBalancer rp) ->
  slots_of pool (loadBalancer rp) < 2 ^ 32 ->
  all_dead pool ->
  snd (NextBackend pool (loadBalancer rp)) = Ret None /\
  (has_cursor (loadBalancer rp) ->
   cursor_of (fst (NextBackend pool (loadBalancer rp))) =
     uint32 (cursor_of (loadBalancer rp)
             + slots_of pool (loadBalancer rp))) /\
  ServeHTTP fwd pool rp =
    (pool, with_loadBalancer rp (fst (NextBackend pool (loadBalancer rp))),
     Ret ServiceUnavailable, [LogNoHealthyBackends]).
Proof.
  intros Hover Hn Hdead.
  pose proof (NextBackend_all_dead pool (loadBalancer rp) Hover Hn Hdead)
    as Hnext.
  split; [rewrite Hnext; reflexivity |]. split.
  - intros Hcur. rewrite Hnext. cbn [fst].
    destruct (loadBalancer rp) as [rb | lb | wb];
      [reflexivity | contradiction | reflexivity].
  - unfold ServeHTTP. rewrite Hnext. reflexivity.
Qed.

(** X5 for a round-robin balancer whose cursor wraps during the call. *)
Lemma ServeHTTP_all_dead_unavailable_witness :
  let pool :=
    [ {| URL := "http://a"; Alive := false; Weight := 1; Connections := 0 |};
      {| URL := "http://b"; Alive := false; Weight := 1; Connections := 0 |};
      {| URL := "http://c"; Alive := false; Weight := 1; Connections := 0 |} ]
  in
  let rp := {| rp_config := example_config [] "round-robin";
               rp_backends := ptrs pool;
               loadBalancer :=
                 RoundRobin {| rr_backends := ptrs pool;
                               rr_current := 4294967294 |};
               healthCheck := None |} in
  snd (fst (ServeHTTP (FwdResponse 200) pool rp)) = Ret ServiceUnavailable /\
  fst (fst (fst (ServeHTTP (FwdResponse 200) pool rp))) = pool.
Proof.
  intros pool rp.
  destruct (ServeHTTP_all_dead_unavailable (FwdResponse 200) pool rp)
    as (_ & _ & Hserve).
  - split; [reflexivity | cbn; lia].
  - cbn. lia.
  - repeat constructor.
  - rewrite Hserve. split; reflexivity.
Defined.

(** X6.  [ServeHTTP] changes nothing but the cursor: whether the request
    is refused, the selection panics, or the transport answers, fails or
    panics, the store afterwards is the store before, and the core differs
    by the balancer's state only. *)
Theorem ServeHTTP_store_unchanged fwd pool rp :
  Forall (fun b => - 2 ^ 63 <= Connections b < 2 ^ 63) pool ->
  fst (fst (ServeHTTP fwd pool rp)) =
    (pool, with_loadBalancer rp (fst (NextBackend pool (loadBalancer rp)))).
Proof.
  intros Hint. unfold ServeHTTP.
  destruct (NextBackend pool (loadBalancer rp)) as [l [[p |] | e]];
    cbn [fst]; try reflexivity.
  destruct fwd; cbn [Proxy_ServeHTTP errorHandler fst snd];
    rewrite track_release by exact Hint; reflexivity.
Qed.

(** X6 for a transport that panics. *)
Lemma ServeHTTP_store_unchanged_witness :
  let pool := alive_pool [2; 1] in
  let rp := {| rp_config := example_config [] "weighted";
               rp_backends := ptrs pool;
               loadBalancer := Weighted (NewWeightedBalancer (ptrs pool));
               healthCheck := None |} in
  fst (fst (fst (ServeHTTP FwdPanic pool rp))) = pool /\
  snd (fst (ServeHTTP FwdPanic pool rp)) = Panic AbortHandler.
Proof.
  intros pool rp. split; [| reflexivity].
  rewrite (ServeHTTP_store_unchanged FwdPanic pool rp); [reflexivity |].
  repeat constructor; cbn; lia.
Defined.

(** ** Round-robin among dead backends *)

(** A call that runs on its own skips the dead: when the cursor does not
    skew the indices it returns the first alive backend after the cursor
    in cyclic pool order, every backend passed over being dead, and
    leaves the cursor on the backend it returns. *)
Lemma RoundRobin_first_alive_sequential pool rb :
  rr_backends rb = ptrs pool ->
  0 <= rr_current rb < 2 ^ 32 ->
  Z.of_nat (length pool) < 2 ^ 32 ->
  no_skew (rr_current rb) (Z.of_nat (length pool)) ->
  Exists (fun b => Alive b = true) pool ->
  exists i : nat,
    (1 <= i <= length pool)%nat /\
    RoundRobin_NextBackend pool rb =
      ({| rr_backends := ptrs pool;
          rr_current := uint32 (rr_current rb + Z.of_nat i) |},
       Ret (Some (Z.to_nat ((rr_current rb + Z.of_nat i)
                            mod Z.of_nat (length pool))))) /\
    alive_at pool (Z.to_nat ((rr_current rb + Z.of_nat i)
                             mod Z.of_nat (length pool))) = true /\
    forall i' : nat, (1 <= i' < i)%nat ->
      alive_at pool (Z.to_nat ((rr_current rb + Z.of_nat i')
                               mod Z.of_nat (length pool))) = false.
Proof.
  intros Hbs Hc Hn Hs Hex.
  assert (Hpos : 0 < Z.of_nat (length pool)).
  { apply Exists_exists in Hex as (b & Hin & _).
    destruct pool; [inversion Hin | cbn [length]; lia]. }
  assert (Hl : Z.of_nat (length pool) = Z.of_nat (length (ptrs pool)))
    by (rewrite ptrs_length; reflexivity).
  assert (Hslot : forall (i : nat) q, (1 <= i <= length pool)%nat ->
            ptrs pool !! slot_index (rr_current rb)
                           (Z.of_nat (length pool)) i = Some q ->
            q = Z.to_nat ((rr_current rb + Z.of_nat i)
                          mod Z.of_nat (length pool))).
  { intros i q Hi Hq. unfold ptrs in Hq. apply lookup_seq in Hq as [-> _].
    cbn [plus]. apply slot_index_no_skew; (lia || assumption). }
  unfold RoundRobin_NextBackend. rewrite Hbs, ptrs_length.
  case_bool_decide as Hz; [lia |].
  destruct (scan_spec pool (ptrs pool) _ Hpos Hn Hl (ptrs_valid pool)
              (length pool) (rr_current rb) Hc)
    as [(i & p & Hi & Hscan & Hp & Hal & Hdead) | [Hscan _]].
  - exists i. split; [exact Hi |].
    apply Hslot in Hp; [| exact Hi]. subst p.
    split; [rewrite Hscan; reflexivity |]. split; [exact Hal |].
    intros i' Hi'. destruct (Hdead i' Hi') as (q & Hq & Hqa).
    apply Hslot in Hq; [| lia]. subst q. exact Hqa.
  - exfalso.
    pose proof (scan_round_none pool (ptrs pool) _ Hpos Hn Hl
                  (ptrs_valid pool) (rr_current rb) Hc Hs) as [Hnone _].
    rewrite ptrs_length, Hscan in Hnone. specialize (Hnone eq_refl).
    apply alive_at_all_dead in Hnone.
    apply Exists_exists in Hex as (b & Hin & Hb).
    unfold all_dead in Hnone. rewrite Forall_forall in Hnone.
    rewrite (Hnone b Hin) in Hb. discriminate.
Qed.

(** ** Weighted selection with unit weights *)

Lemma expansion_unit bs : forall k,
  Forall (fun b => Weight b = 1) bs ->
  expansion_from k bs = seq k (length bs).
Proof.
  induction bs as [| b bs IH]; intros k Hall; cbn [expansion_from length seq].
  - reflexivity.
  - apply Forall_cons in Hall as [Hb Hall].
    rewrite Hb, IH by exact Hall. reflexivity.
Qed.

Lemma Weighted_unit_call pool current :
  Forall (fun b => Weight b = 1) pool ->
  Weighted_NextBackend pool
    {| wb_backends := ptrs pool; wb_current := current |} =
  ({| wb_backends := ptrs pool;
      wb_current :=
        rr_current (fst (RoundRobin_NextBackend pool
                           {| rr_backends := ptrs pool;
                              rr_current := current |})) |},
   snd (RoundRobin_NextBackend pool
          {| rr_backends := ptrs pool; rr_current := current |})).
Proof.
  intros Hunit. unfold Weighted_NextBackend, RoundRobin_NextBackend.
  cbn [wb_backends wb_current rr_backends rr_current].
  rewrite expand_ptrs, (expansion_unit pool 0 Hunit).
  fold (ptrs pool).
  case_bool_decide; [reflexivity |].
  destruct (scan _ _ _ _ _) as [c r]. reflexivity.
Qed.

(** X8.  With every weight 1 the weighted balancer is the round-robin
    balancer: from the same cursor a call returns the same backend and
    leaves the same cursor, and so does every further call. *)
Theorem Weighted_unit_weights_is_RoundRobin pool :
  Forall (fun b => Weight b = 1) pool ->
  forall (k : nat) (current : Z),
    snd (calls pool k
           (Weighted {| wb_backends := ptrs pool; wb_current := current |})) =
    snd (calls pool k
           (RoundRobin {| rr_backends := ptrs pool; rr_current := current |}))
    /\
    cursor_of (fst (calls pool k
           (Weighted {| wb_backends := ptrs pool; wb_current := current |}))) =
    cursor_of (fst (calls pool k
           (RoundRobin {| rr_backends := ptrs pool;
                          rr_current := current |}))).
Proof.
  intros Hunit. induction k as [| k IH]; intros current.
  - split; reflexivity.
  - cbn [calls NextBackend]. rewrite (Weighted_unit_call pool current Hunit).
    assert (Hbs : rr_backends
                    (fst (RoundRobin_NextBackend pool
                            {| rr_backends := ptrs pool;
                               rr_current := current |})) = ptrs pool).
    { unfold RoundRobin_NextBackend. case_bool_decide; [reflexivity |].
      destruct (scan _ _ _ _ _); reflexivity. }
    destruct (RoundRobin_NextBackend pool
                {| rr_backends := ptrs pool; rr_current := current |})
      as [[bs c] r].
    cbn [fst snd rr_current rr_backends] in *. subst bs.
    specialize (IH c). destruct IH as [IH1 IH2].
    destruct (calls pool k (Weighted _)) as [lw rsw].
    destruct (calls pool k (RoundRobin _)) as [lr rsr].
    cbn [fst snd] in *. subst rsw. split; [reflexivity | exact IH2].
Qed.

(** X8 on three backends of weight 1, two of them alive. *)
Lemma Weighted_unit_weights_is_RoundRobin_witness :
  let pool :=
    [ {| URL := "http://a"; Alive := true; Weight := 1; Connections := 0 |};
      {| URL := "http://b"; Alive := false; Weight := 1; Connections := 0 |};
      {| URL := "http://c"; Alive := true; Weight := 1; Connections := 0 |} ]
  in
  snd (calls pool 4
         (Weighted {| wb_backends := ptrs pool; wb_current := 0 |})) =
  snd (calls pool 4
         (RoundRobin {| rr_backends := ptrs pool; rr_current := 0 |})).
Proof.
  intros pool.
  apply (Weighted_unit_weights_is_RoundRobin pool).
  repeat constructor.
Defined.

(** ** Recovery *)

Lemma total_weight_alter f p : forall pool,
  (forall b, Weight (f b) = Weight b) ->
  total_weight (alter f p pool) = total_weight pool.
Proof.
  intros pool Hf. revert p.
  induction pool as [| b pool IH]; intros [| p]; cbn; try reflexivity.
  - rewrite Hf. reflexivity.
  - fold (total_weight (alter f p pool)). fold (total_weight pool).
    rewrite IH. reflexivity.
Qed.

Lemma over_same_length pool pool' l :
  length pool' = length pool -> over pool l -> over pool' l.
Proof.
  intros Hlen. unfold over, ptrs. rewrite Hlen. auto.
Qed.

Lemma slots_of_check_at pr p pool l :
  slots_of (check_at pr p pool) l = slots_of pool l.
Proof.
  destruct l; cbn [slots_of]; [| reflexivity |].
  - rewrite length_check_at. reflexivity.
  - unfold check_at. apply total_weight_alter. intros b.
    rewrite check_probe_ok. reflexivity.
Qed.

(** Recovery as a call on its own sees it: when every backend is dead
    and the probe of one of them succeeds, the next call returns that
    backend (for the weighted strategy if its weight is positive),
    provided the cursor does not skew the indices. *)
Lemma probe_success_recovers_sequential pr p b pool l :
  over pool l ->
  slots_of pool l < 2 ^ 32 ->
  no_skew (cursor_of l) (slots_of pool l) ->
  all_dead pool ->
  pool !! p = Some b ->
  eligible l (SetAlive true b) ->
  probe_ok pr = true ->
  snd (NextBackend (check_at pr p pool) l) = Ret (Some p).
Proof.
  intros Hover Hn Hs Hdead Hb Hel Hok.
  set (pool' := check_at pr p pool).
  assert (Hover' : over pool' l)
    by (eapply over_same_length; [apply length_check_at | exact Hover]).
  assert (Hn' : slots_of pool' l < 2 ^ 32)
    by (unfold pool'; rewrite slots_of_check_at; exact Hn).
  assert (Hs' : no_skew (cursor_of l) (slots_of pool' l))
    by (unfold pool'; rewrite slots_of_check_at; exact Hs).
  assert (Hp' : pool' !! p = Some (SetAlive true b)).
  { unfold pool'. rewrite lookup_check_at, Hb, Hok.
    rewrite bool_decide_eq_true_2 by reflexivity. reflexivity. }
  assert (Honly : forall q, alive_at pool' q = true -> q = p).
  { intros q Hq. destruct (decide (q = p)) as [-> | Hne]; [reflexivity |].
    unfold alive_at, pool' in Hq. rewrite lookup_check_at in Hq.
    rewrite bool_decide_eq_false_2 in Hq by exact Hne.
    pose proof (all_dead_alive_at pool q Hdead) as Hq'.
    unfold alive_at in Hq'. destruct (pool !! q); cbn in Hq; congruence. }
  assert (Hnone : snd (NextBackend pool' l) <> Ret None).
  { intros Hnone.
    assert (Hno : Forall (fun b' => ~ eligible l b') pool').
    { destruct l as [rb | lb | wb]; cbn [over slots_of cursor_of] in *.
      - destruct Hover' as [Hbs Hc].
        destruct (RoundRobin_NextBackend_spec pool' rb Hbs Hc Hn' Hs')
          as ([H1 _] & _).
        cbn [NextBackend] in Hnone.
        destruct (RoundRobin_NextBackend pool' rb) as [rb' r].
        specialize (H1 Hnone). unfold all_dead in H1.
        eapply Forall_impl; [exact H1 |]. cbn. intros b' Hb' Hal. congruence.
      - destruct (LeastConnections_NextBackend_spec pool' lb Hover')
          as ([H1 _] & _).
        specialize (H1 Hnone). unfold all_dead in H1.
        eapply Forall_impl; [exact H1 |]. cbn. intros b' Hb' Hal. congruence.
      - destruct Hover' as [Hbs Hc].
        destruct (Weighted_NextBackend_spec pool' wb Hbs Hc Hn' Hs')
          as ([H1 _] & _).
        cbn [NextBackend] in Hnone.
        destruct (Weighted_NextBackend pool' wb) as [wb' r].
        exact (H1 Hnone). }
    rewrite Forall_lookup in Hno. exact (Hno p _ Hp' Hel). }
  pose proof (NextBackend_no_panic pool' l) as Hnp.
  pose proof (NextBackend_ret_alive pool' l) as Hra.
  destruct (snd (NextBackend pool' l)) as [[q |] | e].
  - rewrite (Honly q (Hra q eq_refl)). reflexivity.
  - congruence.
  - exfalso. exact (Hnp e Hover' Hn' eq_refl).
Qed.

(** ** What the running proxy keeps *)

Lemma built_from_alter url_Parse f p cs pool :
  (forall b, URL (f b) = URL b) -> (forall b, Weight (f b) = Weight b) ->
  Forall2 (built_from url_Parse) cs pool ->
  Forall2 (built_from url_Parse) cs (alter f p pool).
Proof.
  intros Hu Hw Hall. apply Forall2_alter_r; [exact Hall |].
  intros c b _ _ [H1 H2]. split; [rewrite Hu | rewrite Hw]; assumption.
Qed.

Lemma targets_record_alter f p pool ph :
  targets_record pool ph -> targets_record (alter f p pool) ph.
Proof.
  destruct ph as [q | q]; cbn [targets_record]; intros H;
    apply lookup_lt_is_Some; rewrite length_alter;
    apply lookup_lt_is_Some, H.
Qed.

Lemma well_formed_alter url_Parse f p pool rp rs rs' :
  (forall b, URL (f b) = URL b) -> (forall b, Weight (f b) = Weight b) ->
  (Forall (targets_record pool) rs -> Forall (targets_record pool) rs') ->
  well_formed url_Parse (mkSystem pool rp rs) ->
  well_formed url_Parse (mkSystem (alter f p pool) rp rs').
Proof.
  intros Hu Hw Hrs (H1 & H2 & H3 & H4 & H5).
  cbn [sys_pool sys_rp sys_requests] in *.
  assert (Hptrs : ptrs (alter f p pool) = ptrs pool)
    by (unfold ptrs; rewrite length_alter; reflexivity).
  split; [| split; [| split; [| split]]];
    cbn [sys_pool sys_rp sys_requests].
  - apply built_from_alter; assumption.
  - rewrite Hptrs. exact H2.
  - eapply over_same_length; [apply length_alter | exact H3].
  - intros hc Hhc. rewrite Hptrs. exact (H4 hc Hhc).
  - eapply Forall_impl; [exact (Hrs H5) |].
    intros ph. apply targets_record_alter.
Qed.

Lemma well_formed_New url_Parse cfg pool rp :
  New url_Parse cfg = Ok (pool, rp) ->
  well_formed url_Parse (mkSystem pool rp []).
Proof.
  intros Hnew. pose proof Hnew as Hnew'.
  unfold New in Hnew'. case_bool_decide; [discriminate |].
  destruct (init_backends url_Parse (config.Backends cfg)) as [pool' | e]
    eqn:Hinit; [| discriminate].
  injection Hnew' as <- <-.
  split; [| split; [| split; [| split]]];
    cbn [sys_pool sys_rp sys_requests rp_config rp_backends loadBalancer
         healthCheck].
  - eapply Forall2_impl; [apply init_backends_spec, Hinit |].
    intros c b (Hu & _ & Hw & _). split; assumption.
  - reflexivity.
  - unfold init_loadBalancer.
    repeat case_bool_decide; cbn; (split; [reflexivity | lia]) || reflexivity.
  - intros hc. destruct (config.Enabled _); [| discriminate].
    intros [= <-]. reflexivity.
  - constructor.
Qed.

Lemma well_formed_select url_Parse pool rp rs rs' :
  (Forall (targets_record pool) rs -> Forall (targets_record pool) rs') ->
  well_formed url_Parse (mkSystem pool rp rs) ->
  well_formed url_Parse
    (mkSystem pool
       (with_loadBalancer rp (fst (NextBackend pool (loadBalancer rp)))) rs').
Proof.
  intros Hrs (H1 & H2 & H3 & H4 & H5).
  cbn [sys_pool sys_rp sys_requests] in *.
  split; [| split; [| split; [| split]]];
    cbn [sys_pool sys_rp sys_requests with_loadBalancer rp_config
         rp_backends loadBalancer healthCheck]; auto.
  apply NextBackend_over, H3.
Qed.

Lemma well_formed_step url_Parse s s' :
  step s s' -> well_formed url_Parse s -> well_formed url_Parse s'.
Proof.
  intros Hstep Hwf.
  destruct Hstep as [pool rp rs l backend Hnext | pool rp rs l Hnext
                    | pool rp rs l e Hnext | pool rp rs1 rs2 backend
                    | pool rp rs1 rs2 backend fwd
                    | pool rp rs hc backend pr _ _].
  - replace l with (fst (NextBackend pool (loadBalancer rp)))
      by (rewrite Hnext; reflexivity).
    apply (well_formed_select url_Parse pool rp rs); [| exact Hwf].
    intros Hrs. constructor; [| exact Hrs]. cbn [targets_record].
    apply alive_at_valid, (NextBackend_ret_alive pool (loadBalancer rp)).
    rewrite Hnext. reflexivity.
  - replace l with (fst (NextBackend pool (loadBalancer rp)))
      by (rewrite Hnext; reflexivity).
    apply (well_formed_select url_Parse pool rp rs); [auto | exact Hwf].
  - replace l with (fst (NextBackend pool (loadBalancer rp)))
      by (rewrite Hnext; reflexivity).
    apply (well_formed_select url_Parse pool rp rs); [auto | exact Hwf].
  - unfold track.
    apply (well_formed_alter url_Parse _ _ pool rp
             (rs1 ++ Selected backend :: rs2)); try reflexivity; [| exact Hwf].
    rewrite !Forall_app, !Forall_cons. tauto.
  - replace (fst (fst (Proxy_ServeHTTP fwd pool))) with pool
      by (destruct fwd; reflexivity).
    unfold release.
    apply (well_formed_alter url_Parse _ _ pool rp
             (rs1 ++ Forwarding backend :: rs2)); try reflexivity;
      [| exact Hwf].
    rewrite !Forall_app, !Forall_cons. tauto.
  - unfold check_at.
    apply (well_formed_alter url_Parse _ _ pool rp rs); [| | auto | exact Hwf];
      intros b; rewrite check_probe_ok; reflexivity.
Qed.

Lemma reachable_well_formed url_Parse s :
  reachable url_Parse s -> well_formed url_Parse s.
Proof.
  induction 1 as [cfg pool rp Hnew | s s' _ IH Hstep].
  - eapply well_formed_New, Hnew.
  - eapply well_formed_step; eassumption.
Qed.

Lemma example_state_reachable : reachable parse_any example_state.
Proof.
  unfold example_state.
  apply (reachable_step parse_any
           (mkSystem (track 1%nat example_pool)
                     (with_loadBalancer example_rp
                        (RoundRobin {| rr_backends := ptrs example_pool;
                                       rr_current := 1 |}))
                     [Forwarding 1%nat])).
  - apply (reachable_step parse_any
             (mkSystem example_pool
                       (with_loadBalancer example_rp
                          (RoundRobin {| rr_backends := ptrs example_pool;
                                         rr_current := 1 |}))
                       [Selected 1%nat])).
    + apply (reachable_step parse_any (mkSystem example_pool example_rp [])).
      * apply (reachable_New parse_any example_cfg). reflexivity.
      * apply step_select. reflexivity.
    + apply (step_track example_pool _ [] [] 1%nat).
  - apply (step_check _ _ _ (NewHealthChecker example_cfg (ptrs example_pool)));
      [reflexivity |].
    apply ptrs_elem. cbn. lia.
Defined.

(** X10.  The backend set is fixed: in every state the running proxy
    reaches, the store holds one record per configured backend, in the
    configured order, each with the parsed address and the weight [New]
    gave it; the core and the health checker still point at all of them,
    and every request in flight targets one of them.  Requests and probes
    change counts and alive flags only. *)
Theorem reachable_backends_fixed url_Parse s :
  reachable url_Parse s ->
  Forall2 (built_from url_Parse)
          (config.Backends (rp_config (sys_rp s))) (sys_pool s) /\
  length (sys_pool s) = length (config.Backends (rp_config (sys_rp s))) /\
  rp_backends (sys_rp s) = ptrs (sys_pool s) /\
  (forall hc, healthCheck (sys_rp s) = Some hc ->
     hc_backends hc = ptrs (sys_pool s)) /\
  Forall (targets_record (sys_pool s)) (sys_requests s).
Proof.
  intros Hreach.
  destruct (reachable_well_formed url_Parse s Hreach)
    as (H1 & H2 & _ & H4 & H5).
  split; [exact H1 |]. split; [| auto].
  symmetry. eapply Forall2_length, H1.
Qed.

(** X10 in a state with a request in flight and a failed probe. *)
Lemma reachable_backends_fixed_witness :
  map Weight (sys_pool example_state) = [1; 3] /\
  map Alive (sys_pool example_state) = [false; true] /\
  Forall2 (built_from parse_any)
          (config.Backends (rp_config (sys_rp example_state)))
          (sys_pool example_state).
Proof.
  split; [reflexivity |]. split; [reflexivity |].
  apply (reachable_backends_fixed parse_any example_state).
  exact example_state_reachable.
Defined.

(** X11.  Selection never panics in the running proxy: in every state it
    reaches, with fewer than [2 ^ 32] slots to cycle through, the call of
    the strategy returns a backend or nothing; the index is in range, the
    modulus is not zero and no pointer is nil. *)
Theorem reachable_selection_never_panics url_Parse s e :
  reachable url_Parse s ->
  slots_of (sys_pool s) (loadBalancer (sys_rp s)) < 2 ^ 32 ->
  snd (NextBackend (sys_pool s) (loadBalancer (sys_rp s))) <> Panic e.
Proof.
  intros Hreach Hn.
  destruct (reachable_well_formed url_Parse s Hreach) as (_ & _ & H3 & _).
  apply NextBackend_no_panic; assumption.
Qed.

(** X11 in the same state: the next call returns the second backend. *)
Lemma reachable_selection_never_panics_witness :
  snd (NextBackend (sys_pool example_state)
         (loadBalancer (sys_rp example_state))) = Ret (Some 1%nat) /\
  snd (NextBackend (sys_pool example_state)
         (loadBalancer (sys_rp example_state))) <> Panic DivideByZero.
Proof.
  split; [reflexivity |].
  apply (reachable_selection_never_panics parse_any example_state).
  - exact example_state_reachable.
  - cbn. lia.
Defined.

(** ** Configuration: defaults, validation, loading *)

Lemma dflt_twice (z d : Z) :
  d <> 0 ->
  (if (if z =? 0 then d else z) =? 0 then d else (if z =? 0 then d else z)) =
  (if z =? 0 then d else z).
Proof.
  intros Hd. destruct (Z.eqb_spec z 0) as [Hz | Hz].
  - destruct (Z.eqb_spec d 0); [contradiction | reflexivity].
  - destruct (Z.eqb_spec z 0); [contradiction | reflexivity].
Qed.

Lemma dflts_twice (x d : string) :
  d <> "" ->
  (if bool_decide ((if bool_decide (x = "") then d else x) = "")
   then d else (if bool_decide (x = "") then d else x)) =
  (if bool_decide (x = "") then d else x).
Proof.
  intros Hd. destruct (decide (x = "")) as [Hx | Hx].
  - rewrite (bool_decide_eq_true_2 (x = "")) by exact Hx.
    rewrite bool_decide_eq_false_2 by exact Hd. reflexivity.
  - rewrite (bool_decide_eq_false_2 (x = "")) by exact Hx.
    rewrite bool_decide_eq_false_2 by exact Hx. reflexivity.
Qed.

Lemma setDefaults_twice cfg :
  config.setDefaults (config.setDefaults cfg) = config.setDefaults cfg.
Proof.
  unfold config.setDefaults.
  cbn [config.Server config.Backends config.LoadBalancer config.HealthCheck
       config.Logging config.TLS config.Limits config.Address
       config.ReadTimeout config.WriteTimeout config.IdleTimeout
       config.Algorithm config.Enabled config.Interval config.Timeout
       config.Path config.Level config.Format config.MaxConnections
       config.MaxIdleConns config.MaxConnsPerHost config.RequestTimeout
       config.MaxRequestBodySize].
  rewrite !dflt_twice by (unfold config.Second; lia).
  rewrite !dflts_twice by discriminate.
  reflexivity.
Qed.

(** X12.  [setDefaults] only fills what is unset: it is idempotent, it
    leaves the address, the backends (a weight of 0 included), the health
    check switch and the TLS block alone, and afterwards no timeout or
    interval is 0 and no algorithm, path, level or format is empty. *)
Theorem setDefaults_fills_unset cfg :
  let cfg' := config.setDefaults cfg in
  config.setDefaults cfg' = cfg' /\
  config.Backends cfg' = config.Backends cfg /\
  config.Address (config.Server cfg') = config.Address (config.Server cfg) /\
  config.Enabled (config.HealthCheck cfg')
    = config.Enabled (config.HealthCheck cfg) /\
  config.TLS cfg' = config.TLS cfg /\
  config.ReadTimeout (config.Server cfg') <> 0 /\
  config.WriteTimeout (config.Server cfg') <> 0 /\
  config.IdleTimeout (config.Server cfg') <> 0 /\
  config.Interval (config.HealthCheck cfg') <> 0 /\
  config.Timeout (config.HealthCheck cfg') <> 0 /\
  config.Algorithm (config.LoadBalancer cfg') <> "" /\
  config.Path (config.HealthCheck cfg') <> "" /\
  config.Level (config.Logging cfg') <> "" /\
  config.Format (config.Logging cfg') <> "".
Proof.
  cbn zeta. split; [apply setDefaults_twice |].
  unfold config.setDefaults, config.Second. cbn.
  repeat split;
    try match goal with
        | |- (if ?z =? 0 then _ else _) <> 0 =>
            destruct (Z.eqb_spec z 0); lia
        | |- (if bool_decide ?P then _ else _) <> "" =>
            case_bool_decide; [discriminate | assumption]
        end.
Qed.

Section Loading.

Variable url_Parse : string -> option string.
Variable strings_ToLower : string -> string.

Lemma validate_backends_ok bs : forall i,
  config.validate_backends url_Parse i bs = None ->
  Forall (backend_ok url_Parse) bs.
Proof.
  induction bs as [| c bs IH]; intros i; cbn [config.validate_backends].
  - constructor.
  - case_bool_decide as Hu; [discriminate |].
    destruct (url_Parse (config.URL c)) as [u |] eqn:Hp; [| discriminate].
    destruct (Z.ltb_spec (config.Weight c) 0); [discriminate |].
    intros Hrest. constructor; [| eapply IH, Hrest].
    split; [exact Hu |]. split; [rewrite Hp; eauto | lia].
Qed.

Lemma validate_backends_fault bs : forall k e,
  config.validate_backends url_Parse k bs = Some e ->
  exists (j : nat) (c : config.Backend),
    backend_error_index e = Some (k + j)%nat /\
    bs !! j = Some c /\
    backend_fault url_Parse e c /\
    Forall (backend_ok url_Parse) (take j bs).
Proof.
  induction bs as [| c bs IH]; intros k e; cbn [config.validate_backends].
  - discriminate.
  - case_bool_decide as Hu.
    { intros [= <-]. exists 0%nat, c. cbn. rewrite Nat.add_0_r.
      repeat split; [exact Hu | constructor]. }
    destruct (url_Parse (config.URL c)) as [u |] eqn:Hp.
    2:{ intros [= <-]. exists 0%nat, c. cbn. rewrite Nat.add_0_r.
        repeat split; [exact Hu | exact Hp | constructor]. }
    destruct (Z.ltb_spec (config.Weight c) 0) as [Hw | Hw].
    { intros [= <-]. exists 0%nat, c. cbn. rewrite Nat.add_0_r.
      repeat split; [exact Hu | rewrite Hp; eauto | exact Hw | constructor]. }
    intros Hrest. destruct (IH (S k) e Hrest) as (j & c' & Hi & Hc' & Hf & Hok).
    exists (S j), c'. split; [rewrite Hi; f_equal; lia |].
    split; [exact Hc' |]. split; [exact Hf |].
    cbn [take]. constructor; [| exact Hok].
    split; [exact Hu |]. split; [rewrite Hp; eauto | lia].
Qed.

(** What [Validate] has checked of a configuration it accepts. *)
Lemma Validate_accepts cfg :
  config.Validate url_Parse strings_ToLower cfg = None ->
  config.Backends cfg <> [] /\
  Forall (backend_ok url_Parse) (config.Backends cfg) /\
  config.Algorithm (config.LoadBalancer cfg) ∈ algorithms /\
  (config.Enabled (config.HealthCheck cfg) = true ->
   0 <= config.Interval (config.HealthCheck cfg) /\
   0 <= config.Timeout (config.HealthCheck cfg)).
Proof.
  unfold config.Validate.
  case_bool_decide as Ha; [discriminate |].
  case_bool_decide as Hl; [discriminate |].
  destruct (config.validate_backends url_Parse 0 (config.Backends cfg))
    as [e |] eqn:Hv; [discriminate |].
  unfold config.mem. case_bool_decide as Halg; cbn [negb]; [| discriminate].
  destruct (_ <? 0); [discriminate |].
  destruct (_ <? 0); [discriminate |].
  destruct (_ <? 0); [discriminate |].
  destruct (config.Enabled (config.HealthCheck cfg)) eqn:Hen; cbn [andb].
  - destruct (Z.ltb_spec (config.Interval (config.HealthCheck cfg)) 0);
      [discriminate |].
    destruct (Z.ltb_spec (config.Timeout (config.HealthCheck cfg)) 0);
      [discriminate |].
    intros _. split; [intros Hnil; rewrite Hnil in Hl; contradiction |].
    split; [eapply validate_backends_ok, Hv |]. split; [exact Halg |].
    intros _. lia.
  - intros _. split; [intros Hnil; rewrite Hnil in Hl; contradiction |].
    split; [eapply validate_backends_ok, Hv |]. split; [exact Halg |].
    discriminate.
Qed.

(** X13.  An error of [Validate] about a backend points at the first
    faulty one: the position it carries is in range, the backend there has
    the fault reported (no address, an address that does not parse, or a
    negative weight), and every backend before it is without fault. *)
Theorem Validate_reports_first_faulty_backend cfg e i :
  config.Validate url_Parse strings_ToLower cfg = Some e ->
  backend_error_index e = Some i ->
  exists c,
    config.Backends cfg !! i = Some c /\
    backend_fault url_Parse e c /\
    Forall (backend_ok url_Parse) (take i (config.Backends cfg)).
Proof.
  unfold config.Validate. intros Hv Hi.
  destruct (config.validate_backends url_Parse 0 (config.Backends cfg))
    as [e' |] eqn:Hb.
  - assert (e = e').
    { repeat case_bool_decide; try congruence;
        injection Hv as <-; discriminate Hi. }
    subst e'.
    destruct (validate_backends_fault _ _ _ Hb) as (j & c & Hj & Hc & Hf & Hok).
    rewrite Hi in Hj. injection Hj as ->. eauto.
  - exfalso. revert Hv.
    repeat match goal with
           | |- context [if ?c then _ else _] => destruct c
           | |- context [config.validate_tls ?t] =>
               unfold config.validate_tls; destruct t
           end;
      intros [= <-]; discriminate Hi.
Qed.

Variable os_ReadFile : string -> option string.
Variable yaml_Unmarshal : string -> option config.Config.

(** X14.  Whatever [Load] returns, [New] accepts: a loaded configuration
    has its defaults set and passes [Validate], so [New] builds a core
    with one backend per entry, every weight positive, the algorithm one
    of the three known names, and, when health checking is enabled, a
    positive probe interval and timeout. *)
Theorem Load_then_New_succeeds path cfg :
  config.Load url_Parse strings_ToLower os_ReadFile yaml_Unmarshal path
    = config.Loaded cfg ->
  config.setDefaults cfg = cfg /\
  config.Validate url_Parse strings_ToLower cfg = None /\
  config.Algorithm (config.LoadBalancer cfg) ∈ algorithms /\
  (config.Enabled (config.HealthCheck cfg) = true ->
   0 < config.Interval (config.HealthCheck cfg) /\
   0 < config.Timeout (config.HealthCheck cfg)) /\
  exists pool rp,
    New url_Parse cfg = Ok (pool, rp) /\
    length pool = length (config.Backends cfg) /\
    Forall (fun b => 0 < Weight b) pool.
Proof.
  unfold config.Load.
  destruct (os_ReadFile path) as [data |]; [| discriminate].
  destruct (yaml_Unmarshal data) as [cfg0 |]; [| discriminate].
  destruct (config.Validate url_Parse strings_ToLower
              (config.setDefaults cfg0)) as [e |] eqn:Hv; [discriminate |].
  intros [= <-].
  destruct (Validate_accepts _ Hv) as (Hne & Hok & Halg & Hhc).
  split; [apply setDefaults_twice |]. split; [exact Hv |].
  split; [exact Halg |]. split.
  - intros Hen. specialize (Hhc Hen).
    assert (config.Interval (config.HealthCheck (config.setDefaults cfg0)) <> 0
            /\ config.Timeout (config.HealthCheck (config.setDefaults cfg0))
               <> 0) as [H1 H2].
    { unfold config.setDefaults, config.Second. cbn.
      split; match goal with
             | |- (if ?z =? 0 then _ else _) <> 0 =>
                 destruct (Z.eqb_spec z 0); lia
             end. }
    lia.
  - destruct (init_backends_total url_Parse
                (config.Backends (config.setDefaults cfg0))) as [pool Hpool].
    { eapply Forall_impl; [exact Hok |]. intros c (_ & Hp & _). exact Hp. }
    pose proof (init_backends_spec url_Parse _ _ Hpool) as Hspec.
    eexists pool, _. split; [| split].
    + unfold New. case_bool_decide as Hlen.
      { destruct (config.Backends (config.setDefaults cfg0));
          [contradiction | discriminate]. }
      rewrite Hpool. reflexivity.
    + symmetry. eapply Forall2_length, Hspec.
    + apply Forall_lookup. intros p b Hb.
      destruct (Forall2_lookup_r _ _ _ _ _ Hspec Hb)
        as (c & Hc & _ & _ & Hw & _).
      rewrite Forall_lookup in Hok. destruct (Hok p c Hc) as (_ & _ & Hc0).
      rewrite Hw. destruct (Z.eqb_spec (config.Weight c) 0); lia.
Qed.

Lemma init_backends_error bs e :
  init_backends url_Parse bs = Err e ->
  exists (i : nat) (c : config.Backend),
    bs !! i = Some c /\
    e = ErrInvalidBackendURL (config.URL c) /\
    url_Parse (config.URL c) = None /\
    Forall (fun c' => is_Some (url_Parse (config.URL c'))) (take i bs).
Proof.
  induction bs as [| c bs IH]; cbn [init_backends]; [discriminate |].
  destruct (url_Parse (config.URL c)) as [u |] eqn:Hp.
  - destruct (init_backends url_Parse bs) as [tail | e']; [discriminate |].
    intros [= <-]. destruct (IH eq_refl) as (i & c' & Hc' & He & Hn & Hok).
    exists (S i), c'. repeat split; try assumption.
    cbn [take]. constructor; [rewrite Hp; eauto | exact Hok].
  - intros [= <-]. exists 0%nat, c. repeat split; [exact Hp | constructor].
Qed.

(** X15.  When [New] fails it says why: either the configuration lists
    no backend, or the error carries the address of the first backend
    whose address does not parse, all addresses before it being fine. *)
Theorem New_error_names_first_bad_address cfg e :
  New url_Parse cfg = Err e ->
  (e = ErrNoBackendsConfigured /\ config.Backends cfg = []) \/
  (exists (i : nat) (c : config.Backend),
     config.Backends cfg !! i = Some c /\
     e = ErrInvalidBackendURL (config.URL c) /\
     url_Parse (config.URL c) = None /\
     Forall (fun c' => is_Some (url_Parse (config.URL c')))
            (take i (config.Backends cfg))).
Proof.
  unfold New. case_bool_decide as Hlen.
  - intros [= <-]. left. split; [reflexivity |].
    destruct (config.Backends cfg); [reflexivity | discriminate].
  - destruct (init_backends url_Parse (config.Backends cfg)) as [pool | e']
      eqn:Hinit; [discriminate |].
    intros [= <-]. right. apply init_backends_error, Hinit.
Qed.

(** X16.  What [New] hands over: every backend starts alive and idle
    (the first round of probes corrects the flags), the balancer is fresh
    and covers the whole store, least-connections and weighted are chosen
    by their names and every other name, known or not, gives round-robin,
    and a health checker over all backends exists exactly when health
    checking is enabled. *)
Theorem New_initial_state cfg pool rp :
  New url_Parse cfg = Ok (pool, rp) ->
  all_alive pool /\
  Forall (fun b => Connections b = 0) pool /\
  rp_config rp = cfg /\
  over pool (loadBalancer rp) /\ cursor_of (loadBalancer rp) = 0 /\
  loadBalancer rp =
    (let algorithm := config.Algorithm (config.LoadBalancer cfg) in
     if bool_decide (algorithm = "least-connections")
     then LeastConnections (NewLeastConnectionsBalancer (ptrs pool))
     else if bool_decide (algorithm = "weighted")
     then Weighted (NewWeightedBalancer (ptrs pool))
     else RoundRobin (NewRoundRobinBalancer (ptrs pool))) /\
  healthCheck rp =
    (if config.Enabled (config.HealthCheck cfg)
     then Some (NewHealthChecker cfg (ptrs pool)) else None).
Proof.
  intros Hnew.
  pose proof (well_formed_New url_Parse cfg pool rp Hnew)
    as (_ & _ & Hover & _).
  cbn [sys_pool sys_rp] in Hover.
  unfold New in Hnew. case_bool_decide; [discriminate |].
  destruct (init_backends url_Parse (config.Backends cfg)) as [pool' | e']
    eqn:Hinit; [| discriminate].
  injection Hnew as <- <-.
  pose proof (init_backends_spec url_Parse _ _ Hinit) as Hspec.
  cbn [rp_config loadBalancer healthCheck] in *.
  split; [| split; [| split; [reflexivity | split; [exact Hover |]]]].
  - unfold all_alive. apply Forall_lookup. intros p b Hb.
    destruct (Forall2_lookup_r _ _ _ _ _ Hspec Hb) as (c & _ & _ & Ha & _).
    exact Ha.
  - apply Forall_lookup. intros p b Hb.
    destruct (Forall2_lookup_r _ _ _ _ _ Hspec Hb) as (c & _ & _ & _ & _ & Hc).
    exact Hc.
  - unfold init_loadBalancer. cbn zeta.
    repeat case_bool_decide; try congruence; repeat split; reflexivity.
Qed.

End Loading.

(** X13 for a configuration whose second backend has weight -2. *)
Lemma Validate_reports_first_faulty_backend_witness :
  let cfg :=
    example_config [ {| config.URL := "http://a"; config.Weight := 2 |};
                     {| config.URL := "http://b"; config.Weight := -2 |};
                     {| config.URL := ""; config.Weight := 1 |} ]
                   "weighted" in
  config.Validate parse_any id cfg = Some (config.ErrBackendWeight 1) /\
  exists c,
    config.Backends cfg !! 1%nat = Some c /\
    backend_fault parse_any (config.ErrBackendWeight 1) c /\
    Forall (backend_ok parse_any) (take 1 (config.Backends cfg)).
Proof.
  intros cfg. split; [reflexivity |].
  apply (Validate_reports_first_faulty_backend parse_any id cfg).
  - reflexivity.
  - reflexivity.
Defined.

(** X14 for a file that sets the backends and nothing else. *)
Lemma Load_then_New_succeeds_witness :
  let raw :=
    {| config.Server :=
         {| config.Address := ":8080"; config.ReadTimeout := 0;
            config.WriteTimeout := 0; config.IdleTimeout := 0 |};
       config.Backends :=
         [ {| config.URL := "http://localhost:8081"; config.Weight := 0 |};
           {| config.URL := "http://localhost:8082"; config.Weight := 2 |} ];
       config.LoadBalancer := {| config.Algorithm := "" |};
       config.HealthCheck :=
         {| config.Enabled := true; config.Interval := 0;
            config.Timeout := 0; config.Path := "" |};
       config.Logging := {| config.Level := ""; config.Format := "" |};
       config.TLS := None;
       config.Limits :=
         {| config.MaxConnections := 0; config.MaxIdleConns := 0;
            config.MaxConnsPerHost := 0; config.RequestTimeout := 0;
            config.MaxRequestBodySize := 0 |} |} in
  let cfg := config.setDefaults raw in
  config.Load parse_any id (fun _ => Some "backends: ...")
              (fun _ => Some raw) "config.yaml" = config.Loaded cfg /\
  config.Algorithm (config.LoadBalancer cfg) = "round-robin" /\
  exists pool rp,
    New parse_any cfg = Ok (pool, rp) /\
    length pool = length (config.Backends cfg) /\
    Forall (fun b => 0 < Weight b) pool.
Proof.
  intros raw cfg. split; [reflexivity |]. split; [reflexivity |].
  destruct (Load_then_New_succeeds parse_any id
              (fun _ => Some "backends: ...") (fun _ => Some raw)
              "config.yaml" cfg) as (_ & _ & _ & _ & Hnew).
  - reflexivity.
  - exact Hnew.
Defined.

(** X15 for a configuration whose second address is empty. *)
Lemma New_error_names_first_bad_address_witness :
  let cfg :=
    example_config [ {| config.URL := "http://a"; config.Weight := 1 |};
                     {| config.URL := ""; config.Weight := 1 |} ]
                   "round-robin" in
  New parse_any cfg = Err (ErrInvalidBackendURL "") /\
  ((ErrInvalidBackendURL "" = ErrNoBackendsConfigured /\
    config.Backends cfg = []) \/
   (exists (i : nat) (c : config.Backend),
      config.Backends cfg !! i = Some c /\
      ErrInvalidBackendURL "" = ErrInvalidBackendURL (config.URL c) /\
      parse_any (config.URL c) = None /\
      Forall (fun c' => is_Some (parse_any (config.URL c')))
             (take i (config.Backends cfg)))).
Proof.
  intros cfg. split; [reflexivity |].
  apply (New_error_names_first_bad_address parse_any cfg). reflexivity.
Defined.

(** X16 for two backends and the round-robin algorithm. *)
Lemma New_initial_state_witness :
  New parse_any example_cfg = Ok (example_pool, example_rp) /\
  all_alive example_pool /\
  cursor_of (loadBalancer example_rp) = 0.
Proof.
  split; [reflexivity |].
  destruct (New_initial_state parse_any example_cfg example_pool example_rp)
    as (H1 & _ & _ & _ & H5 & _).
  - reflexivity.
  - split; [exact H1 | exact H5].
Defined.

(** ** Least-connections under simultaneous requests *)

Lemma lc_choice pool lb :
  lc_backends lb = ptrs pool ->
  Forall (fun b => 0 <= Connections b) pool ->
  Exists (fun b => Alive b = true) pool ->
  exists p,
    LeastConnections_NextBackend pool lb = Ret (Some p) /\
    alive_at pool p = true /\
    forall q, alive_at pool q = true ->
      connections_at pool p <= connections_at pool q /\
      ((q < p)%nat -> connections_at pool p < connections_at pool q).
Proof.
  intros Hbs Hnn Hex. unfold LeastConnections_NextBackend.
  rewrite Hbs. unfold ptrs.
  destruct (lc_scan_seq pool Hnn (length pool) 0 None (-1))
    as (sel & m & Hscan & Hinv); [lia | |].
  { split; [reflexivity |]. intros q Hq. lia. }
  rewrite Hscan. destruct sel as [p |]; cbn [lc_invariant] in Hinv.
  - destruct Hinv as (Hp & Hpa & Hpc & Hmin).
    exists p. split; [reflexivity |]. split; [exact Hpa |].
    intros q Hqa. rewrite Hpc. apply Hmin; [| exact Hqa].
    apply lookup_lt_is_Some_1, alive_at_valid, Hqa.
  - exfalso. destruct Hinv as [_ Hdead].
    apply Exists_exists in Hex as (b & Hin & Hal).
    apply list_elem_of_lookup in Hin as [q Hq].
    specialize (Hdead q (lookup_lt_Some _ _ _ Hq)).
    unfold alive_at in Hdead. rewrite Hq in Hdead. congruence.
Qed.

(** On a store spread as [spread a r] the choice is the backend [r]. *)
Lemma lc_choice_spread pool lb (a r : nat) :
  lc_backends lb = ptrs pool -> (r < length pool)%nat ->
  spread a r pool ->
  LeastConnections_NextBackend pool lb = Ret (Some r).
Proof.
  intros Hbs Hr Hsp.
  assert (Hat : forall q, (q < length pool)%nat ->
            alive_at pool q = true /\
            connections_at pool q =
              Z.of_nat a + (if decide (q < r)%nat then 1 else 0)).
  { intros q Hq. destruct (lookup_lt_is_Some_2 pool q Hq) as [b Hb].
    unfold alive_at, connections_at. rewrite Hb. exact (Hsp q b Hb). }
  destruct (lc_choice pool lb Hbs) as (p & Hcall & Hpa & Hmin).
  - apply Forall_lookup. intros q b Hb. destruct (Hsp q b Hb) as [_ ->].
    destruct (decide _); lia.
  - destruct (lookup_lt_is_Some_2 pool r Hr) as [b Hb].
    apply Exists_exists. exists b. split.
    + apply list_elem_of_lookup. eauto.
    + exact (proj1 (Hsp r b Hb)).
  - rewrite Hcall. do 2 f_equal.
    assert (Hp : (p < length pool)%nat)
      by (apply lookup_lt_is_Some_1, alive_at_valid, Hpa).
    destruct (Hat p Hp) as [_ Hcp]. destruct (Hat r Hr) as [Hra Hcr].
    destruct (Hmin r Hra) as [Hle Hlt]. rewrite Hcp, Hcr in *.
    destruct (decide (r < r)%nat); [lia |].
    destruct (decide (p < r)%nat); [lia |].
    destruct (decide (p = r)) as [-> | Hne]; [reflexivity |].
    specialize (Hlt ltac:(lia)). lia.
Qed.

Lemma spread_track pool (a r : nat) :
  (r < length pool)%nat -> Z.of_nat a + 1 < 2 ^ 63 ->
  spread a r pool ->
  length (track r pool) = length pool /\
  (if decide (S r < length pool)%nat
   then spread a (S r) (track r pool)
   else spread (S a) 0 (track r pool)).
Proof.
  intros Hr Ha Hsp. unfold track.
  split; [apply length_alter |].
  assert (Hnew : forall p b', alter incConnections r pool !! p = Some b' ->
            Alive b' = true /\
            Connections b' =
              Z.of_nat a + (if decide (p < S r)%nat then 1 else 0)).
  { intros p b' Hb'. destruct (decide (p = r)) as [-> | Hne].
    - rewrite list_lookup_alter_eq in Hb'.
      destruct (pool !! r) as [b |] eqn:Hb; [| discriminate].
      injection Hb' as <-. destruct (Hsp r b Hb) as [Hal Hc].
      split; [exact Hal |]. cbn [incConnections Connections]. rewrite Hc.
      destruct (decide (r < r)%nat); [lia |].
      destruct (decide (r < S r)%nat); [| lia].
      rewrite Z.add_0_r. apply wrap_int_small. lia.
    - rewrite list_lookup_alter_ne in Hb' by congruence.
      destruct (Hsp p b' Hb') as [Hal Hc]. split; [exact Hal |]. rewrite Hc.
      destruct (decide (p < r)%nat); destruct (decide (p < S r)%nat);
        lia. }
  destruct (decide (S r < length pool)%nat) as [Hlt | Hge].
  - exact Hnew.
  - intros p b' Hb'. destruct (Hnew p b' Hb') as [Hal Hc].
    split; [exact Hal |]. rewrite Hc.
    apply lookup_lt_Some in Hb'. rewrite length_alter in Hb'.
    destruct (decide (p < S r)%nat); [| lia].
    destruct (decide (p < 0)%nat); lia.
Qed.

Lemma arrivals_spread lb : forall (k a r : nat) pool,
  lc_backends lb = ptrs pool -> (r < length pool)%nat ->
  Z.of_nat (a + k) + 1 < 2 ^ 63 ->
  spread a r pool ->
  snd (arrivals k pool (LeastConnections lb)) =
    map (fun i => Ret (Some ((a * length pool + r + i) mod length pool)%nat))
        (seq 0 k) /\
  exists a' r',
    (r' < length pool)%nat /\
    spread a' r' (fst (fst (arrivals k pool (LeastConnections lb)))).
Proof.
  induction k as [| k IH]; intros a r pool Hbs Hr Ha Hsp.
  - cbn [arrivals snd fst seq map]. split; [reflexivity | eauto].
  - cbn [arrivals NextBackend].
    rewrite (lc_choice_spread pool lb a r Hbs Hr Hsp).
    destruct (spread_track pool a r Hr ltac:(lia) Hsp) as [Hlen Hnext].
    assert (Hbs' : lc_backends lb = ptrs (track r pool))
      by (unfold ptrs; rewrite Hlen; exact Hbs).
    assert (Hhead : ((a * length pool + r + 0) mod length pool)%nat = r).
    { rewrite Nat.add_0_r, Nat.add_comm, Nat.Div0.mod_add.
      apply Nat.mod_small, Hr. }
    destruct (decide (S r < length pool)%nat) as [Hlt | Hge].
    + destruct (IH a (S r) (track r pool) Hbs') as [Hres Hfin];
        [lia | lia | exact Hnext |].
      destruct (arrivals k (track r pool) (LeastConnections lb))
        as [[pool2 l2] rs].
      cbn [fst snd] in *. rewrite Hlen in Hres, Hfin.
      split; [| exact Hfin].
      cbn [seq map]. rewrite Hhead. f_equal.
      rewrite Hres, <- seq_shift, map_map.
      apply map_ext. intros i. do 3 f_equal. lia.
    + destruct (IH (S a) 0%nat (track r pool) Hbs') as [Hres Hfin];
        [lia | lia | exact Hnext |].
      destruct (arrivals k (track r pool) (LeastConnections lb))
        as [[pool2 l2] rs].
      cbn [fst snd] in *. rewrite Hlen in Hres, Hfin.
      split; [| exact Hfin].
      cbn [seq map]. rewrite Hhead. f_equal.
      rewrite Hres, <- seq_shift, map_map.
      apply map_ext. intros i. do 3 f_equal. lia.
Qed.

(** X17.  Least-connections spreads simultaneous requests evenly: on a
    store of alive, idle backends, requests that arrive one after the
    other and stay in flight are sent to the backends in pool order, round
    after round, the [i]-th (from 0) to backend [i mod poolSize]; at any
    moment the counts of two backends differ by one at most. *)
Theorem LeastConnections_spreads_evenly pool lb (k : nat) :
  lc_backends lb = ptrs pool ->
  pool <> [] ->
  all_alive pool ->
  Forall (fun b => Connections b = 0) pool ->
  Z.of_nat k < 2 ^ 62 ->
  snd (arrivals k pool (LeastConnections lb)) =
    map (fun i => Ret (Some (i mod length pool)%nat)) (seq 0 k) /\
  forall b b',
    b ∈ fst (fst (arrivals k pool (LeastConnections lb))) ->
    b' ∈ fst (fst (arrivals k pool (LeastConnections lb))) ->
    Connections b <= Connections b' + 1.
Proof.
  intros Hbs Hne Hal Hidle Hk.
  assert (Hlen : (0 < length pool)%nat)
    by (destruct pool; [congruence | cbn; lia]).
  destruct (arrivals_spread lb k 0 0 pool Hbs Hlen) as [Hres Hfin].
  - lia.
  - intros p b Hb. split; [exact (all_alive_lookup pool p b Hal Hb) |].
    rewrite Forall_lookup in Hidle. rewrite (Hidle p b Hb).
    destruct (decide (p < 0)%nat); lia.
  - split; [exact Hres |].
    destruct Hfin as (a' & r' & _ & Hsp).
    intros b b' Hb Hb'.
    apply list_elem_of_lookup in Hb as [p Hp].
    apply list_elem_of_lookup in Hb' as [p' Hp'].
    destruct (Hsp p b Hp) as [_ ->]. destruct (Hsp p' b' Hp') as [_ ->].
    destruct (decide (p < r')%nat); destruct (decide (p' < r')%nat); lia.
Qed.

(** X17 for five requests on three backends. *)
Lemma LeastConnections_spreads_evenly_witness :
  let pool := alive_pool [1; 1; 1] in
  let lb := NewLeastConnectionsBalancer (ptrs pool) in
  snd (arrivals 5 pool (LeastConnections lb)) =
    [Ret (Some 0%nat); Ret (Some 1%nat); Ret (Some 2%nat);
     Ret (Some 0%nat); Ret (Some 1%nat)] /\
  map Connections (fst (fst (arrivals 5 pool (LeastConnections lb))))
    = [2; 2; 1].
Proof.
  intros pool lb.
  destruct (LeastConnections_spreads_evenly pool lb 5) as [Hres _].
  - reflexivity.
  - discriminate.
  - repeat constructor.
  - repeat constructor.
  - cbn. lia.
  - split; [rewrite Hres; reflexivity | reflexivity].
Defined.

(** X18 for seven calls on three backends. *)
Lemma RoundRobin_cyclic_without_wrap_witness :
  let pool := alive_pool [1; 1; 1] in
  snd (calls pool 4 (RoundRobin (NewRoundRobinBalancer (ptrs pool)))) =
    [Ret (Some 1%nat); Ret (Some 2%nat); Ret (Some 0%nat); Ret (Some 1%nat)]
  /\
  cyclic_visits 3
    (snd (calls pool 7 (RoundRobin (NewRoundRobinBalancer (ptrs pool))))).
Proof.
  intros pool. split; [reflexivity |].
  apply (RoundRobin_cyclic_without_wrap pool
           (NewRoundRobinBalancer (ptrs pool)) 7).
  - repeat constructor.
  - reflexivity.
  - cbn. lia.
  - cbn. lia.
  - left. cbn. lia.
Defined.

(** X19 for weights 2 and 1: three calls, two for the first backend. *)
Lemma Weighted_cycle_shares_witness :
  let pool := alive_pool [2; 1] in
  selections pool (Weighted (NewWeightedBalancer (ptrs pool))) 0%nat 3 = 2 /\
  selections pool (Weighted (NewWeightedBalancer (ptrs pool))) 1%nat 3 = 1.
Proof.
  intros pool. split.
  - apply (Weighted_cycle_shares pool (NewWeightedBalancer (ptrs pool)) 0%nat
             {| URL := "http://backend"; Alive := true; Weight := 2;
                Connections := 0 |}).
    + repeat constructor.
    + reflexivity.
    + cbn. lia.
    + cbn. lia.
    + left. cbn. lia.
    + reflexivity.
  - reflexivity.
Defined.

(** ** The weighted shares in the long run *)

Lemma count_selected_bounds p rs :
  0 <= count_selected p rs <= Z.of_nat (length rs).
Proof.
  induction rs as [| r rs IH]; cbn [count_selected length]; [lia |].
  destruct (returns p r); lia.
Qed.

(** When the slice length divides [2 ^ 32] every window of that many
    calls, wherever it starts, returns each pointer as often as the slice
    holds it. *)
Lemma count_window_from p (e : list ptr) current (a : nat) :
  e <> [] -> 0 <= current -> (Z.of_nat (length e) | 2 ^ 32) ->
  count_selected p
    (map (fun i => Ret (e !! slot_index current (Z.of_nat (length e)) (S i)))
         (seq a (length e))) = count_ptr p e.
Proof.
  intros Hne Hc Hdiv.
  replace (seq a (length e)) with (map (Nat.add a) (seq 0 (length e)))
    by (etrans; [apply (fmap_add_seq a 0 (length e)) | f_equal; lia]).
  rewrite map_map.
  rewrite (map_ext _ (fun i => Ret (e !! slot_index (current + Z.of_nat a)
                                          (Z.of_nat (length e)) (S i)))).
  - apply count_window; [exact Hne | lia | right; exact Hdiv].
  - intros i. unfold slot_index.
    replace (current + Z.of_nat (S (a + i)))
      with (current + Z.of_nat a + Z.of_nat (S i)) by lia.
    reflexivity.
Qed.

Lemma count_cycles p (e : list ptr) current :
  e <> [] -> 0 <= current -> (Z.of_nat (length e) | 2 ^ 32) ->
  forall (m a : nat),
  count_selected p
    (map (fun i => Ret (e !! slot_index current (Z.of_nat (length e)) (S i)))
         (seq a (m * length e))) = Z.of_nat m * count_ptr p e.
Proof.
  intros Hne Hc Hdiv. induction m as [| m IH]; intros a.
  - reflexivity.
  - cbn [Nat.mul]. rewrite seq_app, map_app, count_selected_app.
    rewrite count_window_from by assumption.
    rewrite IH. lia.
Qed.

(** X20.  When the sum of the weights divides [2 ^ 32] (the weights 3 and
    1 of the README, any sum that is a power of two) the weighted shares
    hold in the long run: with all backends alive, the fraction of calls
    that return a backend converges to its weight over the sum of the
    weights, from any cursor. *)
Theorem Weighted_converges_when_sum_divides pool wb p b :
  all_alive pool ->
  wb_backends wb = ptrs pool -> 0 <= wb_current wb < 2 ^ 32 ->
  0 < total_weight pool < 2 ^ 32 ->
  (total_weight pool | 2 ^ 32) ->
  pool !! p = Some b ->
  fraction_converges (selections pool (Weighted wb) p)
                     (Z.max 0 (Weight b)) (total_weight pool).
Proof.
  intros Hal Hbs Hc Hn Hdiv Hb D HD.
  pose proof (expansion_length pool 0) as Hlen.
  set (e := expansion_from 0 pool) in *.
  assert (Hne : e <> []) by (intros He; rewrite He in Hlen; cbn in Hlen; lia).
  assert (Hw : count_ptr p e = Z.max 0 (Weight b)).
  { unfold e. rewrite count_ptr_expansion, Nat.sub_0_r, Hb.
    rewrite bool_decide_eq_true_2 by lia. reflexivity. }
  assert (Hwle : 0 <= count_ptr p e <= Z.of_nat (length e)).
  { unfold count_ptr.
    pose proof (count_selected_bounds p (map (fun q => Ret (Some q)) e)) as H.
    rewrite length_map in H. exact H. }
  exists (Z.to_nat (D * total_weight pool)). intros k Hk.
  unfold selections.
  rewrite calls_all_alive_map; [| exact Hal | split; assumption | exact I
                                | exact Hn].
  cbn [slice_of slots_of cursor_of]. fold e. rewrite <- Hlen in *.
  set (n := length e) in *.
  assert (Hnpos : (0 < n)%nat) by lia.
  pose proof (Nat.div_mod_eq k n) as Hdm.
  pose proof (Nat.mod_upper_bound k n ltac:(lia)) as Hmod.
  set (m := (k / n)%nat) in *. set (t := (k mod n)%nat) in *.
  replace (seq 0 k) with (seq 0 (m * n) ++ seq (m * n) t)
    by (rewrite <- seq_app; f_equal; lia).
  rewrite map_app, count_selected_app.
  unfold n at 2. rewrite (count_cycles p e (wb_current wb) Hne) by (tauto || exact Hdiv).
  set (tail := map _ (seq (m * n) t)).
  pose proof (count_selected_bounds p tail) as Hd.
  assert (Htl : length tail = t)
    by (unfold tail; rewrite length_map, length_seq; reflexivity).
  rewrite Htl in Hd. rewrite Hw in *.
  set (w := Z.max 0 (Weight b)) in *. set (d := count_selected p tail) in *.
  assert (Hk' : Z.of_nat k = Z.of_nat m * Z.of_nat n + Z.of_nat t) by lia.
  rewrite Hk'.
  assert (Habs : Z.abs ((Z.of_nat m * w + d) * Z.of_nat n
                        - (Z.of_nat m * Z.of_nat n + Z.of_nat t) * w)
                 <= Z.of_nat n * Z.of_nat n).
  { replace ((Z.of_nat m * w + d) * Z.of_nat n
             - (Z.of_nat m * Z.of_nat n + Z.of_nat t) * w)
      with (d * Z.of_nat n - Z.of_nat t * w) by ring.
    assert (0 <= d * Z.of_nat n <= Z.of_nat n * Z.of_nat n) by nia.
    assert (0 <= Z.of_nat t * w <= Z.of_nat n * Z.of_nat n) by nia.
    lia. }
  assert (HkD : D * Z.of_nat n <= Z.of_nat m * Z.of_nat n + Z.of_nat t) by lia.
  clearbody w d m t n. nia.
Qed.

(** X20 for the weights 3 and 1. *)
Lemma Weighted_converges_when_sum_divides_witness :
  let pool := alive_pool [3; 1] in
  fraction_converges
    (selections pool (Weighted (NewWeightedBalancer (ptrs pool))) 0%nat) 3 4
  /\
  fraction_converges
    (selections pool (Weighted (NewWeightedBalancer (ptrs pool))) 1%nat) 1 4.
Proof.
  intros pool. split.
  - apply (Weighted_converges_when_sum_divides pool
             (NewWeightedBalancer (ptrs pool)) 0%nat
             {| URL := "http://backend"; Alive := true; Weight := 3;
                Connections := 0 |}).
    + repeat constructor.
    + reflexivity.
    + cbn. lia.
    + cbn. lia.
    + exists (2 ^ 30). reflexivity.
    + reflexivity.
  - apply (Weighted_converges_when_sum_divides pool
             (NewWeightedBalancer (ptrs pool)) 1%nat
             {| URL := "http://backend"; Alive := true; Weight := 1;
                Connections := 0 |}).
    + repeat constructor.
    + reflexivity.
    + cbn. lia.
    + cbn. lia.
    + exists (2 ^ 30). reflexivity.
    + reflexivity.
Defined.

(** * Calls that overlap *)

(** ** The loop among other calls *)

Lemma scan_among_alone pool slots n iters : forall others current,
  alone others ->
  scan_among others pool slots n iters current =
  scan pool slots n iters current.
Proof.
  induction iters as [| iters IH]; intros others current Hal;
    cbn [scan_among scan]; [reflexivity |].
  assert (Hhd : hd 0%nat others = 0%nat)
    by (destruct Hal; [reflexivity | assumption]).
  assert (Htl : alone (tl others))
    by (destruct Hal; [constructor | assumption]).
  rewrite Hhd. unfold AddUint32. rewrite uint32_add_l.
  replace (current + Z.of_nat 0 + 1) with (current + 1) by lia.
  destruct (uint32 n =? 0); [reflexivity |].
  destruct (slots !! _) as [p |]; [| reflexivity].
  destruct (pool !! p) as [b |]; [| reflexivity].
  destruct (Alive b); [reflexivity | apply IH, Htl].
Qed.

(** A call that no other call overlaps is the call on its own. *)
Lemma NextBackend_among_alone others pool l :
  alone others -> NextBackend_among others pool l = NextBackend pool l.
Proof.
  intros Hal. destruct l as [rb | lb | wb]; cbn [NextBackend_among NextBackend].
  - unfold RoundRobin_NextBackend_among, RoundRobin_NextBackend.
    rewrite scan_among_alone by exact Hal. reflexivity.
  - reflexivity.
  - unfold Weighted_NextBackend_among, Weighted_NextBackend.
    destruct (expand pool (wb_backends wb)) as [e | err]; [| reflexivity].
    rewrite scan_among_alone by exact Hal. reflexivity.
Qed.

Lemma scan_among_ret_alive pool slots n iters : forall others current p,
  snd (scan_among others pool slots n iters current) = Ret (Some p) ->
  alive_at pool p = true.
Proof.
  induction iters as [| iters IH]; intros others current p; cbn [scan_among].
  - discriminate.
  - destruct (uint32 n =? 0); [discriminate |].
    destruct (slots !! _) as [q |]; [| discriminate].
    destruct (pool !! q) as [b |] eqn:Hb; [| discriminate].
    destruct (Alive b) eqn:Hal.
    + intros [= <-]. unfold alive_at. rewrite Hb. exact Hal.
    + apply IH.
Qed.

(** Overlapped or not, a call returns only what it has just seen alive. *)
Lemma NextBackend_among_ret_alive others pool l p :
  snd (NextBackend_among others pool l) = Ret (Some p) ->
  alive_at pool p = true.
Proof.
  destruct l as [rb | lb | wb]; cbn [NextBackend_among].
  - unfold RoundRobin_NextBackend_among. case_bool_decide; [discriminate |].
    pose proof (scan_among_ret_alive pool (rr_backends rb)
                  (Z.of_nat (length (rr_backends rb)))
                  (length (rr_backends rb)) others (rr_current rb) p)
      as Hscan.
    destruct (scan_among _ _ _ _ _ _) as [c r]. exact Hscan.
  - cbn [snd]. unfold LeastConnections_NextBackend.
    apply lc_scan_ret_alive. discriminate.
  - unfold Weighted_NextBackend_among.
    destruct (expand pool (wb_backends wb)) as [e | err]; [| discriminate].
    case_bool_decide; [discriminate |].
    pose proof (scan_among_ret_alive pool e (Z.of_nat (length e)) (length e)
                  others (wb_current wb) p) as Hscan.
    destruct (scan_among _ _ _ _ _ _) as [c r]. exact Hscan.
Qed.

Lemma scan_among_dead_slots pool slots n iters : forall others current,
  0 < n < 2 ^ 32 -> n = Z.of_nat (length slots) -> valid_ptrs pool slots ->
  (forall p, p ∈ slots -> alive_at pool p = false) ->
  snd (scan_among others pool slots n iters current) = Ret None.
Proof.
  induction iters as [| iters IH]; intros others current Hn Hlen Hvalid Hdead;
    cbn [scan_among]; [reflexivity |].
  rewrite (uint32_small n) by lia.
  destruct (Z.eqb_spec n 0); [lia |].
  set (c' := AddUint32 _ 1).
  pose proof (Z.mod_pos_bound c' n ltac:(lia)) as Hb.
  destruct (lookup_lt_is_Some_2 slots (Z.to_nat (c' mod n))) as [p Hp];
    [lia |].
  rewrite Hp.
  assert (Hin : p ∈ slots) by (apply list_elem_of_lookup; eauto).
  destruct (Hvalid p Hin) as [b Hpb]. rewrite Hpb.
  specialize (Hdead p Hin) as Hpd. unfold alive_at in Hpd.
  rewrite Hpb in Hpd. rewrite Hpd.
  apply IH; assumption.
Qed.

(** Overlapped or not, a call returns nothing when no backend is
    eligible. *)
Lemma NextBackend_among_none_eligible others pool l :
  over pool l -> slots_of pool l < 2 ^ 32 ->
  Forall (fun b => ~ eligible l b) pool ->
  snd (NextBackend_among others pool l) = Ret None.
Proof.
  intros Hover Hn Hno.
  destruct l as [rb | lb | wb];
    cbn [over slots_of eligible NextBackend_among] in *.
  - destruct Hover as [Hbs Hc]. unfold RoundRobin_NextBackend_among.
    rewrite Hbs, ptrs_length. case_bool_decide as Hz; [reflexivity |].
    pose proof (scan_among_dead_slots pool (ptrs pool)
                  (Z.of_nat (length pool)) (length pool) others
                  (rr_current rb)) as Hscan.
    destruct (scan_among _ _ _ _ _ _) as [c r]. apply Hscan.
    + lia.
    + rewrite ptrs_length. reflexivity.
    + apply ptrs_valid.
    + intros p Hp. apply ptrs_elem in Hp.
      destruct (lookup_lt_is_Some_2 pool p Hp) as [b Hb].
      unfold alive_at. rewrite Hb. rewrite Forall_lookup in Hno.
      specialize (Hno p b Hb). destruct (Alive b); congruence.
  - cbn [snd]. apply LeastConnections_NextBackend_spec; [exact Hover |].
    unfold all_dead. eapply Forall_impl; [exact Hno |].
    cbn. intros b Hb. destruct (Alive b); congruence.
  - destruct Hover as [Hbs Hc]. unfold Weighted_NextBackend_among.
    rewrite Hbs, expand_ptrs.
    pose proof (expansion_length pool 0) as Hlen.
    case_bool_decide as Hz; [reflexivity |].
    pose proof (scan_among_dead_slots pool (expansion_from 0 pool)
                  (Z.of_nat (length (expansion_from 0 pool)))
                  (length (expansion_from 0 pool)) others (wb_current wb))
      as Hscan.
    destruct (scan_among _ _ _ _ _ _) as [c r]. apply Hscan.
    + lia.
    + reflexivity.
    + apply expansion_valid.
    + intros p Hp. apply expansion_elem in Hp as (b & Hb & _ & Hw).
      rewrite Nat.sub_0_r in Hb. unfold alive_at. rewrite Hb.
      rewrite Forall_lookup in Hno. specialize (Hno p b Hb).
      destruct (Alive b); [exfalso; apply Hno; auto | reflexivity].
Qed.

(** What an overlap can do: on a store of a dead and an alive backend,
    a second call increments the cursor between the two iterations of
    this call, so this call probes the dead slot twice and returns
    nothing, the cursor never wrapping. *)
Lemma RoundRobin_overlapped_call_misses :
  let pool :=
    [ {| URL := "http://a"; Alive := false; Weight := 1; Connections := 0 |};
      {| URL := "http://b"; Alive := true; Weight := 1; Connections := 0 |} ]
  in
  RoundRobin_NextBackend_among [0; 1]%nat pool
    {| rr_backends := ptrs pool; rr_current := 1 |} =
  ({| rr_backends := ptrs pool; rr_current := 4 |}, Ret None).
Proof. reflexivity. Qed.

(** ** C1: when [NextBackend] returns nothing *)

(** C1, as amended.  For a balancer over the whole store and every call,
    overlapped by other calls or not: a backend it returns was alive when
    checked, and it returns nothing when no backend is eligible, where
    eligible means alive and, for the weighted balancer, of positive
    weight.  For a call that no other call on the same balancer overlaps
    and during which the cursor does not skew the indices, the converse
    holds too: it returns nothing exactly when no backend is eligible,
    and returns a backend whenever one is eligible. *)
Theorem NextBackend_among_none_iff_none_eligible others pool l :
  over pool l ->
  slots_of pool l < 2 ^ 32 ->
  (forall p, snd (NextBackend_among others pool l) = Ret (Some p) ->
     alive_at pool p = true) /\
  (Forall (fun b => ~ eligible l b) pool ->
     snd (NextBackend_among others pool l) = Ret None) /\
  (alone others ->
   no_skew (cursor_of l) (slots_of pool l) ->
   (snd (NextBackend_among others pool l) = Ret None <->
    Forall (fun b => ~ eligible l b) pool) /\
   (Exists (eligible l) pool ->
    exists p, snd (NextBackend_among others pool l) = Ret (Some p))).
Proof.
  intros Hover Hn. split; [| split].
  - intros p. apply NextBackend_among_ret_alive.
  - apply NextBackend_among_none_eligible; assumption.
  - intros Hal Hs. rewrite (NextBackend_among_alone others pool l Hal).
    destruct (NextBackend_sequential_none_iff pool l Hover Hn Hs)
      as (H1 & _ & H3).
    split; assumption.
Qed.

(** C1 at a store of two backends, the first dead, for a call on its own
    and for any call. *)
Lemma NextBackend_among_none_iff_none_eligible_witness :
  let pool := [ {| URL := "http://x"; Alive := false; Weight := 1;
                   Connections := 0 |};
                {| URL := "http://y"; Alive := true; Weight := 1;
                   Connections := 0 |} ] in
  let l := RoundRobin (NewRoundRobinBalancer (ptrs pool)) in
  snd (NextBackend_among [0; 0]%nat pool l) = Ret (Some 1%nat) /\
  (forall others p, snd (NextBackend_among others pool l) = Ret (Some p) ->
     alive_at pool p = true) /\
  (snd (NextBackend_among [0; 0]%nat pool l) = Ret None <->
   Forall (fun b => ~ eligible l b) pool).
Proof.
  intros pool l. split; [reflexivity |]. split.
  - intros others.
    apply (NextBackend_among_none_iff_none_eligible others pool l).
    + split; [reflexivity | cbn; lia].
    + cbn. lia.
  - apply (NextBackend_among_none_iff_none_eligible [0; 0]%nat pool l).
    + split; [reflexivity | cbn; lia].
    + cbn. lia.
    + repeat constructor.
    + left. cbn. lia.
Defined.

(** ** C2: the connection count around one request *)

Lemma connections_at_track pool p :
  is_Some (pool !! p) ->
  connections_at (track p pool) p = wrap_int (connections_at pool p + 1).
Proof.
  intros [b Hb]. unfold connections_at, track.
  rewrite list_lookup_alter_eq, Hb. reflexivity.
Qed.

Lemma connections_at_release pool p :
  is_Some (pool !! p) ->
  connections_at (release p pool) p = wrap_int (connections_at pool p - 1).
Proof.
  intros [b Hb]. unfold connections_at, release.
  rewrite list_lookup_alter_eq, Hb. reflexivity.
Qed.

Lemma is_Some_same_length (pool pool' : list Backend) p :
  length pool' = length pool -> is_Some (pool !! p) -> is_Some (pool' !! p).
Proof.
  intros Hlen Hp. apply lookup_lt_is_Some. rewrite Hlen.
  apply lookup_lt_is_Some, Hp.
Qed.

(** The request served on its own is the request among no others. *)
Lemma ServeHTTP_among_alone fwd pool rp :
  ServeHTTP_among [] id id fwd pool rp = ServeHTTP fwd pool rp.
Proof.
  unfold ServeHTTP_among, ServeHTTP.
  rewrite NextBackend_among_alone by constructor. reflexivity.
Qed.

(** C2.  A request routed to a backend, whatever the other goroutines do
    to the store meanwhile: the transport starts in the store in which
    the backend's count has just been incremented, and on every way out
    of the transport (response, transport error, panic) the count in the
    store the transport ends in is decremented.  So when nobody else
    changes this backend's count while the request is served, the count
    after the request is the count before it. *)
Theorem ServeHTTP_among_counts_in_and_out others before during fwd
    pool rp l backend :
  keeps_records before -> keeps_records during ->
  NextBackend_among others pool (loadBalancer rp) = (l, Ret (Some backend)) ->
  ServeHTTP_among others before during fwd pool rp =
    (release backend (during (track backend (before pool))),
     with_loadBalancer rp l,
     snd (fst (Proxy_ServeHTTP fwd (during (track backend (before pool))))),
     LogProxying (url_of pool backend)
       :: snd (Proxy_ServeHTTP fwd (during (track backend (before pool)))))
  /\
  connections_at (track backend (before pool)) backend =
    wrap_int (connections_at (before pool) backend + 1) /\
  connections_at
    (fst (fst (fst (ServeHTTP_among others before during fwd pool rp))))
    backend =
    wrap_int (connections_at (during (track backend (before pool))) backend
              - 1) /\
  (- 2 ^ 63 <= connections_at pool backend < 2 ^ 63 ->
   connections_at (before pool) backend = connections_at pool backend ->
   connections_at (during (track backend (before pool))) backend =
     connections_at (track backend (before pool)) backend ->
   connections_at
     (fst (fst (fst (ServeHTTP_among others before during fwd pool rp))))
     backend = connections_at pool backend).
Proof.
  intros Hbefore Hduring Hnext.
  assert (Hvalid : is_Some (pool !! backend)).
  { apply alive_at_valid,
      (NextBackend_among_ret_alive others pool (loadBalancer rp)).
    rewrite Hnext. reflexivity. }
  assert (Hv0 : is_Some (before pool !! backend))
    by (eapply is_Some_same_length; [apply Hbefore | exact Hvalid]).
  assert (Hv1 : is_Some (track backend (before pool) !! backend))
    by (eapply is_Some_same_length; [apply length_alter | exact Hv0]).
  assert (Hv2 : is_Some (during (track backend (before pool)) !! backend))
    by (eapply is_Some_same_length; [apply Hduring | exact Hv1]).
  assert (Hserve :
    ServeHTTP_among others before during fwd pool rp =
    (release backend (during (track backend (before pool))),
     with_loadBalancer rp l,
     snd (fst (Proxy_ServeHTTP fwd (during (track backend (before pool))))),
     LogProxying (url_of pool backend)
       :: snd (Proxy_ServeHTTP fwd (during (track backend (before pool)))))).
  { unfold ServeHTTP_among. rewrite Hnext. destruct fwd; reflexivity. }
  assert (Hout :
    connections_at
      (fst (fst (fst (ServeHTTP_among others before during fwd pool rp))))
      backend =
    wrap_int (connections_at (during (track backend (before pool))) backend
              - 1)).
  { rewrite Hserve. cbn [fst]. apply connections_at_release, Hv2. }
  split; [exact Hserve |]. split; [apply connections_at_track, Hv0 |].
  split; [exact Hout |].
  intros Hrange Hb Hd.
  rewrite Hout, Hd, connections_at_track, Hb by exact Hv0.
  apply wrap_int_inc_dec, Hrange.
Qed.

(** C2 for a request to the second of two backends whose transport fails
    while a probe marks the first backend dead and another request to the
    first backend counts itself in. *)
Lemma ServeHTTP_among_counts_in_and_out_witness :
  let pool := alive_pool [1; 1] in
  let rp := {| rp_config :=
                 example_config
                   [ {| config.URL := "http://backend"; config.Weight := 1 |};
                     {| config.URL := "http://backend"; config.Weight := 1 |} ]
                   "round-robin";
               rp_backends := ptrs pool;
               loadBalancer := RoundRobin (NewRoundRobinBalancer (ptrs pool));
               healthCheck := None |} in
  let during := fun st => track 0%nat (check_at ProbeDoError 0%nat st) in
  connections_at (track 1%nat pool) 1%nat = 1 /\
  map Connections
    (fst (fst (fst (ServeHTTP_among [] id during FwdError pool rp))))
    = [1; 0] /\
  snd (fst (ServeHTTP_among [] id during FwdError pool rp))
    = Ret BadGateway.
Proof.
  intros pool rp during.
  destruct (ServeHTTP_among_counts_in_and_out [] id during FwdError pool rp
              (RoundRobin {| rr_backends := ptrs pool; rr_current := 1 |})
              1%nat) as (H1 & H2 & _).
  - intros st. reflexivity.
  - intros st. unfold during, track, check_at. rewrite !length_alter.
    reflexivity.
  - reflexivity.
  - split; [exact H2 |]. rewrite H1. split; reflexivity.
Defined.

(** ** Round-robin and recovery for a call on its own *)

(** X7.  Round-robin skips the dead: a call that no other call on the
    same balancer overlaps and during which the cursor does not skew the
    indices returns the first alive backend after the cursor in cyclic
    pool order, every backend passed over being dead, and leaves the
    cursor on the backend it returns.  A call that is overlapped can miss
    an alive backend. *)
Theorem RoundRobin_lone_call_first_alive others pool rb :
  alone others ->
  rr_backends rb = ptrs pool ->
  0 <= rr_current rb < 2 ^ 32 ->
  Z.of_nat (length pool) < 2 ^ 32 ->
  no_skew (rr_current rb) (Z.of_nat (length pool)) ->
  Exists (fun b => Alive b = true) pool ->
  exists i : nat,
    (1 <= i <= length pool)%nat /\
    RoundRobin_NextBackend_among others pool rb =
      ({| rr_backends := ptrs pool;
          rr_current := uint32 (rr_current rb + Z.of_nat i) |},
       Ret (Some (Z.to_nat ((rr_current rb + Z.of_nat i)
                            mod Z.of_nat (length pool))))) /\
    alive_at pool (Z.to_nat ((rr_current rb + Z.of_nat i)
                             mod Z.of_nat (length pool))) = true /\
    forall i' : nat, (1 <= i' < i)%nat ->
      alive_at pool (Z.to_nat ((rr_current rb + Z.of_nat i')
                               mod Z.of_nat (length pool))) = false.
Proof.
  intros Hal Hbs Hc Hn Hs Hex.
  destruct (RoundRobin_first_alive_sequential pool rb Hbs Hc Hn Hs Hex)
    as (i & Hi & Hcall & Halive & Hdead).
  exists i. split; [exact Hi |]. split; [| split; assumption].
  rewrite <- Hcall.
  unfold RoundRobin_NextBackend_among, RoundRobin_NextBackend.
  rewrite scan_among_alone by exact Hal. reflexivity.
Qed.

(** X7 on four backends, the cursor on the second, the third dead. *)
Lemma RoundRobin_lone_call_first_alive_witness :
  let pool :=
    [ {| URL := "http://a"; Alive := true; Weight := 1; Connections := 0 |};
      {| URL := "http://b"; Alive := true; Weight := 1; Connections := 0 |};
      {| URL := "http://c"; Alive := false; Weight := 1; Connections := 0 |};
      {| URL := "http://d"; Alive := true; Weight := 1; Connections := 0 |} ]
  in
  RoundRobin_NextBackend_among [0; 0]%nat pool
    {| rr_backends := ptrs pool; rr_current := 1 |}
    = ({| rr_backends := ptrs pool; rr_current := 3 |}, Ret (Some 3%nat)) /\
  exists i : nat,
    (1 <= i <= length pool)%nat /\
    RoundRobin_NextBackend_among [0; 0]%nat pool
      {| rr_backends := ptrs pool; rr_current := 1 |} =
      ({| rr_backends := ptrs pool;
          rr_current := uint32 (1 + Z.of_nat i) |},
       Ret (Some (Z.to_nat ((1 + Z.of_nat i) mod 4)))).
Proof.
  intros pool. split; [reflexivity |].
  destruct (RoundRobin_lone_call_first_alive [0; 0]%nat pool
              {| rr_backends := ptrs pool; rr_current := 1 |})
    as (i & Hi & Hcall & _).
  - repeat constructor.
  - reflexivity.
  - cbn. lia.
  - cbn. lia.
  - left. cbn. lia.
  - constructor. reflexivity.
  - exists i. split; [exact Hi | exact Hcall].
Defined.

(** X9.  Recovery needs one probe: when every backend is dead and the
    probe of one of them succeeds, the next call of each strategy that no
    other call on the same balancer overlaps returns that backend (for
    the weighted strategy if its weight is positive), provided the cursor
    does not skew the indices during the call; and whatever a call then
    returns, overlapped or not, is that backend. *)
Theorem probe_success_recovers_lone_call others pr p b pool l :
  over pool l ->
  slots_of pool l < 2 ^ 32 ->
  all_dead pool ->
  pool !! p = Some b ->
  eligible l (SetAlive true b) ->
  probe_ok pr = true ->
  (forall q, snd (NextBackend_among others (check_at pr p pool) l)
             = Ret (Some q) -> q = p) /\
  (alone others ->
   no_skew (cursor_of l) (slots_of pool l) ->
   snd (NextBackend_among others (check_at pr p pool) l) = Ret (Some p)).
Proof.
  intros Hover Hn Hdead Hb Hel Hok. split.
  - intros q Hq. apply NextBackend_among_ret_alive in Hq.
    destruct (decide (q = p)) as [-> | Hne]; [reflexivity |].
    unfold alive_at in Hq. rewrite lookup_check_at in Hq.
    rewrite bool_decide_eq_false_2 in Hq by exact Hne.
    pose proof (all_dead_alive_at pool q Hdead) as Hq'.
    unfold alive_at in Hq'. destruct (pool !! q); cbn in Hq; congruence.
  - intros Hal Hs. rewrite NextBackend_among_alone by exact Hal.
    eapply probe_success_recovers_sequential; eassumption.
Qed.

(** X9 for the second of two dead backends under round-robin. *)
Lemma probe_success_recovers_lone_call_witness :
  let pool :=
    [ {| URL := "http://x"; Alive := false; Weight := 1; Connections := 0 |};
      {| URL := "http://y"; Alive := false; Weight := 1; Connections := 0 |} ]
  in
  let l := RoundRobin (NewRoundRobinBalancer (ptrs pool)) in
  (forall others q,
     snd (NextBackend_among others (check_at (ProbeResponse 200) 1%nat pool) l)
       = Ret (Some q) -> q = 1%nat) /\
  snd (NextBackend_among [0; 0]%nat
         (check_at (ProbeResponse 200) 1%nat pool) l) = Ret (Some 1%nat).
Proof.
  intros pool l.
  set (b := {| URL := "http://y"; Alive := false; Weight := 1;
               Connections := 0 |}).
  assert (Hover : over pool l) by (split; [reflexivity | cbn; lia]).
  assert (Hn : slots_of pool l < 2 ^ 32) by (cbn; lia).
  assert (Hdead : all_dead pool) by (repeat constructor).
  assert (Hb : pool !! 1%nat = Some b) by reflexivity.
  assert (Hel : eligible l (SetAlive true b)) by reflexivity.
  assert (Hok : probe_ok (ProbeResponse 200) = true) by reflexivity.
  split.
  - intros others.
    exact (proj1 (probe_success_recovers_lone_call others (ProbeResponse 200)
                    1%nat b pool l Hover Hn Hdead Hb Hel Hok)).
  - apply (proj2 (probe_success_recovers_lone_call [0; 0]%nat
                    (ProbeResponse 200) 1%nat b pool l
                    Hover Hn Hdead Hb Hel Hok)).
    + repeat constructor.
    + left. cbn. lia.
Defined.
